(** * aubio: src/spectral/fft.c

    A shallow embedding of aubio's FFTW wrapper: the conversions between the
    packed half-complex vector [compspec] and the polar spectrum
    ([norm], [phas]), the forward and inverse drivers around the FFTW plans,
    and construction / destruction of the [aubio_fft_t] object.

    Conventions of the embedding:
    - [uint_t] is a [Z] in [0, 2^32) and its arithmetic wraps around;
    - [smpl_t], [real_t] are idealised as the real numbers [R];
    - a C array is a [list]; a read or a write outside of the array has no
      defined behaviour in C and is the failure [None] of the [option] monad;
    - a [for] loop is an iteration whose trip count is fixed by its bounds. *)

From Stdlib Require Import Reals ZArith List Lia Lra Bool.
Import ListNotations.

Local Open Scope Z_scope.

(** [lia] is asked to reason about [/] and [mod] by constants. *)
Ltac Zify.zify_post_hook ::= Z.to_euclidean_division_equations.

(** ** The error monad *)

Definition bind {A B : Type} (m : option A) (k : A -> option B) : option B :=
  match m with
  | Some a => k a
  | None => None
  end.

Notation "x <- m ;; k" := (bind m (fun x => k))
  (at level 61, m at next level, right associativity).

(** ** [uint_t]: 32-bit unsigned arithmetic *)

Definition uint_modulus : Z := 2 ^ 32.

Definition uint_wrap (z : Z) : Z := z mod uint_modulus.

Definition uadd (a b : Z) : Z := uint_wrap (a + b).
Definition usub (a b : Z) : Z := uint_wrap (a - b).
Definition udiv (a b : Z) : Z := a / b.

Lemma uadd_small a b : 0 <= a + b < uint_modulus -> uadd a b = a + b.
Proof. intros H; unfold uadd, uint_wrap; now apply Z.mod_small. Qed.

Lemma usub_small a b : 0 <= a - b < uint_modulus -> usub a b = a - b.
Proof. intros H; unfold usub, uint_wrap; now apply Z.mod_small. Qed.

(** ** Arrays *)

Fixpoint list_upd {A : Type} (l : list A) (n : nat) (v : A) : list A :=
  match l, n with
  | [], _ => []
  | _ :: t, O => v :: t
  | h :: t, S n' => h :: list_upd t n' v
  end.

Definition in_bounds {A : Type} (l : list A) (i : Z) : bool :=
  (0 <=? i) && (i <? Z.of_nat (length l)).

(** [a[i]] as an rvalue. *)
Definition aget {A : Type} (l : list A) (i : Z) : option A :=
  if in_bounds l i then nth_error l (Z.to_nat i) else None.

(** [a[i] = v]. *)
Definition aset {A : Type} (l : list A) (i : Z) (v : A) : option (list A) :=
  if in_bounds l i then Some (list_upd l (Z.to_nat i) v) else None.

Lemma length_list_upd {A : Type} (l : list A) n v :
  length (list_upd l n v) = length l.
Proof.
  revert n; induction l as [|h t IH]; intros [|n]; simpl; auto.
Qed.

Lemma nth_error_list_upd_eq {A : Type} (l : list A) n v :
  (n < length l)%nat -> nth_error (list_upd l n v) n = Some v.
Proof.
  revert n; induction l as [|h t IH]; intros [|n] H; simpl in *; try lia; auto.
  apply IH; lia.
Qed.

Lemma nth_error_list_upd_neq {A : Type} (l : list A) n m v :
  n <> m -> nth_error (list_upd l n v) m = nth_error l m.
Proof.
  revert n m; induction l as [|h t IH]; intros [|n] [|m] H; simpl; auto; try lia.
Qed.

Lemma in_bounds_true {A : Type} (l : list A) i :
  in_bounds l i = true <-> 0 <= i < Z.of_nat (length l).
Proof.
  unfold in_bounds; rewrite andb_true_iff, Z.leb_le, Z.ltb_lt; tauto.
Qed.

Lemma aget_Some_in {A : Type} (l : list A) i v :
  aget l i = Some v -> 0 <= i < Z.of_nat (length l).
Proof.
  unfold aget; destruct (in_bounds l i) eqn:E; [|discriminate].
  intros _; now apply in_bounds_true.
Qed.

Lemma aset_in {A : Type} (l : list A) i v :
  0 <= i < Z.of_nat (length l) ->
  aset l i v = Some (list_upd l (Z.to_nat i) v).
Proof.
  intros H; unfold aset; now rewrite (proj2 (in_bounds_true l i) H).
Qed.

Lemma aget_aset_eq {A : Type} (l l' : list A) i v :
  aset l i v = Some l' -> aget l' i = Some v.
Proof.
  unfold aset, aget; destruct (in_bounds l i) eqn:E; [|discriminate].
  intros [= <-].
  unfold in_bounds in *; rewrite length_list_upd, E.
  apply andb_true_iff in E; destruct E as [E1 E2].
  apply Z.leb_le in E1; apply Z.ltb_lt in E2.
  apply nth_error_list_upd_eq; lia.
Qed.

Lemma aget_aset_neq {A : Type} (l l' : list A) i k v :
  aset l i v = Some l' -> k <> i -> aget l' k = aget l k.
Proof.
  unfold aset, aget; destruct (in_bounds l i) eqn:E; [|discriminate].
  intros [= <-] Hk.
  unfold in_bounds in *; rewrite length_list_upd.
  destruct ((0 <=? k) && (k <? Z.of_nat (length l))) eqn:Ek; auto.
  apply andb_true_iff in E; destruct E as [E1 E2].
  apply andb_true_iff in Ek; destruct Ek as [Ek1 Ek2].
  apply Z.leb_le in E1, Ek1.
  apply nth_error_list_upd_neq; lia.
Qed.

Lemma aget_ext {A : Type} (l1 l2 : list A) :
  length l1 = length l2 ->
  (forall i, 0 <= i < Z.of_nat (length l1) -> aget l1 i = aget l2 i) ->
  l1 = l2.
Proof.
  intros Hlen H; apply nth_error_ext; intros n.
  destruct (Nat.lt_ge_cases n (length l1)) as [Hn|Hn].
  - specialize (H (Z.of_nat n) ltac:(lia)).
    unfold aget, in_bounds in H; rewrite <- Hlen in H.
    replace ((0 <=? Z.of_nat n) && (Z.of_nat n <? Z.of_nat (length l1)))
      with true in H
      by (symmetry; apply andb_true_iff; rewrite Z.leb_le, Z.ltb_lt; lia).
    now rewrite Nat2Z.id in H.
  - rewrite (proj2 (nth_error_None l1 n)) by lia.
    rewrite (proj2 (nth_error_None l2 n)) by lia.
    reflexivity.
Qed.

Lemma aget_map_seq {A : Type} (f : Z -> A) (n : nat) i :
  0 <= i < Z.of_nat n ->
  aget (map (fun k => f (Z.of_nat k)) (seq 0 n)) i = Some (f i).
Proof.
  intros H; unfold aget, in_bounds.
  rewrite length_map, length_seq.
  replace ((0 <=? i) && (i <? Z.of_nat n)) with true
    by (symmetry; apply andb_true_iff; rewrite Z.leb_le, Z.ltb_lt; lia).
  rewrite nth_error_map, nth_error_seq.
  replace (Z.to_nat i <? n)%nat with true
    by (symmetry; apply Nat.ltb_lt; lia).
  simpl; now rewrite Z2Nat.id by lia.
Qed.

(** ** [for] loops *)

(** [for_iter n j body s] runs [body j], [body (j+1)], ... [n] times. *)
Fixpoint for_iter {St : Type} (n : nat) (j : Z) (body : Z -> St -> option St)
  (s : St) : option St :=
  match n with
  | O => Some s
  | S n' =>
      match body j s with
      | Some s' => for_iter n' (j + 1) body s'
      | None => None
      end
  end.

(** [for (j = lo; j < hi; j++) body]. *)
Definition for_loop {St : Type} (lo hi : Z) (body : Z -> St -> option St)
  (s : St) : option St :=
  for_iter (Z.to_nat (hi - lo)) lo body s.

Lemma for_iter_inv {St : Type} (I : Z -> St -> Prop) body n lo (s : St) :
  I lo s ->
  (forall j t, lo <= j < lo + Z.of_nat n -> I j t ->
     exists t', body j t = Some t' /\ I (j + 1) t') ->
  exists s', for_iter n lo body s = Some s' /\ I (lo + Z.of_nat n) s'.
Proof.
  revert lo s; induction n as [|n IH]; intros lo s H0 Hstep.
  - exists s; simpl; split; auto. now rewrite Z.add_0_r.
  - destruct (Hstep lo s ltac:(lia) H0) as (t & Hb & Ht).
    cbn [for_iter]; rewrite Hb.
    destruct (IH (lo + 1) t Ht) as (s' & Hs' & HI).
    + intros j u Hj Hu; apply Hstep; auto; lia.
    + exists s'; split; auto.
      now replace (lo + Z.of_nat (S n)) with (lo + 1 + Z.of_nat n) by lia.
Qed.

Lemma for_loop_inv {St : Type} (I : Z -> St -> Prop) body lo hi (s : St) :
  lo <= hi ->
  I lo s ->
  (forall j t, lo <= j < hi -> I j t ->
     exists t', body j t = Some t' /\ I (j + 1) t') ->
  exists s', for_loop lo hi body s = Some s' /\ I hi s'.
Proof.
  intros Hle H0 Hstep; unfold for_loop.
  destruct (for_iter_inv I body (Z.to_nat (hi - lo)) lo s H0) as (s' & H1 & H2).
  - intros j t Hj; apply Hstep; lia.
  - exists s'; split; auto.
    now replace (lo + Z.of_nat (Z.to_nat (hi - lo))) with hi in H2 by lia.
Qed.

Lemma for_loop_empty {St : Type} body lo hi (s : St) :
  hi <= lo -> for_loop lo hi body s = Some s.
Proof.
  intros H; unfold for_loop.
  now replace (Z.to_nat (hi - lo)) with O by lia.
Qed.

(** A loop whose iteration [j] stores [f j] at index [g j] of the array it
    threads, [g] being one-to-one on the range of the loop. *)
Lemma for_loop_store {A : Type} (g : Z -> Z) (f : Z -> A) body lo hi
  (a : list A) :
  (forall j b, lo <= j < hi -> length b = length a ->
     body j b = aset b (g j) (f j)) ->
  (forall j, lo <= j < hi -> 0 <= g j < Z.of_nat (length a)) ->
  (forall j j', lo <= j < hi -> lo <= j' < hi -> g j = g j' -> j = j') ->
  exists a', for_loop lo hi body a = Some a' /\
    length a' = length a /\
    (forall j, lo <= j < hi -> aget a' (g j) = Some (f j)) /\
    (forall i, (forall j, lo <= j < hi -> g j <> i) -> aget a' i = aget a i).
Proof.
  intros Hbody Hrng Hinj.
  destruct (Z.le_gt_cases lo hi) as [Hle|Hgt].
  2:{ exists a; rewrite for_loop_empty by lia.
      repeat split; auto; intros; lia. }
  destruct (for_loop_inv
    (fun n b => length b = length a /\
       (forall j, lo <= j < n -> aget b (g j) = Some (f j)) /\
       (forall i, (forall j, lo <= j < n -> g j <> i) -> aget b i = aget a i))
    body lo hi a Hle) as (a' & Ha' & HI).
  - split; [reflexivity|]. split; [intros; lia|reflexivity].
  - intros j b Hj (Hlen & Hw & Hf).
    rewrite (Hbody j b Hj Hlen).
    assert (Hin : 0 <= g j < Z.of_nat (length b))
      by (rewrite Hlen; now apply Hrng).
    rewrite (aset_in b (g j) (f j) Hin).
    assert (Hs : aset b (g j) (f j) = Some (list_upd b (Z.to_nat (g j)) (f j)))
      by now apply aset_in.
    eexists; split; [reflexivity|].
    split; [now rewrite length_list_upd|]. split.
    + intros k Hk. destruct (Z.eq_dec k j) as [->|Hne].
      * eapply aget_aset_eq; eauto.
      * rewrite (aget_aset_neq _ _ _ _ _ Hs).
        -- apply Hw; lia.
        -- intros E; apply Hne; apply Hinj; auto; lia.
    + intros i Hi. rewrite (aget_aset_neq _ _ _ _ _ Hs).
      * apply Hf; intros k Hk; apply Hi; lia.
      * intros ->; now apply (Hi j ltac:(lia)).
  - exists a'; tauto.
Qed.

(** Reading an array with a default, for specifications only. *)
Definition dget (l : list R) (i : Z) : R := nth (Z.to_nat i) l 0%R.

(** The list [f 0; f 1; ...; f (n-1)]. *)
Definition ztab {A : Type} (n : Z) (f : Z -> A) : list A :=
  map (fun k => f (Z.of_nat k)) (seq 0 (Z.to_nat n)).

Lemma length_ztab {A : Type} n (f : Z -> A) : length (ztab n f) = Z.to_nat n.
Proof. unfold ztab; now rewrite length_map, length_seq. Qed.

Lemma aget_ztab {A : Type} n (f : Z -> A) i :
  0 <= i < n -> aget (ztab n f) i = Some (f i).
Proof. intros H; unfold ztab; apply aget_map_seq; lia. Qed.

Lemma aget_dget (l : list R) i :
  0 <= i < Z.of_nat (length l) -> aget l i = Some (dget l i).
Proof.
  intros H; unfold aget, dget.
  rewrite (proj2 (in_bounds_true l i) H).
  apply nth_error_nth'; lia.
Qed.

Lemma dget_ztab n (f : Z -> R) i : 0 <= i < n -> dget (ztab n f) i = f i.
Proof.
  intros H.
  assert (E : aget (ztab n f) i = Some (dget (ztab n f) i))
    by (apply aget_dget; rewrite length_ztab; lia).
  rewrite aget_ztab in E by assumption. congruence.
Qed.

Lemma ztab_ext {A : Type} n (f g : Z -> A) :
  (forall i, 0 <= i < n -> f i = g i) -> ztab n f = ztab n g.
Proof.
  intros H; unfold ztab; apply map_ext_in; intros k Hk.
  apply in_seq in Hk; apply H; lia.
Qed.

Lemma eq_ztab {A : Type} (l : list A) n (f : Z -> A) :
  Z.of_nat (length l) = n ->
  (forall i, 0 <= i < n -> aget l i = Some (f i)) ->
  l = ztab n f.
Proof.
  intros Hlen H; apply aget_ext.
  - rewrite length_ztab; lia.
  - intros i Hi. rewrite H, aget_ztab; auto; lia.
Qed.

(** ** Numeric macros of [aubio_priv.h] and vectors of [fvec.h], [cvec.h] *)

(** Modelled from the spec: the macros [PI], [ABS], [SQR], [SQRT], [SIN],
    [COS] of aubio_priv.h (not part of the sources at hand) are the
    mathematical constant and functions they name. *)
Definition ABS (x : R) : R := Rabs x.
Definition SQR (x : R) : R := (x * x)%R.
Definition SQRT (x : R) : R := sqrt x.
Definition SIN (x : R) : R := sin x.
Definition COS (x : R) : R := cos x.

(** Modelled from the spec: the macro [ATAN2] of aubio_priv.h is the two
    argument arctangent of the C library, [ATAN2 y x] being the angle of the
    point [(x, y)], with [ATAN2 0 0 = 0]. *)
Definition ATAN2 (y x : R) : R :=
  if Rlt_dec 0 x then atan (y / x)
  else if Rlt_dec x 0 then
    if Rle_dec 0 y then (atan (y / x) + PI)%R else (atan (y / x) - PI)%R
  else if Rlt_dec 0 y then (PI / 2)%R
  else if Rlt_dec y 0 then (- PI / 2)%R
  else 0%R.

(** Modelled from the spec: [fvec_t] of fvec.h, a buffer of [length] real
    samples [data]. *)
Record fvec_t := mk_fvec { fvec_length : Z; data : list R }.

(** Modelled from the spec: [cvec_t] of cvec.h, two parallel buffers [norm]
    and [phas] of [length] entries each. *)
Record cvec_t := mk_cvec { cvec_length : Z; norm : list R; phas : list R }.

(** The [length] field is the number of allocated entries. *)
Definition fvec_wf (v : fvec_t) : Prop :=
  Z.of_nat (length (data v)) = fvec_length v.

Definition cvec_wf (c : cvec_t) : Prop :=
  Z.of_nat (length (norm c)) = cvec_length c /\
  Z.of_nat (length (phas c)) = cvec_length c.

Definition set_data (v : fvec_t) (d : list R) : fvec_t :=
  mk_fvec (fvec_length v) d.
Definition set_norm (c : cvec_t) (n : list R) : cvec_t :=
  mk_cvec (cvec_length c) n (phas c).
Definition set_phas (c : cvec_t) (p : list R) : cvec_t :=
  mk_cvec (cvec_length c) (norm c) p.

(** ** Packed half-complex vector to polar spectrum *)

Definition aubio_fft_get_phas (compspec : fvec_t) (spectrum : cvec_t)
  : option cvec_t :=
  let p := phas spectrum in
  c0 <- aget (data compspec) 0 ;;
  p <- aset p 0 (if Rlt_dec c0 0 then PI else 0%R) ;;
  p <- for_loop 1 (usub (cvec_length spectrum) 1) (fun j p =>
         im <- aget (data compspec) (usub (fvec_length compspec) j) ;;
         re <- aget (data compspec) j ;;
         aset p j (ATAN2 im re)) p ;;
  cn <- aget (data compspec) (udiv (fvec_length compspec) 2) ;;
  p <- aset p (usub (cvec_length spectrum) 1)
         (if Rlt_dec cn 0 then PI else 0%R) ;;
  Some (set_phas spectrum p).

Definition aubio_fft_get_norm (compspec : fvec_t) (spectrum : cvec_t)
  : option cvec_t :=
  let n := norm spectrum in
  c0 <- aget (data compspec) 0 ;;
  n <- aset n 0 (ABS c0) ;;
  n <- for_loop 1 (usub (cvec_length spectrum) 1) (fun j n =>
         re <- aget (data compspec) j ;;
         im <- aget (data compspec) (usub (fvec_length compspec) j) ;;
         aset n j (SQRT (SQR re + SQR im))) n ;;
  cn <- aget (data compspec) (udiv (fvec_length compspec) 2) ;;
  n <- aset n (usub (cvec_length spectrum) 1) (ABS cn) ;;
  Some (set_norm spectrum n).

Definition aubio_fft_get_spectrum (compspec : fvec_t) (spectrum : cvec_t)
  : option cvec_t :=
  spectrum <- aubio_fft_get_phas compspec spectrum ;;
  aubio_fft_get_norm compspec spectrum.

(** ** Polar spectrum to packed half-complex vector *)

Definition aubio_fft_get_imag (spectrum : cvec_t) (compspec : fvec_t)
  : option fvec_t :=
  d <- for_loop 1 (udiv (uadd (fvec_length compspec) 1) 2) (fun j d =>
         n <- aget (norm spectrum) j ;;
         p <- aget (phas spectrum) j ;;
         aset d (usub (fvec_length compspec) j) (n * SIN p)%R)
       (data compspec) ;;
  Some (set_data compspec d).

Definition aubio_fft_get_real (spectrum : cvec_t) (compspec : fvec_t)
  : option fvec_t :=
  d <- for_loop 0 (uadd (udiv (fvec_length compspec) 2) 1) (fun j d =>
         n <- aget (norm spectrum) j ;;
         p <- aget (phas spectrum) j ;;
         aset d j (n * COS p)%R)
       (data compspec) ;;
  Some (set_data compspec d).

Definition aubio_fft_get_realimag (spectrum : cvec_t) (compspec : fvec_t)
  : option fvec_t :=
  compspec <- aubio_fft_get_imag spectrum compspec ;;
  aubio_fft_get_real spectrum compspec.

(** *** Closed forms of the four conversions *)

Definition sign_phas (x : R) : R := if Rlt_dec x 0 then PI else 0%R.

(** Entry [k] of [phas] after [aubio_fft_get_phas] on a packed vector [d] of
    length [N]. *)
Definition phas_at (d : list R) (N k : Z) : R :=
  if k =? N / 2 then sign_phas (dget d (N / 2))
  else if k =? 0 then sign_phas (dget d 0)
  else ATAN2 (dget d (N - k)) (dget d k).

Definition norm_at (d : list R) (N k : Z) : R :=
  if k =? N / 2 then ABS (dget d (N / 2))
  else if k =? 0 then ABS (dget d 0)
  else SQRT (SQR (dget d k) + SQR (dget d (N - k))).

(** Entry [i] of the packed vector after [aubio_fft_get_imag]. *)
Definition imag_at (nm ph d : list R) (N i : Z) : R :=
  if N / 2 <? i then (dget nm (N - i) * SIN (dget ph (N - i)))%R
  else dget d i.

Definition real_at (nm ph d : list R) (N i : Z) : R :=
  if i <=? N / 2 then (dget nm i * COS (dget ph i))%R
  else dget d i.

Lemma uint_modulus_eq : uint_modulus = 4294967296.
Proof. reflexivity. Qed.

Ltac uint_lia := rewrite ?uint_modulus_eq in *; lia.

Ltac uint_simpl :=
  unfold udiv;
  repeat first
    [ rewrite usub_small by uint_lia
    | rewrite uadd_small by uint_lia ].

Section Conversions.

Variable N : Z.
Hypothesis N_range : 0 < N < uint_modulus.

Variable compspec : fvec_t.
Variable spectrum : cvec_t.
Hypothesis compspec_wf : fvec_wf compspec.
Hypothesis compspec_len : fvec_length compspec = N.
Hypothesis spectrum_wf : cvec_wf spectrum.
Hypothesis spectrum_len : cvec_length spectrum = N / 2 + 1.

Lemma half_bounds : 0 <= N / 2 < N.
Proof.
  split; [apply Z.div_pos; lia|apply Z.div_lt; lia].
Qed.

Lemma aubio_fft_get_phas_spec :
  aubio_fft_get_phas compspec spectrum =
  Some (set_phas spectrum (ztab (N / 2 + 1) (phas_at (data compspec) N))).
Proof.
  pose proof half_bounds as Hh.
  destruct spectrum_wf as [Hn Hp]. red in compspec_wf.
  unfold aubio_fft_get_phas.
  rewrite compspec_len, spectrum_len. uint_simpl.
  replace (N / 2 + 1 - 1) with (N / 2) by lia.
  rewrite (aget_dget (data compspec) 0) by lia. cbn [bind].
  rewrite aset_in by lia. cbn [bind].
  set (p1 := list_upd (phas spectrum) (Z.to_nat 0) _).
  assert (Hp1 : aset (phas spectrum) 0 (sign_phas (dget (data compspec) 0))
                = Some p1) by (apply aset_in; lia).
  assert (Hl1 : length p1 = length (phas spectrum))
    by (apply length_list_upd).
  destruct (for_loop_store (fun j => j)
    (fun j => ATAN2 (dget (data compspec) (N - j)) (dget (data compspec) j))
    (fun j p =>
       im <- aget (data compspec) (usub N j) ;;
       re <- aget (data compspec) j ;;
       aset p j (ATAN2 im re)) 1 (N / 2) p1)
    as (p2 & Hloop & Hl2 & Hw & Hf); try lia.
  { intros j b Hj Hb. uint_simpl.
    rewrite (aget_dget _ (N - j)) by lia.
    rewrite (aget_dget _ j) by lia. reflexivity. }
  rewrite Hloop. cbn [bind].
  rewrite (aget_dget (data compspec) (N / 2)) by lia. cbn [bind].
  assert (Hp3 : aset p2 (N / 2) (sign_phas (dget (data compspec) (N / 2)))
     = Some (list_upd p2 (Z.to_nat (N / 2))
               (sign_phas (dget (data compspec) (N / 2)))))
    by (apply aset_in; lia).
  fold (sign_phas (dget (data compspec) (N / 2))).
  rewrite Hp3. cbn [bind]. f_equal. f_equal.
  apply eq_ztab.
  - rewrite length_list_upd; lia.
  - intros i Hi. unfold phas_at.
    destruct (Z.eqb_spec i (N / 2)) as [->|Hne].
    + eapply aget_aset_eq; eauto.
    + rewrite (aget_aset_neq _ _ _ _ _ Hp3) by assumption.
      destruct (Z.eqb_spec i 0) as [->|Hne0].
      * rewrite Hf by (intros j Hj; lia).
        eapply aget_aset_eq; eauto.
      * apply Hw; lia.
Qed.

Lemma aubio_fft_get_norm_spec :
  aubio_fft_get_norm compspec spectrum =
  Some (set_norm spectrum (ztab (N / 2 + 1) (norm_at (data compspec) N))).
Proof.
  pose proof half_bounds as Hh.
  destruct spectrum_wf as [Hn Hp]. red in compspec_wf.
  unfold aubio_fft_get_norm.
  rewrite compspec_len, spectrum_len. uint_simpl.
  replace (N / 2 + 1 - 1) with (N / 2) by lia.
  rewrite (aget_dget (data compspec) 0) by lia. cbn [bind].
  rewrite aset_in by lia. cbn [bind].
  set (n1 := list_upd (norm spectrum) (Z.to_nat 0) _).
  assert (Hn1 : aset (norm spectrum) 0 (ABS (dget (data compspec) 0))
                = Some n1) by (apply aset_in; lia).
  assert (Hl1 : length n1 = length (norm spectrum))
    by (apply length_list_upd).
  destruct (for_loop_store (fun j => j)
    (fun j => SQRT (SQR (dget (data compspec) j)
                    + SQR (dget (data compspec) (N - j))))
    (fun j n =>
       re <- aget (data compspec) j ;;
       im <- aget (data compspec) (usub N j) ;;
       aset n j (SQRT (SQR re + SQR im))) 1 (N / 2) n1)
    as (n2 & Hloop & Hl2 & Hw & Hf); try lia.
  { intros j b Hj Hb. uint_simpl.
    rewrite (aget_dget _ (N - j)) by lia.
    rewrite (aget_dget _ j) by lia. reflexivity. }
  rewrite Hloop. cbn [bind].
  rewrite (aget_dget (data compspec) (N / 2)) by lia. cbn [bind].
  assert (Hn3 : aset n2 (N / 2) (ABS (dget (data compspec) (N / 2)))
     = Some (list_upd n2 (Z.to_nat (N / 2))
               (ABS (dget (data compspec) (N / 2)))))
    by (apply aset_in; lia).
  rewrite Hn3. cbn [bind]. f_equal. f_equal.
  apply eq_ztab.
  - rewrite length_list_upd; lia.
  - intros i Hi. unfold norm_at.
    destruct (Z.eqb_spec i (N / 2)) as [->|Hne].
    + eapply aget_aset_eq; eauto.
    + rewrite (aget_aset_neq _ _ _ _ _ Hn3) by assumption.
      destruct (Z.eqb_spec i 0) as [->|Hne0].
      * rewrite Hf by (intros j Hj; lia).
        eapply aget_aset_eq; eauto.
      * apply Hw; lia.
Qed.

Lemma aubio_fft_get_imag_spec :
  N + 1 < uint_modulus ->
  aubio_fft_get_imag spectrum compspec =
  Some (set_data compspec
          (ztab N (imag_at (norm spectrum) (phas spectrum) (data compspec) N))).
Proof.
  pose proof half_bounds as Hh.
  destruct spectrum_wf as [Hn Hp]. red in compspec_wf.
  intros Hmax. unfold aubio_fft_get_imag.
  rewrite compspec_len. uint_simpl.
  destruct (for_loop_store (fun j => N - j)
    (fun j => (dget (norm spectrum) j * SIN (dget (phas spectrum) j))%R)
    (fun j d =>
       n <- aget (norm spectrum) j ;;
       p <- aget (phas spectrum) j ;;
       aset d (usub N j) (n * SIN p)%R) 1 ((N + 1) / 2)
    (data compspec))
    as (d' & Hloop & Hl & Hw & Hf); try lia.
  { intros j b Hj Hb. uint_simpl.
    rewrite (aget_dget _ j) by lia.
    rewrite (aget_dget _ j) by lia. reflexivity. }
  rewrite Hloop. cbn [bind]. f_equal. f_equal.
  apply eq_ztab; [lia|].
  intros i Hi. unfold imag_at.
  destruct (Z.ltb_spec (N / 2) i) as [Hlt|Hge].
  - replace i with (N - (N - i)) at 1 by lia. apply Hw; lia.
  - rewrite Hf by (intros j Hj; lia). apply aget_dget; lia.
Qed.

Lemma aubio_fft_get_real_spec :
  aubio_fft_get_real spectrum compspec =
  Some (set_data compspec
          (ztab N (real_at (norm spectrum) (phas spectrum) (data compspec) N))).
Proof.
  pose proof half_bounds as Hh.
  destruct spectrum_wf as [Hn Hp]. red in compspec_wf.
  unfold aubio_fft_get_real.
  rewrite compspec_len. uint_simpl.
  destruct (for_loop_store (fun j => j)
    (fun j => (dget (norm spectrum) j * COS (dget (phas spectrum) j))%R)
    (fun j d =>
       n <- aget (norm spectrum) j ;;
       p <- aget (phas spectrum) j ;;
       aset d j (n * COS p)%R) 0 (N / 2 + 1) (data compspec))
    as (d' & Hloop & Hl & Hw & Hf); try lia.
  { intros j b Hj Hb.
    rewrite (aget_dget _ j) by lia.
    rewrite (aget_dget _ j) by lia. reflexivity. }
  rewrite Hloop. cbn [bind]. f_equal. f_equal.
  apply eq_ztab; [lia|].
  intros i Hi. unfold real_at.
  destruct (Z.leb_spec i (N / 2)) as [Hle|Hgt].
  - apply Hw; lia.
  - rewrite Hf by (intros j Hj; lia). apply aget_dget; lia.
Qed.

End Conversions.

(** ** Facts on the polar form of a point of the plane *)

Section Polar.

Local Open Scope R_scope.

Lemma sqrt_one_plus_sqr_pos t : 0 < sqrt (1 + t²).
Proof.
  apply sqrt_lt_R0. pose proof (Rle_0_sqr t). lra.
Qed.

Lemma sqrt_sum_sqr_factor x y :
  x <> 0 -> sqrt (x * x + y * y) = Rabs x * sqrt (1 + (y / x)²).
Proof.
  intros Hx.
  replace (x * x + y * y) with (x² * (1 + (y / x)²))
    by (unfold Rsqr; field; assumption).
  rewrite sqrt_mult.
  - now rewrite sqrt_Rsqr_abs.
  - apply Rle_0_sqr.
  - pose proof (Rle_0_sqr (y / x)). lra.
Qed.

Lemma ATAN2_pos_x y x : 0 < x -> ATAN2 y x = atan (y / x).
Proof.
  intros H; unfold ATAN2. destruct (Rlt_dec 0 x); [reflexivity|lra].
Qed.

Lemma ATAN2_neg_x_nonneg_y y x :
  x < 0 -> 0 <= y -> ATAN2 y x = atan (y / x) + PI.
Proof.
  intros Hx Hy; unfold ATAN2.
  destruct (Rlt_dec 0 x); [lra|].
  destruct (Rlt_dec x 0); [|lra].
  destruct (Rle_dec 0 y); [reflexivity|lra].
Qed.

Lemma ATAN2_neg_x_neg_y y x :
  x < 0 -> y < 0 -> ATAN2 y x = atan (y / x) - PI.
Proof.
  intros Hx Hy; unfold ATAN2.
  destruct (Rlt_dec 0 x); [lra|].
  destruct (Rlt_dec x 0); [|lra].
  destruct (Rle_dec 0 y); [lra|reflexivity].
Qed.

Lemma ATAN2_zero_x y :
  ATAN2 y 0 = if Rlt_dec 0 y then PI / 2
              else if Rlt_dec y 0 then - PI / 2 else 0.
Proof.
  unfold ATAN2.
  destruct (Rlt_dec 0 0); [lra|]. reflexivity.
Qed.

Lemma ATAN2_origin : ATAN2 0 0 = 0.
Proof.
  rewrite ATAN2_zero_x.
  destruct (Rlt_dec 0 0); [lra|reflexivity].
Qed.

Lemma sin_minus_PI a : sin (a - PI) = - sin a.
Proof. rewrite sin_minus, cos_PI, sin_PI. ring. Qed.

Lemma cos_minus_PI a : cos (a - PI) = - cos a.
Proof. rewrite cos_minus, cos_PI, sin_PI. ring. Qed.

(** [SQRT (x^2 + y^2) * COS (ATAN2 y x) = x]. *)
Lemma polar_cos x y : SQRT (SQR x + SQR y) * COS (ATAN2 y x) = x.
Proof.
  unfold SQRT, SQR, COS.
  destruct (Rtotal_order x 0) as [Hx|[Hx|Hx]].
  - rewrite sqrt_sum_sqr_factor by lra.
    rewrite Rabs_left by assumption.
    pose proof (sqrt_one_plus_sqr_pos (y / x)) as Hs.
    destruct (Rle_dec 0 y) as [Hy|Hy].
    + rewrite ATAN2_neg_x_nonneg_y, neg_cos, cos_atan by lra. field; lra.
    + rewrite ATAN2_neg_x_neg_y, cos_minus_PI, cos_atan by lra. field; lra.
  - subst x. rewrite ATAN2_zero_x.
    destruct (Rlt_dec 0 y); [rewrite cos_PI2; ring|].
    destruct (Rlt_dec y 0).
    + replace (- PI / 2) with (- (PI / 2)) by field.
      rewrite cos_neg, cos_PI2; ring.
    + replace y with 0 by lra.
      replace (0 * 0 + 0 * 0) with 0 by ring. rewrite sqrt_0; ring.
  - rewrite sqrt_sum_sqr_factor by lra.
    rewrite Rabs_right by lra.
    pose proof (sqrt_one_plus_sqr_pos (y / x)) as Hs.
    rewrite ATAN2_pos_x, cos_atan by lra. field; lra.
Qed.

(** [SQRT (x^2 + y^2) * SIN (ATAN2 y x) = y]. *)
Lemma polar_sin x y : SQRT (SQR x + SQR y) * SIN (ATAN2 y x) = y.
Proof.
  unfold SQRT, SQR, SIN.
  destruct (Rtotal_order x 0) as [Hx|[Hx|Hx]].
  - rewrite sqrt_sum_sqr_factor by lra.
    rewrite Rabs_left by assumption.
    pose proof (sqrt_one_plus_sqr_pos (y / x)) as Hs.
    destruct (Rle_dec 0 y) as [Hy|Hy].
    + rewrite ATAN2_neg_x_nonneg_y, neg_sin, sin_atan by lra. field; lra.
    + rewrite ATAN2_neg_x_neg_y, sin_minus_PI, sin_atan by lra. field; lra.
  - subst x. rewrite ATAN2_zero_x.
    replace (0 * 0 + y * y) with (y * y) by ring.
    destruct (Rlt_dec 0 y).
    { rewrite sin_PI2, sqrt_square by lra; ring. }
    destruct (Rlt_dec y 0).
    + replace (- PI / 2) with (- (PI / 2)) by field.
      rewrite sin_neg, sin_PI2.
      replace (y * y) with ((- y) * (- y)) by ring.
      rewrite sqrt_square by lra; ring.
    + replace y with 0 by lra. rewrite sin_0; ring.
  - rewrite sqrt_sum_sqr_factor by lra.
    rewrite Rabs_right by lra.
    pose proof (sqrt_one_plus_sqr_pos (y / x)) as Hs.
    rewrite ATAN2_pos_x, sin_atan by lra. field; lra.
Qed.

(** The two argument arctangent ranges over [[-PI, PI]]. *)
Lemma ATAN2_bound y x : - PI <= ATAN2 y x <= PI.
Proof.
  pose proof PI_RGT_0 as HPI.
  pose proof (atan_bound (y / x)) as Hb.
  unfold ATAN2.
  destruct (Rlt_dec 0 x); [lra|].
  destruct (Rlt_dec x 0) as [Hx|Hx].
  - destruct (Rle_dec 0 y) as [Hy|Hy].
    + assert (atan (y / x) <= 0).
      { rewrite <- atan_0.
        destruct (Req_dec y 0) as [->|Hy0].
        - unfold Rdiv; rewrite Rmult_0_l; lra.
        - left; apply atan_increasing.
          apply Rmult_pos_neg; [lra|]. now apply Rinv_lt_0_compat. }
      lra.
    + assert (0 < atan (y / x)).
      { rewrite <- atan_0. apply atan_increasing.
        apply Rmult_neg_neg; [lra|]. now apply Rinv_lt_0_compat. }
      lra.
  - destruct (Rlt_dec 0 y); [lra|].
    destruct (Rlt_dec y 0); lra.
Qed.

Lemma sign_phas_cos x : ABS x * COS (sign_phas x) = x.
Proof.
  unfold ABS, COS, sign_phas. destruct (Rlt_dec x 0).
  - rewrite cos_PI, Rabs_left by assumption; ring.
  - rewrite cos_0, Rabs_right by lra; ring.
Qed.


Lemma sign_phas_bound x : - PI <= sign_phas x <= PI.
Proof.
  pose proof PI_RGT_0. unfold sign_phas. destruct (Rlt_dec x 0); lra.
Qed.

End Polar.

(** ** Shapes of the buffers for a window of [N] samples *)

(** A packed vector of [N] reals. *)
Definition packed_ok (N : Z) (compspec : fvec_t) : Prop :=
  fvec_wf compspec /\ fvec_length compspec = N.

(** A polar spectrum of [N/2 + 1] bins. *)
Definition polar_ok (N : Z) (spectrum : cvec_t) : Prop :=
  cvec_wf spectrum /\ cvec_length spectrum = N / 2 + 1.

(** The polar spectrum of a packed vector [d] of length [N]. *)
Definition polar_of (d : list R) (N : Z) : cvec_t :=
  mk_cvec (N / 2 + 1) (ztab (N / 2 + 1) (norm_at d N))
    (ztab (N / 2 + 1) (phas_at d N)).

(** Entry [i] of the packed vector of a polar spectrum. *)
Definition packed_at (nm ph : list R) (N i : Z) : R :=
  if i <=? N / 2 then (dget nm i * COS (dget ph i))%R
  else (dget nm (N - i) * SIN (dget ph (N - i)))%R.

Lemma polar_of_ok d N : 0 < N -> polar_ok N (polar_of d N).
Proof.
  intros H; unfold polar_ok, cvec_wf, polar_of; cbn.
  rewrite !length_ztab. lia.
Qed.

Lemma aubio_fft_get_spectrum_spec N compspec spectrum :
  0 < N < uint_modulus ->
  packed_ok N compspec -> polar_ok N spectrum ->
  aubio_fft_get_spectrum compspec spectrum
  = Some (polar_of (data compspec) N).
Proof.
  intros HN [Hwf Hlen] [Hwf' Hlen'].
  unfold aubio_fft_get_spectrum.
  rewrite (aubio_fft_get_phas_spec N HN compspec spectrum) by assumption.
  cbn [bind].
  rewrite (aubio_fft_get_norm_spec N HN compspec).
  - unfold polar_of, set_norm, set_phas; cbn. now rewrite Hlen'.
  - assumption.
  - assumption.
  - destruct Hwf' as [Hn Hp]. split; cbn; [assumption|].
    rewrite length_ztab; lia.
  - cbn; assumption.
Qed.

Lemma aubio_fft_get_realimag_spec N spectrum compspec :
  0 < N -> N + 1 < uint_modulus ->
  packed_ok N compspec -> polar_ok N spectrum ->
  aubio_fft_get_realimag spectrum compspec
  = Some (set_data compspec
            (ztab N (packed_at (norm spectrum) (phas spectrum) N))).
Proof.
  intros HN HN1 [Hwf Hlen] [Hwf' Hlen'].
  assert (HN' : 0 < N < uint_modulus) by lia.
  unfold aubio_fft_get_realimag.
  rewrite (aubio_fft_get_imag_spec N HN' compspec spectrum) by assumption.
  cbn [bind].
  rewrite (aubio_fft_get_real_spec N HN').
  - unfold set_data; cbn. f_equal. f_equal.
    apply ztab_ext; intros i Hi. unfold real_at, packed_at.
    destruct (Z.leb_spec i (N / 2)); [reflexivity|].
    rewrite dget_ztab by lia. unfold imag_at.
    destruct (Z.ltb_spec (N / 2) i); [reflexivity|lia].
  - red; cbn. rewrite length_ztab; lia.
  - cbn; assumption.
  - assumption.
  - assumption.
Qed.

(** ** The FFTW engine *)

(** [fftw_complex]: a pair (real part, imaginary part). *)
Definition fftw_complex : Type := (R * R)%type.
Definition REAL (c : fftw_complex) : R := fst c.
Definition IMAG (c : fftw_complex) : R := snd c.

(** A real assigned to a complex lvalue. *)
Definition of_real (x : R) : fftw_complex := (x, 0%R).
(** [re + I * im]. *)
Definition of_real_imag (re im : R) : fftw_complex := (re, im).

(** [fft_data_t *]: an array of [fftw_complex] when the build has complex.h,
    an array of reals otherwise. *)
Inductive fft_data : Type :=
| ComplexData (d : list fftw_complex)
| RealData (d : list R).

(** The four kinds of plans [new_aubio_fft] asks for. *)
Inductive fftw_kind : Type := DFT_R2C | DFT_C2R | R2HC | HC2R.

(** A plan handle; a null handle is [None]. *)
Record fftw_plan_t := mk_plan { plan_n : Z; plan_kind : fftw_kind }.
Definition fftw_plan : Type := option fftw_plan_t.

(** Modelled from the spec: the transform engine (FFTW, an external library).
    [fftw_accepts n] tells whether the planner makes a plan for size [n]
    (it returns a null handle otherwise); the other fields give entry [k]
    of the output array of each transform of size [n], as a function of the
    input array. *)
Record fftw_engine := mk_engine {
  fftw_accepts : Z -> bool;
  fftw_r2c : Z -> list R -> Z -> fftw_complex;
  fftw_c2r : Z -> list fftw_complex -> Z -> R;
  fftw_r2hc : Z -> list R -> Z -> R;
  fftw_hc2r : Z -> list R -> Z -> R
}.

(** Calls to the engine, the allocator and the pthread library, in the order
    they are issued. *)
Module Call.
Inductive t : Type :=
| pthread_mutex_lock
| pthread_mutex_unlock
| fftw_plan (k : fftw_kind) (n : Z)
| fftw_destroy_plan (p : fftw_plan)
| fftw_malloc
| fftw_free
| AUBIO_NEW
| AUBIO_ARRAY
| AUBIO_FREE
| new_fvec
| del_fvec.
End Call.

(** [struct _aubio_fft_t]. *)
Record aubio_fft_t := mk_fft {
  winsize : Z;
  fft_size : Z;
  in_ : list R;
  out : list R;
  pfw : fftw_plan;
  pbw : fftw_plan;
  specdata : fft_data;
  compspec : fvec_t
}.

Definition set_in (s : aubio_fft_t) (i : list R) : aubio_fft_t :=
  mk_fft (winsize s) (fft_size s) i (out s) (pfw s) (pbw s) (specdata s)
    (compspec s).
Definition set_out (s : aubio_fft_t) (o : list R) : aubio_fft_t :=
  mk_fft (winsize s) (fft_size s) (in_ s) o (pfw s) (pbw s) (specdata s)
    (compspec s).
Definition set_specdata (s : aubio_fft_t) (d : fft_data) : aubio_fft_t :=
  mk_fft (winsize s) (fft_size s) (in_ s) (out s) (pfw s) (pbw s) d
    (compspec s).
Definition set_compspec (s : aubio_fft_t) (c : fvec_t) : aubio_fft_t :=
  mk_fft (winsize s) (fft_size s) (in_ s) (out s) (pfw s) (pbw s)
    (specdata s) c.

(** [new_fvec (length)]: a zeroed vector. *)
Definition new_fvec (length : Z) : fvec_t :=
  mk_fvec length (repeat 0%R (Z.to_nat length)).

(** [new_cvec (length)]: a zeroed spectrum of [length/2 + 1] bins. *)
Definition new_cvec (length : Z) : cvec_t :=
  mk_cvec (length / 2 + 1) (repeat 0%R (Z.to_nat (length / 2 + 1)))
    (repeat 0%R (Z.to_nat (length / 2 + 1))).

(** [holds n l]: the array [l] has room for [n] entries. *)
Definition holds {A : Type} (n : Z) (l : list A) : bool :=
  n <=? Z.of_nat (length l).

(** The array [old] once its first entries have been overwritten by [new]. *)
Definition overwrite {A : Type} (new old : list A) : list A :=
  new ++ skipn (length new) old.

Section Fft.

(** The build: [true] when [HAVE_COMPLEX_H] is defined. *)
Variable HAVE_COMPLEX_H : bool.

Variable engine : fftw_engine.

(** [fftw_plan_dft_r2c_1d], [fftw_plan_dft_c2r_1d], [fftw_plan_r2r_1d]. *)
Definition fftw_make_plan (k : fftw_kind) (n : Z) : fftw_plan :=
  if fftw_accepts engine n then Some (mk_plan n k) else None.

(** [fftw_execute (p)] on the buffers of [s], to which the plans of [s] are
    bound: a forward plan of size [n] reads [n] reals of [s->in] and fills
    [s->specdata] ([n/2 + 1] complex numbers, or [n] reals in half-complex
    order); a backward plan reads as many entries of [s->specdata] and fills
    [n] reals of [s->out].  Executing a null plan, or a plan on buffers
    shorter than its size asks for, has no defined behaviour. *)
Definition fftw_execute (p : fftw_plan) (s : aubio_fft_t)
  : option aubio_fft_t :=
  match p with
  | None => None
  | Some pl =>
      let n := plan_n pl in
      match plan_kind pl, specdata s with
      | DFT_R2C, ComplexData d =>
          if holds n (in_ s) && holds (n / 2 + 1) d then
            Some (set_specdata s (ComplexData
              (overwrite (ztab (n / 2 + 1)
                            (fftw_r2c engine n (firstn (Z.to_nat n) (in_ s))))
                 d)))
          else None
      | DFT_C2R, ComplexData d =>
          if holds (n / 2 + 1) d && holds n (out s) then
            Some (set_out s
              (overwrite (ztab n (fftw_c2r engine n
                                    (firstn (Z.to_nat (n / 2 + 1)) d)))
                 (out s)))
          else None
      | R2HC, RealData d =>
          if holds n (in_ s) && holds n d then
            Some (set_specdata s (RealData
              (overwrite (ztab n
                            (fftw_r2hc engine n (firstn (Z.to_nat n) (in_ s))))
                 d)))
          else None
      | HC2R, RealData d =>
          if holds n d && holds n (out s) then
            Some (set_out s
              (overwrite (ztab n (fftw_hc2r engine n (firstn (Z.to_nat n) d)))
                 (out s)))
          else None
      | _, _ => None
      end
  end.

(** *** Construction and destruction *)

(** Allocation is taken to succeed: [AUBIO_NEW], [AUBIO_ARRAY], [new_fvec]
    and [fftw_malloc] give zeroed buffers of the requested size.  The result
    is the new object and the calls issued on the way. *)
Definition new_aubio_fft (winsize : Z)
  : option (aubio_fft_t * list Call.t) :=
  let in0 := repeat 0%R (Z.to_nat winsize) in
  let out0 := repeat 0%R (Z.to_nat winsize) in
  let compspec0 := new_fvec winsize in
  let s :=
    if HAVE_COMPLEX_H then
      let fft_size := uadd (udiv winsize 2) 1 in
      mk_fft winsize fft_size in0 out0
        (fftw_make_plan DFT_R2C winsize) (fftw_make_plan DFT_C2R winsize)
        (ComplexData (repeat (of_real 0) (Z.to_nat fft_size))) compspec0
    else
      let fft_size := winsize in
      mk_fft winsize fft_size in0 out0
        (fftw_make_plan R2HC winsize) (fftw_make_plan HC2R winsize)
        (RealData (repeat 0%R (Z.to_nat fft_size))) compspec0 in
  let calls :=
    [ Call.AUBIO_NEW; Call.AUBIO_ARRAY; Call.AUBIO_ARRAY; Call.new_fvec;
      Call.pthread_mutex_lock;
      Call.fftw_malloc;
      Call.fftw_plan (if HAVE_COMPLEX_H then DFT_R2C else R2HC) winsize;
      Call.fftw_plan (if HAVE_COMPLEX_H then DFT_C2R else HC2R) winsize;
      Call.pthread_mutex_unlock ] in
  io <- for_loop 0 (winsize) (fun i io =>
          i' <- aset (fst io) i 0%R ;;
          o' <- aset (snd io) i 0%R ;;
          Some (i', o')) (in_ s, out s) ;;
  let s := set_out (set_in s (fst io)) (snd io) in
  sd <- match specdata s with
        | ComplexData d =>
            d <- for_loop 0 (fft_size s) (fun i d => aset d i (of_real 0)) d ;;
            Some (ComplexData d)
        | RealData d =>
            d <- for_loop 0 (fft_size s) (fun i d => aset d i 0%R) d ;;
            Some (RealData d)
        end ;;
  Some (set_specdata s sd, calls).

(** [del_aubio_fft] gives nothing back; what it does is the calls it
    issues. *)
Definition del_aubio_fft (s : aubio_fft_t) : list Call.t :=
  [ Call.del_fvec;
    Call.fftw_destroy_plan (pfw s);
    Call.fftw_destroy_plan (pbw s);
    Call.fftw_free;
    Call.AUBIO_FREE;
    Call.AUBIO_FREE;
    Call.AUBIO_FREE ].

(** *** Forward and inverse transforms on the packed vector *)

Definition aubio_fft_do_complex (s : aubio_fft_t) (input compspec : fvec_t)
  : option (aubio_fft_t * fvec_t) :=
  i <- for_loop 0 (winsize s) (fun j i =>
         x <- aget (data input) j ;;
         aset i j x) (in_ s) ;;
  let s := set_in s i in
  s <- fftw_execute (pfw s) s ;;
  if HAVE_COMPLEX_H then
    match specdata s with
    | ComplexData sd =>
        x0 <- aget sd 0 ;;
        d <- aset (data compspec) 0 (REAL x0) ;;
        d <- for_loop 1 (usub (fft_size s) 1) (fun j d =>
               x <- aget sd j ;;
               d <- aset d j (REAL x) ;;
               aset d (usub (fvec_length compspec) j) (IMAG x)) d ;;
        xn <- aget sd (usub (fft_size s) 1) ;;
        d <- aset d (usub (fft_size s) 1) (REAL xn) ;;
        Some (s, set_data compspec d)
    | RealData _ => None
    end
  else
    match specdata s with
    | RealData sd =>
        d <- for_loop 0 (fft_size s) (fun j d =>
               x <- aget sd j ;;
               aset d j x) (data compspec) ;;
        Some (s, set_data compspec d)
    | ComplexData _ => None
    end.

Definition aubio_fft_rdo_complex (s : aubio_fft_t) (compspec output : fvec_t)
  : option (aubio_fft_t * fvec_t) :=
  let renorm := (1 / IZR (winsize s))%R in
  sd <- (if HAVE_COMPLEX_H then
           match specdata s with
           | ComplexData sd =>
               c0 <- aget (data compspec) 0 ;;
               sd <- aset sd 0 (of_real c0) ;;
               sd <- for_loop 1 (usub (fft_size s) 1) (fun j sd =>
                       re <- aget (data compspec) j ;;
                       im <- aget (data compspec)
                               (usub (fvec_length compspec) j) ;;
                       aset sd j (of_real_imag re im)) sd ;;
               cn <- aget (data compspec) (usub (fft_size s) 1) ;;
               sd <- aset sd (usub (fft_size s) 1) (of_real cn) ;;
               Some (ComplexData sd)
           | RealData _ => None
           end
         else
           match specdata s with
           | RealData sd =>
               sd <- for_loop 0 (fft_size s) (fun j sd =>
                       x <- aget (data compspec) j ;;
                       aset sd j x) sd ;;
               Some (RealData sd)
           | ComplexData _ => None
           end) ;;
  let s := set_specdata s sd in
  s <- fftw_execute (pbw s) s ;;
  o <- for_loop 0 (fvec_length output) (fun j o =>
         x <- aget (out s) j ;;
         aset o j (x * renorm)%R) (data output) ;;
  Some (s, set_data output o).

(** *** Forward and inverse transforms on the polar spectrum *)

Definition aubio_fft_do (s : aubio_fft_t) (input : fvec_t) (spectrum : cvec_t)
  : option (aubio_fft_t * cvec_t) :=
  sc <- aubio_fft_do_complex s input (compspec s) ;;
  let s := set_compspec (fst sc) (snd sc) in
  spectrum <- aubio_fft_get_spectrum (compspec s) spectrum ;;
  Some (s, spectrum).

Definition aubio_fft_rdo (s : aubio_fft_t) (spectrum : cvec_t)
  (output : fvec_t) : option (aubio_fft_t * fvec_t) :=
  c <- aubio_fft_get_realimag spectrum (compspec s) ;;
  let s := set_compspec s c in
  so <- aubio_fft_rdo_complex s (compspec s) output ;;
  Some so.

End Fft.

(** ** The planner and the global mutex [aubio_fftw_mutex] *)

(** [guarded_from held cs]: every call to the planner in [cs] (creation or
    destruction of a plan) is issued while the mutex is held, [held] telling
    whether it is held before the first call of [cs]. *)
Fixpoint guarded_from (held : bool) (cs : list Call.t) : bool :=
  match cs with
  | [] => true
  | Call.pthread_mutex_lock :: cs' => guarded_from true cs'
  | Call.pthread_mutex_unlock :: cs' => guarded_from false cs'
  | Call.fftw_plan _ _ :: cs' => held && guarded_from held cs'
  | Call.fftw_destroy_plan _ :: cs' => held && guarded_from held cs'
  | _ :: cs' => guarded_from held cs'
  end.

(** A function entered with the mutex free. *)
Definition planner_guarded (cs : list Call.t) : bool := guarded_from false cs.

(** The number of plans destroyed by a sequence of calls. *)
Fixpoint plans_destroyed (cs : list Call.t) : nat :=
  match cs with
  | [] => O
  | Call.fftw_destroy_plan _ :: cs' => S (plans_destroyed cs')
  | _ :: cs' => plans_destroyed cs'
  end.

(** ** The exact discrete Fourier transform as the engine *)

(** [rsum n f = f 0 + ... + f (n-1)]. *)
Fixpoint rsum (n : nat) (f : nat -> R) : R :=
  match n with
  | O => 0%R
  | S m => (rsum m f + f m)%R
  end.

(** The angle [2 PI a / n]. *)
Definition turn (n a : Z) : R := (2 * PI * IZR a / IZR n)%R.

(** Modelled from the spec: the real-input forward transform of the engine,
    unnormalised: bin [k] of [x] is the sum of [x_j exp (- 2 PI i j k / n)]. *)
Definition dft_r2c (n : Z) (x : list R) (k : Z) : fftw_complex :=
  (rsum (Z.to_nat n)
     (fun j => (dget x (Z.of_nat j) * cos (turn n (Z.of_nat j * k)))%R),
   (- rsum (Z.to_nat n)
        (fun j => (dget x (Z.of_nat j) * sin (turn n (Z.of_nat j * k)))%R))%R).

(** Modelled from the spec: the inverse transform of the engine, unnormalised,
    of the Hermitian sequence whose bins [0 .. n/2] are [X]: sample [m] is the
    sum over all [n] bins of [X_k exp (2 PI i k m / n)].  The imaginary parts
    of bin [0] and, for even [n], of bin [n/2] are not looked at. *)
Definition dft_c2r (n : Z) (X : list fftw_complex) (m : Z) : R :=
  let bin k := nth (Z.to_nat k) X (0%R, 0%R) in
  let term k :=
    (2 * (REAL (bin k) * cos (turn n (k * m))
          - IMAG (bin k) * sin (turn n (k * m))))%R in
  let nyquist :=
    if Z.even n then (REAL (bin (n / 2)%Z) * cos (turn n (n / 2 * m)))%R
    else 0%R in
  (REAL (bin 0%Z)
   + rsum (Z.to_nat ((n - 1) / 2)) (fun k' => term (Z.of_nat k' + 1)%Z)
   + nyquist)%R.

(** Modelled from the spec: the same transforms on the half-complex layout
    [r0, r1, ..., r(n/2), i((n+1)/2 - 1), ..., i1] of the engine. *)
Definition dft_r2hc (n : Z) (x : list R) (k : Z) : R :=
  if k <=? n / 2 then REAL (dft_r2c n x k) else IMAG (dft_r2c n x (n - k)).

Definition hc_bins (n : Z) (h : list R) : list fftw_complex :=
  ztab (n / 2 + 1) (fun k =>
    (dget h k, if (k =? 0) || (2 * k =? n) then 0%R else dget h (n - k))).

Definition dft_hc2r (n : Z) (h : list R) (m : Z) : R :=
  dft_c2r n (hc_bins n h) m.

(** Modelled from the spec: the planner of the engine rejects size [0]. *)
Definition dft_engine : fftw_engine :=
  mk_engine (fun n => 0 <? n) dft_r2c dft_c2r dft_r2hc dft_hc2r.

(** ** Well-formed objects *)

(** The shape [new_aubio_fft (N)] gives to an object, whatever the contents
    of its buffers. *)
Definition fft_ok (HAVE_COMPLEX_H : bool) (N : Z) (s : aubio_fft_t) : Prop :=
  winsize s = N /\
  Z.of_nat (length (in_ s)) = N /\
  Z.of_nat (length (out s)) = N /\
  packed_ok N (compspec s) /\
  if HAVE_COMPLEX_H then
    fft_size s = N / 2 + 1 /\
    pfw s = Some (mk_plan N DFT_R2C) /\
    pbw s = Some (mk_plan N DFT_C2R) /\
    exists d, specdata s = ComplexData d /\
              Z.of_nat (length d) = N / 2 + 1
  else
    fft_size s = N /\
    pfw s = Some (mk_plan N R2HC) /\
    pbw s = Some (mk_plan N HC2R) /\
    exists d, specdata s = RealData d /\ Z.of_nat (length d) = N.

(** The packed vector of the bins [X] of a complex spectrum, for even [N]. *)
Definition pack_complex (N : Z) (X : Z -> fftw_complex) (i : Z) : R :=
  if i <=? N / 2 then REAL (X i) else IMAG (X (N - i)).

(** The complex spectrum handed to the backward plan for a packed vector. *)
Definition unpack_complex (N : Z) (d : list R) (k : Z) : fftw_complex :=
  if (k =? N / 2) || (k =? 0) then of_real (dget d k)
  else of_real_imag (dget d k) (dget d (N - k)).

(** ** Loops that copy or scatter *)

(** A loop whose iteration [j] makes two stores. *)
Lemma for_loop_store2 {A : Type} (g1 g2 : Z -> Z) (f1 f2 : Z -> A) body lo hi
  (a : list A) :
  (forall j b, lo <= j < hi -> length b = length a ->
     body j b = (b' <- aset b (g1 j) (f1 j) ;; aset b' (g2 j) (f2 j))) ->
  (forall j, lo <= j < hi ->
     0 <= g1 j < Z.of_nat (length a) /\ 0 <= g2 j < Z.of_nat (length a)) ->
  (forall j j', lo <= j < hi -> lo <= j' < hi -> g1 j = g1 j' -> j = j') ->
  (forall j j', lo <= j < hi -> lo <= j' < hi -> g2 j = g2 j' -> j = j') ->
  (forall j j', lo <= j < hi -> lo <= j' < hi -> g1 j <> g2 j') ->
  exists a', for_loop lo hi body a = Some a' /\
    length a' = length a /\
    (forall j, lo <= j < hi -> aget a' (g1 j) = Some (f1 j)) /\
    (forall j, lo <= j < hi -> aget a' (g2 j) = Some (f2 j)) /\
    (forall i, (forall j, lo <= j < hi -> g1 j <> i /\ g2 j <> i) ->
       aget a' i = aget a i).
Proof.
  intros Hbody Hrng Hinj1 Hinj2 Hdisj.
  destruct (Z.le_gt_cases lo hi) as [Hle|Hgt].
  2:{ exists a; rewrite for_loop_empty by lia.
      repeat split; auto; intros; lia. }
  destruct (for_loop_inv
    (fun n b => length b = length a /\
       (forall j, lo <= j < n -> aget b (g1 j) = Some (f1 j)) /\
       (forall j, lo <= j < n -> aget b (g2 j) = Some (f2 j)) /\
       (forall i, (forall j, lo <= j < n -> g1 j <> i /\ g2 j <> i) ->
          aget b i = aget a i))
    body lo hi a Hle) as (a' & Ha' & HI).
  - split; [reflexivity|]. repeat split; intros; try lia; reflexivity.
  - intros j b Hj (Hlen & Hw1 & Hw2 & Hf).
    rewrite (Hbody j b Hj Hlen).
    destruct (Hrng j Hj) as [Hr1 Hr2].
    assert (Hs1 : aset b (g1 j) (f1 j)
                  = Some (list_upd b (Z.to_nat (g1 j)) (f1 j)))
      by (apply aset_in; lia).
    rewrite Hs1; cbn [bind].
    set (b1 := list_upd b (Z.to_nat (g1 j)) (f1 j)) in *.
    assert (Hl1 : length b1 = length b) by apply length_list_upd.
    assert (Hs2 : aset b1 (g2 j) (f2 j)
                  = Some (list_upd b1 (Z.to_nat (g2 j)) (f2 j)))
      by (apply aset_in; lia).
    rewrite Hs2. eexists; split; [reflexivity|].
    split; [rewrite length_list_upd; lia|].
    split; [|split].
    + intros k Hk.
      rewrite (aget_aset_neq _ _ _ _ _ Hs2)
        by (apply Hdisj; lia).
      destruct (Z.eq_dec k j) as [->|Hne].
      * eapply aget_aset_eq; eauto.
      * rewrite (aget_aset_neq _ _ _ _ _ Hs1).
        -- apply Hw1; lia.
        -- intros E; apply Hne; apply Hinj1; auto; lia.
    + intros k Hk.
      destruct (Z.eq_dec k j) as [->|Hne].
      * eapply aget_aset_eq; eauto.
      * rewrite (aget_aset_neq _ _ _ _ _ Hs2)
          by (intros E; apply Hne; apply Hinj2; auto; lia).
        rewrite (aget_aset_neq _ _ _ _ _ Hs1).
        -- apply Hw2; lia.
        -- intros E; apply (Hdisj j k); auto; lia.
    + intros i Hi.
      destruct (Hi j ltac:(lia)) as [Hi1 Hi2].
      rewrite (aget_aset_neq _ _ _ _ _ Hs2) by congruence.
      rewrite (aget_aset_neq _ _ _ _ _ Hs1) by congruence.
      apply Hf; intros k Hk; apply Hi; lia.
  - exists a'; tauto.
Qed.

Lemma ztab_dget (l : list R) n :
  Z.of_nat (length l) = n -> ztab n (dget l) = l.
Proof.
  intros H; symmetry; apply eq_ztab; auto.
  intros i Hi; apply aget_dget; lia.
Qed.

(** [for (j = 0; j < n; j++) dst[j] = src[j]] on arrays of [n] entries. *)
Lemma for_loop_copy (src dst : list R) n :
  Z.of_nat (length src) = n -> Z.of_nat (length dst) = n ->
  for_loop 0 n (fun j d => x <- aget src j ;; aset d j x) dst = Some src.
Proof.
  intros Hs Hd.
  destruct (for_loop_store (fun j => j) (dget src)
              (fun j d => x <- aget src j ;; aset d j x) 0 n dst)
    as (d' & Hloop & Hl & Hw & _); try lia.
  - intros j b Hj Hb. rewrite (aget_dget src j) by lia. reflexivity.
  - rewrite Hloop; f_equal.
    rewrite <- (ztab_dget src n Hs). apply eq_ztab; [lia|assumption].
Qed.

Lemma holds_true {A : Type} n (l : list A) :
  n <= Z.of_nat (length l) -> holds n l = true.
Proof. intros H; unfold holds; now apply Z.leb_le. Qed.

Lemma overwrite_all {A : Type} (new old : list A) :
  length new = length old -> overwrite new old = new.
Proof.
  intros H; unfold overwrite. rewrite H, skipn_all. apply app_nil_r.
Qed.

Lemma firstn_whole {A : Type} n (l : list A) :
  Z.of_nat (length l) = n -> firstn (Z.to_nat n) l = l.
Proof. intros H; apply firstn_all2; lia. Qed.

(** ** Closed forms of the transforms on the packed vector *)

(** What the forward plan leaves in [specdata] for the input [x]. *)
Definition forward_data (c : bool) (E : fftw_engine) (N : Z) (x : list R)
  : fft_data :=
  if c then ComplexData (ztab (N / 2 + 1) (fftw_r2c E N x))
  else RealData (ztab N (fftw_r2hc E N x)).

(** Entry [i] of the packed vector after [aubio_fft_do_complex], [old] being
    its former contents. *)
Definition do_complex_at (c : bool) (E : fftw_engine) (N : Z) (x old : list R)
  (i : Z) : R :=
  if c then
    if i <=? N / 2 then REAL (fftw_r2c E N x i)
    else if N - i <? N / 2 then IMAG (fftw_r2c E N x (N - i))
    else dget old i
  else fftw_r2hc E N x i.

(** What [aubio_fft_rdo_complex] hands to the backward plan for the packed
    vector [d]. *)
Definition backward_data (c : bool) (N : Z) (d : list R) : fft_data :=
  if c then ComplexData (ztab (N / 2 + 1) (unpack_complex N d))
  else RealData d.

(** What the backward plan leaves in [out]. *)
Definition backward_out (c : bool) (E : fftw_engine) (N : Z) (d : list R)
  : list R :=
  ztab N (if c then fftw_c2r E N (ztab (N / 2 + 1) (unpack_complex N d))
          else fftw_hc2r E N d).

Section Drivers.

Variable c : bool.
Variable E : fftw_engine.
Variable N : Z.
Hypothesis N_range : 0 < N < uint_modulus.

Lemma aubio_fft_do_complex_spec s input cs :
  fft_ok c N s -> packed_ok N input -> packed_ok N cs ->
  aubio_fft_do_complex c E s input cs =
  Some (set_specdata (set_in s (data input)) (forward_data c E N (data input)),
        set_data cs
          (ztab N (do_complex_at c E N (data input) (data cs)))).
Proof.
  intros (Hw & Hin & Hout & Hcs & Hmode) [Hiwf Hilen] [Hcwf Hclen].
  red in Hiwf, Hcwf.
  assert (Hh : 0 <= N / 2 < N)
    by (split; [apply Z.div_pos; lia|apply Z.div_lt; lia]).
  unfold aubio_fft_do_complex.
  rewrite Hw, (for_loop_copy (data input) (in_ s) N) by lia.
  cbn [bind]. unfold do_complex_at, forward_data. destruct c.
  - destruct Hmode as (Hfs & Hpfw & Hpbw & d & Hsd & Hd).
    unfold fftw_execute. cbn [pfw set_in specdata plan_n plan_kind].
    rewrite Hpfw, Hsd. cbn [plan_n plan_kind].
    change (in_ (set_in s (data input))) with (data input).
    rewrite !holds_true by lia. cbn [andb].
    rewrite overwrite_all by (rewrite length_ztab; lia).
    rewrite firstn_whole by lia. cbn [bind specdata set_specdata set_in fft_size].
    rewrite Hfs, Hclen. uint_simpl.
    replace (N / 2 + 1 - 1) with (N / 2) by lia.
    set (X := fftw_r2c E N (data input)).
    rewrite aget_ztab by lia. cbn [bind].
    assert (Hs0 : aset (data cs) 0 (REAL (X 0)) =
                  Some (list_upd (data cs) (Z.to_nat 0) (REAL (X 0))))
      by (apply aset_in; lia).
    rewrite Hs0; cbn [bind].
    set (d1 := list_upd (data cs) (Z.to_nat 0) (REAL (X 0))) in *.
    assert (Hl1 : length d1 = length (data cs)) by apply length_list_upd.
    destruct (for_loop_store2 (fun j => j) (fun j => N - j)
      (fun j => REAL (X j)) (fun j => IMAG (X j))
      (fun j d =>
         x <- aget (ztab (N / 2 + 1) X) j ;;
         d <- aset d j (REAL x) ;;
         aset d (usub N j) (IMAG x)) 1 (N / 2) d1)
      as (d2 & Hloop & Hl2 & Hw1 & Hw2 & Hf); try lia.
    { intros j b Hj Hb. uint_simpl. rewrite aget_ztab by lia. reflexivity. }
    rewrite Hloop; cbn [bind].
    rewrite aget_ztab by lia. cbn [bind].
    assert (Hs3 : aset d2 (N / 2) (REAL (X (N / 2))) =
                  Some (list_upd d2 (Z.to_nat (N / 2)) (REAL (X (N / 2)))))
      by (apply aset_in; lia).
    rewrite Hs3; cbn [bind]. f_equal. f_equal. f_equal.
    apply eq_ztab; [rewrite length_list_upd; lia|].
    intros i Hi.
    destruct (Z.eq_dec i (N / 2)) as [->|Hne].
    + rewrite (proj2 (Z.leb_le _ _)) by lia. eapply aget_aset_eq; eauto.
    + rewrite (aget_aset_neq _ _ _ _ _ Hs3) by assumption.
      destruct (Z.leb_spec i (N / 2)) as [Hle|Hgt].
      * destruct (Z.eq_dec i 0) as [->|Hne0].
        -- rewrite Hf by (intros j Hj; lia). eapply aget_aset_eq; eauto.
        -- apply (Hw1 i); lia.
      * destruct (Z.ltb_spec (N - i) (N / 2)) as [Hlt|Hge].
        -- replace i with (N - (N - i)) at 1 by lia. apply Hw2; lia.
        -- rewrite Hf by (intros j Hj; lia).
           rewrite (aget_aset_neq _ _ _ _ _ Hs0) by lia.
           apply aget_dget; lia.
  - destruct Hmode as (Hfs & Hpfw & Hpbw & d & Hsd & Hd).
    unfold fftw_execute. cbn [pfw set_in specdata plan_n plan_kind].
    rewrite Hpfw, Hsd. cbn [plan_n plan_kind].
    change (in_ (set_in s (data input))) with (data input).
    rewrite !holds_true by lia. cbn [andb].
    rewrite overwrite_all by (rewrite length_ztab; lia).
    rewrite firstn_whole by lia. cbn [bind specdata set_specdata set_in fft_size].
    rewrite Hfs.
    rewrite (for_loop_copy _ (data cs) N)
      by (rewrite ?length_ztab; lia).
    cbn [bind]. reflexivity.
Qed.

Lemma aubio_fft_rdo_complex_spec s cs output :
  fft_ok c N s -> packed_ok N cs -> packed_ok N output ->
  aubio_fft_rdo_complex c E s cs output =
  Some (set_out (set_specdata s (backward_data c N (data cs)))
          (backward_out c E N (data cs)),
        set_data output
          (ztab N (fun j =>
             (dget (backward_out c E N (data cs)) j * (1 / IZR N))%R))).
Proof.
  intros (Hw & Hin & Hout & Hcs & Hmode) [Hcwf Hclen] [Howf Holen].
  red in Hcwf, Howf.
  assert (Hh : 0 <= N / 2 < N)
    by (split; [apply Z.div_pos; lia|apply Z.div_lt; lia]).
  assert (Hfinal : forall s' : aubio_fft_t,
    out s' = backward_out c E N (data cs) -> winsize s' = N ->
    (o <- for_loop 0 (fvec_length output) (fun j o =>
            x <- aget (out s') j ;;
            aset o j (x * (1 / IZR (winsize s)))%R) (data output) ;;
     Some (s', set_data output o)) =
    Some (s', set_data output
          (ztab N (fun j =>
             (dget (backward_out c E N (data cs)) j * (1 / IZR N))%R)))).
  { intros s' Ho Hw'. rewrite Holen, Ho, Hw.
    assert (Hlo : length (backward_out c E N (data cs)) = Z.to_nat N)
      by (unfold backward_out; apply length_ztab).
    destruct (for_loop_store (fun j => j)
      (fun j => (dget (backward_out c E N (data cs)) j * (1 / IZR N))%R)
      (fun j o =>
         x <- aget (backward_out c E N (data cs)) j ;;
         aset o j (x * (1 / IZR N))%R) 0 N (data output))
      as (o' & Hloop & Hl & Hwr & _); try lia.
    - intros j b Hj Hb. rewrite (aget_dget _ j) by lia. reflexivity.
    - rewrite Hloop; cbn [bind]. f_equal. f_equal. f_equal.
      apply eq_ztab; [lia|assumption]. }
  unfold aubio_fft_rdo_complex.
  unfold backward_data. destruct c.
  - destruct Hmode as (Hfs & Hpfw & Hpbw & d & Hsd & Hd).
    rewrite Hsd, Hfs, Hclen. uint_simpl.
    replace (N / 2 + 1 - 1) with (N / 2) by lia.
    rewrite (aget_dget (data cs) 0) by lia. cbn [bind].
    assert (Hs0 : aset d 0 (of_real (dget (data cs) 0)) =
       Some (list_upd d (Z.to_nat 0) (of_real (dget (data cs) 0))))
      by (apply aset_in; lia).
    rewrite Hs0; cbn [bind].
    set (d1 := list_upd d (Z.to_nat 0) _) in *.
    assert (Hl1 : length d1 = length d) by apply length_list_upd.
    destruct (for_loop_store (fun j => j)
      (fun j => of_real_imag (dget (data cs) j) (dget (data cs) (N - j)))
      (fun j sd =>
         re <- aget (data cs) j ;;
         im <- aget (data cs) (usub N j) ;;
         aset sd j (of_real_imag re im)) 1 (N / 2) d1)
      as (d2 & Hloop & Hl2 & Hwr & Hf); try lia.
    { intros j b Hj Hb. uint_simpl.
      rewrite (aget_dget _ j) by lia.
      rewrite (aget_dget _ (N - j)) by lia. reflexivity. }
    rewrite Hloop; cbn [bind].
    rewrite (aget_dget (data cs) (N / 2)) by lia. cbn [bind].
    assert (Hs3 : aset d2 (N / 2) (of_real (dget (data cs) (N / 2))) =
       Some (list_upd d2 (Z.to_nat (N / 2))
               (of_real (dget (data cs) (N / 2)))))
      by (apply aset_in; lia).
    rewrite Hs3; cbn [bind].
    assert (Hsd' : list_upd d2 (Z.to_nat (N / 2))
                     (of_real (dget (data cs) (N / 2)))
                   = ztab (N / 2 + 1) (unpack_complex N (data cs))).
    { apply eq_ztab; [rewrite length_list_upd; lia|].
      intros i Hi. unfold unpack_complex.
      destruct (Z.eqb_spec i (N / 2)) as [->|Hne]; cbn [orb].
      - eapply aget_aset_eq; eauto.
      - rewrite (aget_aset_neq _ _ _ _ _ Hs3) by assumption.
        destruct (Z.eqb_spec i 0) as [->|Hne0].
        + rewrite Hf by (intros j Hj; lia). eapply aget_aset_eq; eauto.
        + apply Hwr; lia. }
    rewrite Hsd'.
    unfold fftw_execute. cbn [pbw set_specdata specdata out].
    rewrite Hpbw. cbn [plan_n plan_kind].
    rewrite !holds_true by (rewrite ?length_ztab; lia). cbn [andb].
    rewrite overwrite_all by (rewrite length_ztab; lia).
    rewrite firstn_whole by (rewrite length_ztab; lia). cbn [bind].
    apply Hfinal; [reflexivity|exact Hw].
  - destruct Hmode as (Hfs & Hpfw & Hpbw & d & Hsd & Hd).
    rewrite Hsd, Hfs.
    rewrite (for_loop_copy (data cs) d N) by lia. cbn [bind].
    unfold fftw_execute. cbn [pbw set_specdata specdata out].
    rewrite Hpbw. cbn [plan_n plan_kind].
    rewrite !holds_true by lia. cbn [andb].
    rewrite overwrite_all by (rewrite length_ztab; lia).
    rewrite firstn_whole by lia. cbn [bind].
    apply Hfinal; [reflexivity|exact Hw].
Qed.

End Drivers.

(** ** Closed forms of the transforms on the polar spectrum *)

(** The packed vector of the object after a forward transform of [x]. *)
Definition do_packed (c : bool) (E : fftw_engine) (N : Z) (s : aubio_fft_t)
  (x : list R) : list R :=
  ztab N (do_complex_at c E N x (data (compspec s))).

(** The object after [aubio_fft_do] on the input [x]. *)
Definition after_do (c : bool) (E : fftw_engine) (N : Z) (s : aubio_fft_t)
  (x : list R) : aubio_fft_t :=
  set_compspec
    (set_specdata (set_in s x) (forward_data c E N x))
    (set_data (compspec s) (do_packed c E N s x)).

(** The packed vector of a polar spectrum. *)
Definition rdo_packed (N : Z) (spectrum : cvec_t) : list R :=
  ztab N (packed_at (norm spectrum) (phas spectrum) N).

(** The object after [aubio_fft_rdo] on [spectrum]. *)
Definition after_rdo (c : bool) (E : fftw_engine) (N : Z) (s : aubio_fft_t)
  (spectrum : cvec_t) : aubio_fft_t :=
  let P := rdo_packed N spectrum in
  set_out
    (set_specdata (set_compspec s (set_data (compspec s) P))
       (backward_data c N P))
    (backward_out c E N P).

(** The frame written by [aubio_fft_rdo] for [spectrum]. *)
Definition rdo_frame (c : bool) (E : fftw_engine) (N : Z) (spectrum : cvec_t)
  : list R :=
  ztab N (fun j =>
    (dget (backward_out c E N (rdo_packed N spectrum)) j * (1 / IZR N))%R).

Section Transforms.

Variable c : bool.
Variable E : fftw_engine.
Variable N : Z.
Hypothesis N_range : 0 < N < uint_modulus.

Lemma packed_ok_set_data cs d :
  packed_ok N cs -> Z.of_nat (length d) = N -> packed_ok N (set_data cs d).
Proof.
  intros [Hwf Hlen] Hd; split; [red|]; cbn; congruence.
Qed.

Lemma packed_ok_ztab cs (f : Z -> R) :
  packed_ok N cs -> packed_ok N (set_data cs (ztab N f)).
Proof.
  intros H; apply packed_ok_set_data; auto. rewrite length_ztab; lia.
Qed.

Lemma aubio_fft_do_spec s input spectrum :
  fft_ok c N s -> packed_ok N input -> polar_ok N spectrum ->
  aubio_fft_do c E s input spectrum =
  Some (after_do c E N s (data input),
        polar_of (do_packed c E N s (data input)) N).
Proof.
  intros Hs Hi Hsp.
  pose proof Hs as (Hw & Hin & Hout & Hcs & Hmode).
  unfold aubio_fft_do.
  rewrite (aubio_fft_do_complex_spec c E N N_range s input (compspec s))
    by assumption.
  cbn [bind fst snd compspec set_compspec].
  rewrite (aubio_fft_get_spectrum_spec N) by
    (auto; apply packed_ok_ztab; assumption).
  reflexivity.
Qed.

Lemma aubio_fft_rdo_spec s spectrum output :
  N + 1 < uint_modulus ->
  fft_ok c N s -> polar_ok N spectrum -> packed_ok N output ->
  aubio_fft_rdo c E s spectrum output =
  Some (after_rdo c E N s spectrum,
        set_data output (rdo_frame c E N spectrum)).
Proof.
  intros HN1 Hs Hsp Ho.
  pose proof Hs as (Hw & Hin & Hout & Hcs & Hmode).
  unfold aubio_fft_rdo.
  rewrite (aubio_fft_get_realimag_spec N) by (auto; lia).
  cbn [bind compspec set_compspec].
  rewrite (aubio_fft_rdo_complex_spec c E N N_range).
  - reflexivity.
  - repeat split; try assumption.
    + red; cbn. rewrite length_ztab. destruct Hcs as [_ Hl]. lia.
    + apply Hcs.
  - apply packed_ok_ztab; assumption.
  - assumption.
Qed.

(** Both transforms keep the shape of the object. *)
Lemma fft_ok_after_do s x :
  fft_ok c N s -> Z.of_nat (length x) = N -> fft_ok c N (after_do c E N s x).
Proof.
  intros (Hw & Hin & Hout & Hcs & Hmode) Hx.
  unfold after_do, fft_ok.
  cbn [winsize in_ out compspec fft_size pfw pbw specdata
       set_compspec set_specdata set_in].
  repeat split; try assumption.
  - red; cbn. unfold do_packed. rewrite length_ztab.
    destruct Hcs as [_ Hl]. lia.
  - apply Hcs.
  - unfold forward_data. destruct c.
    + destruct Hmode as (Hfs & Hpfw & Hpbw & d & Hsd & Hd).
      repeat split; try assumption.
      eexists; split; [reflexivity|]. rewrite length_ztab; lia.
    + destruct Hmode as (Hfs & Hpfw & Hpbw & d & Hsd & Hd).
      repeat split; try assumption.
      eexists; split; [reflexivity|]. rewrite length_ztab; lia.
Qed.

Lemma fft_ok_after_rdo s spectrum :
  fft_ok c N s -> fft_ok c N (after_rdo c E N s spectrum).
Proof.
  intros (Hw & Hin & Hout & Hcs & Hmode).
  assert (Hh : 0 <= N / 2 < N)
    by (split; [apply Z.div_pos; lia|apply Z.div_lt; lia]).
  unfold after_rdo, fft_ok.
  cbn [winsize in_ out compspec fft_size pfw pbw specdata
       set_compspec set_specdata set_out].
  repeat split; try assumption.
  - unfold backward_out. rewrite length_ztab; lia.
  - red; cbn. unfold rdo_packed. rewrite length_ztab.
    destruct Hcs as [_ Hl]. lia.
  - apply Hcs.
  - unfold backward_data. destruct c.
    + destruct Hmode as (Hfs & Hpfw & Hpbw & d & Hsd & Hd).
      repeat split; try assumption.
      eexists; split; [reflexivity|]. rewrite length_ztab; lia.
    + destruct Hmode as (Hfs & Hpfw & Hpbw & d & Hsd & Hd).
      repeat split; try assumption.
      eexists; split; [reflexivity|].
      unfold rdo_packed. rewrite length_ztab; lia.
Qed.

End Transforms.

(** ** Closed form of the construction *)

(** The object built by [new_aubio_fft (N)]. *)
Definition new_object (c : bool) (E : fftw_engine) (N : Z) : aubio_fft_t :=
  if c then
    mk_fft N (N / 2 + 1)
      (repeat 0%R (Z.to_nat N)) (repeat 0%R (Z.to_nat N))
      (fftw_make_plan E DFT_R2C N) (fftw_make_plan E DFT_C2R N)
      (ComplexData (repeat (of_real 0) (Z.to_nat (N / 2 + 1))))
      (new_fvec N)
  else
    mk_fft N N
      (repeat 0%R (Z.to_nat N)) (repeat 0%R (Z.to_nat N))
      (fftw_make_plan E R2HC N) (fftw_make_plan E HC2R N)
      (RealData (repeat 0%R (Z.to_nat N)))
      (new_fvec N).

(** The calls issued by [new_aubio_fft (N)]. *)
Definition new_calls (c : bool) (N : Z) : list Call.t :=
  [ Call.AUBIO_NEW; Call.AUBIO_ARRAY; Call.AUBIO_ARRAY; Call.new_fvec;
    Call.pthread_mutex_lock;
    Call.fftw_malloc;
    Call.fftw_plan (if c then DFT_R2C else R2HC) N;
    Call.fftw_plan (if c then DFT_C2R else HC2R) N;
    Call.pthread_mutex_unlock ].

Lemma list_upd_repeat {A : Type} (v : A) n i :
  list_upd (repeat v n) i v = repeat v n.
Proof.
  revert i; induction n as [|n IH]; intros [|i]; cbn; auto.
  now rewrite IH.
Qed.

(** Zeroing an array of zeros. *)
Lemma for_loop_zero {A : Type} (z : A) n :
  0 <= n ->
  for_loop 0 n (fun i d => aset d i z) (repeat z (Z.to_nat n))
  = Some (repeat z (Z.to_nat n)).
Proof.
  intros Hn.
  destruct (for_loop_inv (fun _ d => d = repeat z (Z.to_nat n))
              (fun i d => aset d i z) 0 n (repeat z (Z.to_nat n)))
    as (d & Hd & ->); auto.
  intros j t Hj ->. rewrite aset_in by (rewrite repeat_length; lia).
  rewrite list_upd_repeat. eauto.
Qed.

Lemma for_loop_zero2 n :
  0 <= n ->
  for_loop 0 n (fun i (io : list R * list R) =>
      i' <- aset (fst io) i 0%R ;;
      o' <- aset (snd io) i 0%R ;;
      Some (i', o'))
    (repeat 0%R (Z.to_nat n), repeat 0%R (Z.to_nat n))
  = Some (repeat 0%R (Z.to_nat n), repeat 0%R (Z.to_nat n)).
Proof.
  intros Hn.
  destruct (for_loop_inv
              (fun _ io => io = (repeat 0%R (Z.to_nat n),
                                 repeat 0%R (Z.to_nat n)))
              (fun i (io : list R * list R) =>
                 i' <- aset (fst io) i 0%R ;;
                 o' <- aset (snd io) i 0%R ;;
                 Some (i', o')) 0 n
              (repeat 0%R (Z.to_nat n), repeat 0%R (Z.to_nat n)))
    as (d & Hd & ->); auto.
  intros j t Hj ->. cbn [fst snd].
  rewrite aset_in by (rewrite repeat_length; lia).
  rewrite list_upd_repeat. cbn [bind]. eauto.
Qed.

Lemma new_aubio_fft_spec (c : bool) (E : fftw_engine) (N : Z) :
  0 <= N < uint_modulus ->
  new_aubio_fft c E N = Some (new_object c E N, new_calls c N).
Proof.
  intros HN. unfold new_aubio_fft, new_object, new_calls.
  assert (Hh : 0 <= N / 2 <= N)
    by (split; [apply Z.div_pos; lia|apply Z.div_le_upper_bound; lia]).
  destruct c.
  - cbn [in_ out]. rewrite for_loop_zero2 by lia. cbn [bind fst snd].
    cbn [specdata set_in set_out fft_size]. uint_simpl.
    rewrite for_loop_zero by lia. reflexivity.
  - cbn [in_ out]. rewrite for_loop_zero2 by lia. cbn [bind fst snd].
    cbn [specdata set_in set_out fft_size].
    rewrite for_loop_zero by lia. reflexivity.
Qed.

Lemma fft_ok_new_object (c : bool) (E : fftw_engine) (N : Z) :
  0 < N -> fftw_accepts E N = true -> fft_ok c N (new_object c E N).
Proof.
  intros HN Hacc.
  assert (Hh : 0 <= N / 2) by (apply Z.div_pos; lia).
  unfold new_object, fft_ok, fftw_make_plan. rewrite Hacc.
  destruct c; cbn [winsize in_ out compspec fft_size pfw pbw specdata];
    rewrite !repeat_length;
    (repeat split; try lia; try reflexivity;
     [ red; cbn; rewrite repeat_length; lia
     | eexists; split; [reflexivity|rewrite repeat_length; lia] ]).
Qed.

(** Nothing runs on an object whose plans are null. *)
Lemma aubio_fft_do_null_plan c E s input spectrum :
  pfw s = None -> aubio_fft_do c E s input spectrum = None.
Proof.
  intros Hp. unfold aubio_fft_do, aubio_fft_do_complex.
  destruct (for_loop 0 (winsize s) _ (in_ s)) as [i|]; [|reflexivity].
  cbn [bind pfw set_in]. rewrite Hp. reflexivity.
Qed.

Lemma aubio_fft_rdo_null_plan c E s spectrum output :
  pbw s = None -> aubio_fft_rdo c E s spectrum output = None.
Proof.
  intros Hp. unfold aubio_fft_rdo.
  destruct (aubio_fft_get_realimag spectrum (compspec s)) as [cs|];
    [|reflexivity].
  cbn [bind]. unfold aubio_fft_rdo_complex.
  match goal with
  | |- context [bind ?m _] =>
      match m with
      | (if c then _ else _) => destruct m as [sd|]; [|reflexivity]
      end
  end.
  cbn [bind pbw set_specdata set_compspec]. rewrite Hp. reflexivity.
Qed.

(** ** Reconstruction of the packed vector from its polar spectrum *)

Lemma polar_real_part d N k :
  (norm_at d N k * COS (phas_at d N k))%R = dget d k.
Proof.
  unfold norm_at, phas_at.
  destruct (Z.eqb_spec k (N / 2)) as [->|H1]; [apply sign_phas_cos|].
  destruct (Z.eqb_spec k 0) as [->|H0]; [apply sign_phas_cos|].
  apply polar_cos.
Qed.

Lemma polar_imag_part d N k :
  k <> N / 2 -> k <> 0 ->
  (norm_at d N k * SIN (phas_at d N k))%R = dget d (N - k).
Proof.
  intros H1 H0. unfold norm_at, phas_at.
  destruct (Z.eqb_spec k (N / 2)) as [|_]; [contradiction|].
  destruct (Z.eqb_spec k 0) as [|_]; [contradiction|].
  apply polar_sin.
Qed.

(** For even [N], the packed vector of the polar spectrum of [d] is [d]. *)
Lemma rdo_packed_polar_of d N :
  0 < N -> Z.even N = true -> Z.of_nat (length d) = N ->
  rdo_packed N (polar_of d N) = d.
Proof.
  intros HN Hev Hd.
  assert (H2 : N = 2 * (N / 2)).
  { rewrite Z.even_spec in Hev. destruct Hev as [m ->].
    now rewrite Z.mul_comm, Z.div_mul, Z.mul_comm by lia. }
  unfold rdo_packed. rewrite <- (ztab_dget d N Hd) at 3.
  apply ztab_ext; intros i Hi.
  unfold packed_at, polar_of; cbn [norm phas].
  destruct (Z.leb_spec i (N / 2)) as [Hle|Hgt].
  - rewrite !dget_ztab by lia. apply polar_real_part.
  - rewrite !dget_ztab by lia.
    rewrite polar_imag_part by lia. f_equal; lia.
Qed.

(** ** Sequences of requests served by one object *)

Inductive request : Type :=
| Forward (input : fvec_t) (spectrum : cvec_t)
| Inverse (spectrum : cvec_t) (output : fvec_t).

Definition request_ok (N : Z) (r : request) : Prop :=
  match r with
  | Forward input spectrum => packed_ok N input /\ polar_ok N spectrum
  | Inverse spectrum output => polar_ok N spectrum /\ packed_ok N output
  end.

(** The object after it has served the requests [rs] in turn. *)
Fixpoint serve (c : bool) (E : fftw_engine) (s : aubio_fft_t)
  (rs : list request) : option aubio_fft_t :=
  match rs with
  | [] => Some s
  | Forward input spectrum :: rs' =>
      r <- aubio_fft_do c E s input spectrum ;;
      serve c E (fst r) rs'
  | Inverse spectrum output :: rs' =>
      r <- aubio_fft_rdo c E s spectrum output ;;
      serve c E (fst r) rs'
  end.

Lemma serve_ok c E N s rs :
  0 < N -> N + 1 < uint_modulus ->
  fft_ok c N s -> Forall (request_ok N) rs ->
  exists s', serve c E s rs = Some s' /\ fft_ok c N s'.
Proof.
  intros HN HN1 Hs Hrs; revert s Hs.
  induction Hrs as [|r rs Hr Hrs IH]; intros s Hs.
  - exists s; split; [reflexivity|assumption].
  - destruct r as [input spectrum|spectrum output]; destruct Hr as [H1 H2];
      cbn [serve].
    + rewrite (aubio_fft_do_spec c E N) by (auto; lia). cbn [bind fst].
      apply IH. apply fft_ok_after_do; [lia|assumption|].
      destruct H1 as [Hwf Hl]; red in Hwf; lia.
    + rewrite (aubio_fft_rdo_spec c E N) by (auto; lia). cbn [bind fst].
      apply IH. apply fft_ok_after_rdo; [lia|assumption].
Qed.

(** The polar spectrum written by a forward transform does not depend on
    what the packed vector of the object held before. *)
Lemma polar_of_do_packed c E N s1 s2 x :
  0 < N -> polar_of (do_packed c E N s1 x) N = polar_of (do_packed c E N s2 x) N.
Proof.
  intros HN.
  assert (Hh : 0 <= N / 2 < N)
    by (split; [apply Z.div_pos; lia|apply Z.div_lt; lia]).
  unfold polar_of. f_equal; apply ztab_ext; intros k Hk;
    unfold norm_at, phas_at, do_packed;
    destruct (Z.eqb_spec k (N / 2)); try (rewrite !dget_ztab by lia);
    unfold do_complex_at; destruct c; try reflexivity.
  - rewrite !(proj2 (Z.leb_le _ _)) by lia; reflexivity.
  - destruct (Z.eqb_spec k 0).
    + rewrite !dget_ztab by lia.
      rewrite !(proj2 (Z.leb_le _ _)) by lia; reflexivity.
    + rewrite !dget_ztab by lia.
      rewrite !(proj2 (Z.leb_le k _)) by lia.
      destruct (Z.leb_spec (N - k) (N / 2)); [reflexivity|].
      rewrite !(proj2 (Z.ltb_lt _ _)) by lia. reflexivity.
  - destruct (Z.eqb_spec k 0); rewrite !dget_ztab by lia; reflexivity.
  - rewrite !(proj2 (Z.leb_le _ _)) by lia; reflexivity.
  - destruct (Z.eqb_spec k 0).
    + rewrite !dget_ztab by lia.
      rewrite !(proj2 (Z.leb_le _ _)) by lia; reflexivity.
    + rewrite !dget_ztab by lia.
      rewrite !(proj2 (Z.leb_le k _)) by lia.
      destruct (Z.leb_spec (N - k) (N / 2)); [reflexivity|].
      rewrite !(proj2 (Z.ltb_lt _ _)) by lia. reflexivity.
  - destruct (Z.eqb_spec k 0); rewrite !dget_ztab by lia; reflexivity.
Qed.

(** ** Concrete inputs *)

(** A window size the conversions are written for: even, and a [uint_t]. *)
Definition even_window (N : Z) : Prop :=
  0 < N < uint_modulus /\ Z.even N = true.

Definition example_packed : fvec_t := mk_fvec 4 [1; 2; 3; 4]%R.
Definition example_frame : fvec_t := mk_fvec 4 [1; 0; 0; 0]%R.
Definition example_spectrum : cvec_t := new_cvec 4.
Definition example_output : fvec_t := new_fvec 4.
Definition example_fft : aubio_fft_t := new_object true dft_engine 4.

(** A frame of three samples and the buffers that go with it. *)
Definition odd_frame : fvec_t := mk_fvec 3 [0; 1; 0]%R.
Definition odd_spectrum : cvec_t := new_cvec 3.
Definition odd_output : fvec_t := new_fvec 3.
Definition odd_fft : aubio_fft_t := new_object true dft_engine 3.

Lemma even_window_half N : even_window N -> N = 2 * (N / 2) /\ 1 <= N / 2.
Proof.
  intros [HN Hev]. rewrite Z.even_spec in Hev. destruct Hev as [m ->].
  rewrite (Z.mul_comm 2 m), Z.div_mul by lia. lia.
Qed.

(** * The claims *)

(** C3. Interior bins of the forward conversion: for a packed vector of even
    length [N] and a bin [k] with [1 <= k < N/2], the conversion to the polar
    spectrum runs and leaves [norm[k] = sqrt (packed[k]^2 + packed[N-k]^2)]
    and [phas[k] = atan2 (packed[N-k], packed[k])], the imaginary component
    being the first argument of [atan2]. *)
Theorem interior_bins_forward N compspec spectrum k :
  even_window N -> packed_ok N compspec -> polar_ok N spectrum ->
  1 <= k < N / 2 ->
  exists sp re im,
    aubio_fft_get_spectrum compspec spectrum = Some sp /\
    aget (data compspec) k = Some re /\
    aget (data compspec) (N - k) = Some im /\
    aget (norm sp) k = Some (sqrt (re * re + im * im)) /\
    aget (phas sp) k = Some (ATAN2 im re).
Proof.
  intros [HN Hev] Hc Hs Hk.
  pose proof Hc as [Hwf Hlen]. red in Hwf.
  exists (polar_of (data compspec) N),
    (dget (data compspec) k), (dget (data compspec) (N - k)).
  split; [now apply aubio_fft_get_spectrum_spec|].
  split; [apply aget_dget; lia|].
  split; [apply aget_dget; lia|].
  unfold polar_of; cbn [norm phas].
  rewrite !aget_ztab by lia. unfold norm_at, phas_at.
  destruct (Z.eqb_spec k (N / 2)); [lia|].
  destruct (Z.eqb_spec k 0); [lia|].
  split; reflexivity.
Qed.

Lemma interior_bins_forward_witness :
  exists sp re im,
    aubio_fft_get_spectrum example_packed example_spectrum = Some sp /\
    aget (data example_packed) 1 = Some re /\
    aget (data example_packed) (4 - 1) = Some im /\
    aget (norm sp) 1 = Some (sqrt (re * re + im * im)) /\
    aget (phas sp) 1 = Some (ATAN2 im re).
Proof.
  apply (interior_bins_forward 4 example_packed example_spectrum 1).
  - split; [split|]; reflexivity.
  - split; reflexivity.
  - split; [split|]; reflexivity.
  - split; [discriminate|reflexivity].
Defined.

(** C4. DC and Nyquist bins of the forward conversion: for a packed vector of
    even length [N], [norm[0] = |packed[0]|], [norm[N/2] = |packed[N/2]|],
    [phas[0]] and [phas[N/2]] are each [0] or [PI], and each is [PI] exactly
    when the packed entry it comes from is negative. *)
Theorem dc_nyquist_forward N compspec spectrum :
  even_window N -> packed_ok N compspec -> polar_ok N spectrum ->
  exists sp d0 dn p0 pn,
    aubio_fft_get_spectrum compspec spectrum = Some sp /\
    aget (data compspec) 0 = Some d0 /\
    aget (data compspec) (N / 2) = Some dn /\
    aget (norm sp) 0 = Some (Rabs d0) /\
    aget (norm sp) (N / 2) = Some (Rabs dn) /\
    aget (phas sp) 0 = Some p0 /\
    aget (phas sp) (N / 2) = Some pn /\
    (p0 = 0%R \/ p0 = PI) /\ (p0 = PI <-> (d0 < 0)%R) /\
    (pn = 0%R \/ pn = PI) /\ (pn = PI <-> (dn < 0)%R).
Proof.
  intros Hw Hc Hs.
  destruct (even_window_half N Hw) as [H2 Hhalf]. destruct Hw as [HN Hev].
  pose proof Hc as [Hwf Hlen]. red in Hwf.
  assert (Hsign : forall x, (sign_phas x = 0%R \/ sign_phas x = PI) /\
                            (sign_phas x = PI <-> (x < 0)%R)).
  { intros x. pose proof PI_RGT_0. unfold sign_phas.
    destruct (Rlt_dec x 0); split; auto; split; intros; auto; lra. }
  exists (polar_of (data compspec) N),
    (dget (data compspec) 0), (dget (data compspec) (N / 2)),
    (sign_phas (dget (data compspec) 0)),
    (sign_phas (dget (data compspec) (N / 2))).
  split; [now apply aubio_fft_get_spectrum_spec|].
  split; [apply aget_dget; lia|].
  split; [apply aget_dget; lia|].
  unfold polar_of; cbn [norm phas].
  rewrite !aget_ztab by lia. unfold norm_at, phas_at.
  rewrite !Z.eqb_refl.
  destruct (Z.eqb_spec 0 (N / 2)); [lia|].
  repeat split; try reflexivity; try apply Hsign.
Qed.

Lemma dc_nyquist_forward_witness :
  exists sp d0 dn p0 pn,
    aubio_fft_get_spectrum example_packed example_spectrum = Some sp /\
    aget (data example_packed) 0 = Some d0 /\
    aget (data example_packed) (4 / 2) = Some dn /\
    aget (norm sp) 0 = Some (Rabs d0) /\
    aget (norm sp) (4 / 2) = Some (Rabs dn) /\
    aget (phas sp) 0 = Some p0 /\
    aget (phas sp) (4 / 2) = Some pn /\
    (p0 = 0%R \/ p0 = PI) /\ (p0 = PI <-> (d0 < 0)%R) /\
    (pn = 0%R \/ pn = PI) /\ (pn = PI <-> (dn < 0)%R).
Proof.
  apply (dc_nyquist_forward 4 example_packed example_spectrum).
  - split; [split|]; reflexivity.
  - split; reflexivity.
  - split; [split|]; reflexivity.
Defined.

(** C5. Writes of the inverse conversion: for a polar spectrum of [N/2 + 1]
    bins over an even [N], [aubio_fft_get_imag] runs, sets
    [packed[N-k] = norm[k] * sin (phas[k])] for [1 <= k < (N+1)/2] and leaves
    the entries [0 .. N/2] as they were; [aubio_fft_get_real] runs, sets
    [packed[k] = norm[k] * cos (phas[k])] for [0 <= k <= N/2] and leaves the
    entries above [N/2] as they were.  Neither changes the length of the
    packed vector. *)
Theorem inverse_conversion_writes N spectrum compspec :
  even_window N -> polar_ok N spectrum -> packed_ok N compspec ->
  (exists c1,
     aubio_fft_get_imag spectrum compspec = Some c1 /\
     packed_ok N c1 /\
     (forall k nk pk, 1 <= k < (N + 1) / 2 ->
        aget (norm spectrum) k = Some nk -> aget (phas spectrum) k = Some pk ->
        aget (data c1) (N - k) = Some (nk * sin pk)%R) /\
     (forall i, 0 <= i <= N / 2 ->
        aget (data c1) i = aget (data compspec) i)) /\
  (exists c2,
     aubio_fft_get_real spectrum compspec = Some c2 /\
     packed_ok N c2 /\
     (forall k nk pk, 0 <= k <= N / 2 ->
        aget (norm spectrum) k = Some nk -> aget (phas spectrum) k = Some pk ->
        aget (data c2) k = Some (nk * cos pk)%R) /\
     (forall i, N / 2 < i < N ->
        aget (data c2) i = aget (data compspec) i)).
Proof.
  intros Hw Hs Hc.
  destruct (even_window_half N Hw) as [H2 Hhalf]. destruct Hw as [HN Hev].
  pose proof Hc as [Hwf Hlen]. pose proof Hs as [[Hn Hp] Hsl].
  red in Hwf. split.
  - eexists. split.
    { apply (aubio_fft_get_imag_spec N); auto; [split; assumption|uint_lia]. }
    split; [apply packed_ok_ztab; assumption|].
    cbn [data set_data]. split.
    + intros k nk pk Hk Hnk Hpk.
      rewrite aget_dget in Hnk, Hpk by lia.
      injection Hnk as <-; injection Hpk as <-.
      rewrite aget_ztab by lia. unfold imag_at.
      rewrite (proj2 (Z.ltb_lt _ _)) by lia.
      replace (N - (N - k)) with k by lia. reflexivity.
    + intros i Hi. rewrite aget_ztab by lia. unfold imag_at.
      rewrite (proj2 (Z.ltb_ge _ _)) by lia.
      symmetry; apply aget_dget; lia.
  - eexists. split.
    { apply (aubio_fft_get_real_spec N); auto. split; assumption. }
    split; [apply packed_ok_ztab; assumption|].
    cbn [data set_data]. split.
    + intros k nk pk Hk Hnk Hpk.
      rewrite aget_dget in Hnk, Hpk by lia.
      injection Hnk as <-; injection Hpk as <-.
      rewrite aget_ztab by lia. unfold real_at.
      rewrite (proj2 (Z.leb_le _ _)) by lia. reflexivity.
    + intros i Hi. rewrite aget_ztab by lia. unfold real_at.
      rewrite (proj2 (Z.leb_gt _ _)) by lia.
      symmetry; apply aget_dget; lia.
Qed.

Lemma inverse_conversion_writes_witness :
  (exists c1,
     aubio_fft_get_imag example_spectrum example_packed = Some c1 /\
     packed_ok 4 c1 /\
     (forall k nk pk, 1 <= k < (4 + 1) / 2 ->
        aget (norm example_spectrum) k = Some nk ->
        aget (phas example_spectrum) k = Some pk ->
        aget (data c1) (4 - k) = Some (nk * sin pk)%R) /\
     (forall i, 0 <= i <= 4 / 2 ->
        aget (data c1) i = aget (data example_packed) i)) /\
  (exists c2,
     aubio_fft_get_real example_spectrum example_packed = Some c2 /\
     packed_ok 4 c2 /\
     (forall k nk pk, 0 <= k <= 4 / 2 ->
        aget (norm example_spectrum) k = Some nk ->
        aget (phas example_spectrum) k = Some pk ->
        aget (data c2) k = Some (nk * cos pk)%R) /\
     (forall i, 4 / 2 < i < 4 ->
        aget (data c2) i = aget (data example_packed) i)).
Proof.
  apply (inverse_conversion_writes 4 example_spectrum example_packed).
  - split; [split|]; reflexivity.
  - split; [split|]; reflexivity.
  - split; reflexivity.
Defined.

(** C10. Range of the phases: every entry of [phas] written by
    [aubio_fft_get_phas] lies in [[-PI, PI]]: the two boundary bins are [0]
    or [PI], an interior bin is an [atan2], and an interior bin whose two
    packed components are zero gets the phase [0]. *)
Theorem phase_range N compspec spectrum :
  0 < N < uint_modulus -> packed_ok N compspec -> polar_ok N spectrum ->
  exists sp,
    aubio_fft_get_phas compspec spectrum = Some sp /\
    Z.of_nat (length (phas sp)) = N / 2 + 1 /\
    (forall k p, aget (phas sp) k = Some p -> (- PI <= p <= PI)%R) /\
    (forall k p, k = 0 \/ k = N / 2 ->
       aget (phas sp) k = Some p -> p = 0%R \/ p = PI) /\
    (forall k, 1 <= k < N / 2 ->
       aget (phas sp) k =
       Some (ATAN2 (dget (data compspec) (N - k)) (dget (data compspec) k))) /\
    (forall k, 1 <= k < N / 2 ->
       aget (data compspec) k = Some 0%R ->
       aget (data compspec) (N - k) = Some 0%R ->
       aget (phas sp) k = Some 0%R).
Proof.
  intros HN Hc Hs.
  pose proof Hc as [Hwf Hlen]. pose proof Hs as [Hswf Hsl]. red in Hwf.
  assert (Hh : 0 <= N / 2 < N)
    by (split; [apply Z.div_pos; lia|apply Z.div_lt; lia]).
  eexists. split; [apply (aubio_fft_get_phas_spec N); assumption|].
  cbn [phas set_phas].
  split; [rewrite length_ztab; lia|].
  assert (Hint : forall k, 1 <= k < N / 2 ->
     aget (ztab (N / 2 + 1) (phas_at (data compspec) N)) k =
     Some (ATAN2 (dget (data compspec) (N - k)) (dget (data compspec) k))).
  { intros k Hk. rewrite aget_ztab by lia. unfold phas_at.
    destruct (Z.eqb_spec k (N / 2)); [lia|].
    destruct (Z.eqb_spec k 0); [lia|]. reflexivity. }
  split; [|split; [|split]].
  - intros k p Hk.
    assert (Hr : 0 <= k < N / 2 + 1).
    { apply aget_Some_in in Hk. rewrite length_ztab in Hk. lia. }
    rewrite aget_ztab in Hk by assumption. injection Hk as <-.
    unfold phas_at.
    destruct (k =? N / 2); [apply sign_phas_bound|].
    destruct (k =? 0); [apply sign_phas_bound|apply ATAN2_bound].
  - intros k p Hk Hp.
    rewrite aget_ztab in Hp by lia. injection Hp as <-.
    unfold phas_at, sign_phas.
    destruct (Z.eqb_spec k (N / 2)).
    + destruct (Rlt_dec _ 0); auto.
    + destruct (Z.eqb_spec k 0); [|lia]. destruct (Rlt_dec _ 0); auto.
  - exact Hint.
  - intros k Hk Hre Him. rewrite Hint by assumption.
    rewrite aget_dget in Hre, Him by lia.
    injection Hre as ->; injection Him as ->.
    now rewrite ATAN2_origin.
Qed.

Lemma phase_range_witness :
  exists sp,
    aubio_fft_get_phas example_packed example_spectrum = Some sp /\
    Z.of_nat (length (phas sp)) = 4 / 2 + 1 /\
    (forall k p, aget (phas sp) k = Some p -> (- PI <= p <= PI)%R) /\
    (forall k p, k = 0 \/ k = 4 / 2 ->
       aget (phas sp) k = Some p -> p = 0%R \/ p = PI) /\
    (forall k, 1 <= k < 4 / 2 ->
       aget (phas sp) k =
       Some (ATAN2 (dget (data example_packed) (4 - k))
               (dget (data example_packed) k))) /\
    (forall k, 1 <= k < 4 / 2 ->
       aget (data example_packed) k = Some 0%R ->
       aget (data example_packed) (4 - k) = Some 0%R ->
       aget (phas sp) k = Some 0%R).
Proof.
  apply (phase_range 4 example_packed example_spectrum).
  - split; reflexivity.
  - split; reflexivity.
  - split; [split|]; reflexivity.
Defined.

(** C2. Packed to polar to packed: for a packed vector [c] of even length
    [N], [aubio_fft_get_spectrum] followed by [aubio_fft_get_realimag] (into
    any packed buffer of length [N]) gives [c] back; bin by bin,
    [norm[k] * cos (phas[k])] is the packed real part [c[k]] for
    [0 <= k <= N/2] and [norm[k] * sin (phas[k])] is the packed imaginary
    part [c[N-k]] for [1 <= k < N/2]. *)
Theorem packed_polar_packed N compspec spectrum target :
  even_window N -> packed_ok N compspec -> polar_ok N spectrum ->
  packed_ok N target ->
  exists sp c',
    aubio_fft_get_spectrum compspec spectrum = Some sp /\
    aubio_fft_get_realimag sp target = Some c' /\
    data c' = data compspec /\
    (forall k, 0 <= k <= N / 2 ->
       exists nk pk re,
         aget (norm sp) k = Some nk /\ aget (phas sp) k = Some pk /\
         aget (data compspec) k = Some re /\ (nk * cos pk)%R = re) /\
    (forall k, 1 <= k < N / 2 ->
       exists nk pk im,
         aget (norm sp) k = Some nk /\ aget (phas sp) k = Some pk /\
         aget (data compspec) (N - k) = Some im /\ (nk * sin pk)%R = im).
Proof.
  intros Hw Hc Hs Ht.
  destruct (even_window_half N Hw) as [H2 Hhalf]. destruct Hw as [HN Hev].
  pose proof Hc as [Hwf Hlen]. red in Hwf.
  exists (polar_of (data compspec) N),
    (set_data target (rdo_packed N (polar_of (data compspec) N))).
  split; [now apply aubio_fft_get_spectrum_spec|].
  split.
  { apply aubio_fft_get_realimag_spec; auto; try lia; try uint_lia.
    apply polar_of_ok; lia. }
  split.
  { cbn [data set_data]. apply rdo_packed_polar_of; auto; lia. }
  unfold polar_of; cbn [norm phas]. split.
  - intros k Hk. do 3 eexists.
    rewrite !aget_ztab by lia.
    split; [reflexivity|]. split; [reflexivity|].
    split; [apply aget_dget; lia|]. apply polar_real_part.
  - intros k Hk. do 3 eexists.
    rewrite !aget_ztab by lia.
    split; [reflexivity|]. split; [reflexivity|].
    split; [apply aget_dget; lia|]. apply polar_imag_part; lia.
Qed.

Lemma packed_polar_packed_witness :
  exists sp c',
    aubio_fft_get_spectrum example_packed example_spectrum = Some sp /\
    aubio_fft_get_realimag sp example_output = Some c' /\
    data c' = data example_packed /\
    (forall k, 0 <= k <= 4 / 2 ->
       exists nk pk re,
         aget (norm sp) k = Some nk /\ aget (phas sp) k = Some pk /\
         aget (data example_packed) k = Some re /\ (nk * cos pk)%R = re) /\
    (forall k, 1 <= k < 4 / 2 ->
       exists nk pk im,
         aget (norm sp) k = Some nk /\ aget (phas sp) k = Some pk /\
         aget (data example_packed) (4 - k) = Some im /\
         (nk * sin pk)%R = im).
Proof.
  apply (packed_polar_packed 4 example_packed example_spectrum example_output).
  - split; [split|]; reflexivity.
  - split; reflexivity.
  - split; [split|]; reflexivity.
  - split; reflexivity.
Defined.

(** C6. Normalisation, for every window size [0 < N < 2^32], every engine
    and both builds.  [aubio_fft_do_complex] leaves the output of the forward
    plan in [specdata] and stores it in the packed vector as it is, with no
    factor: on the build with complex.h entry [i <= N/2] is the real part of
    bin [i], entry [i > N/2] with [N - i < N/2] is the imaginary part of bin
    [N - i], and any other entry (there is one only for an odd [N]) is left
    as it was; on the build without complex.h entry [i] is entry [i] of the
    plan's output.  [aubio_fft_rdo_complex] runs the backward plan on the
    packed vector and writes, for every sample, the output of that plan times
    [1/N], [N] being the [winsize] of the object. *)
Theorem normalization_asymmetry c E N s input cs output :
  0 < N < uint_modulus -> fft_ok c N s ->
  packed_ok N input -> packed_ok N cs -> packed_ok N output ->
  (exists s1 cs1,
     aubio_fft_do_complex c E s input cs = Some (s1, cs1) /\
     specdata s1 = forward_data c E N (data input) /\
     (forall i, 0 <= i < N ->
        aget (data cs1) i =
        if c then
          if i <=? N / 2 then Some (REAL (fftw_r2c E N (data input) i))
          else if N - i <? N / 2
               then Some (IMAG (fftw_r2c E N (data input) (N - i)))
               else aget (data cs) i
        else Some (fftw_r2hc E N (data input) i)) /\
     (Z.even N = true ->
      forall i, 0 <= i < N ->
        aget (data cs1) i =
        Some (if c then pack_complex N (fftw_r2c E N (data input)) i
              else fftw_r2hc E N (data input) i))) /\
  (exists s2 o2,
     aubio_fft_rdo_complex c E s cs output = Some (s2, o2) /\
     winsize s2 = N /\
     specdata s2 = backward_data c N (data cs) /\
     out s2 = backward_out c E N (data cs) /\
     fvec_length o2 = N /\
     (forall j, 0 <= j < N ->
        exists y, aget (out s2) j = Some y /\
                  aget (data o2) j = Some (y * (1 / IZR N))%R)).
Proof.
  intros HN Hs Hi Hc Ho.
  assert (Hh : 0 <= N / 2 < N)
    by (split; [apply Z.div_pos; lia|apply Z.div_lt; lia]).
  pose proof Hc as [Hcwf Hclen]. red in Hcwf.
  split.
  - do 2 eexists. split; [now apply (aubio_fft_do_complex_spec c E N)|].
    split; [reflexivity|]. cbn [data set_data]. split.
    + intros i Hr. rewrite aget_ztab by assumption.
      unfold do_complex_at. destruct c; [|reflexivity].
      destruct (i <=? N / 2); [reflexivity|].
      destruct (N - i <? N / 2); [reflexivity|].
      symmetry; apply aget_dget; lia.
    + intros Hev i Hr.
      assert (H2 : N = 2 * (N / 2)).
      { rewrite Z.even_spec in Hev. destruct Hev as [m Hm]. lia. }
      rewrite aget_ztab by assumption.
      unfold do_complex_at, pack_complex. destruct c; [|reflexivity].
      destruct (Z.leb_spec i (N / 2)); [reflexivity|].
      rewrite (proj2 (Z.ltb_lt _ _)) by lia. reflexivity.
  - do 2 eexists. split; [now apply (aubio_fft_rdo_complex_spec c E N)|].
    split; [apply Hs|]. split; [reflexivity|]. split; [reflexivity|].
    split; [apply Ho|].
    intros j Hj. cbn [out set_out data set_data].
    exists (dget (backward_out c E N (data cs)) j). split.
    + apply aget_dget. unfold backward_out. rewrite length_ztab; lia.
    + now rewrite aget_ztab by assumption.
Qed.

Lemma normalization_asymmetry_witness :
  (exists s1 cs1,
     aubio_fft_do_complex true dft_engine odd_fft odd_frame odd_frame
       = Some (s1, cs1) /\
     specdata s1 = forward_data true dft_engine 3 (data odd_frame) /\
     (forall i, 0 <= i < 3 ->
        aget (data cs1) i =
        if true then
          if i <=? 3 / 2
          then Some (REAL (fftw_r2c dft_engine 3 (data odd_frame) i))
          else if 3 - i <? 3 / 2
               then Some (IMAG (fftw_r2c dft_engine 3 (data odd_frame)
                                  (3 - i)))
               else aget (data odd_frame) i
        else Some (fftw_r2hc dft_engine 3 (data odd_frame) i)) /\
     (Z.even 3 = true ->
      forall i, 0 <= i < 3 ->
        aget (data cs1) i =
        Some (if true
              then pack_complex 3 (fftw_r2c dft_engine 3 (data odd_frame)) i
              else fftw_r2hc dft_engine 3 (data odd_frame) i))) /\
  (exists s2 o2,
     aubio_fft_rdo_complex true dft_engine odd_fft odd_frame odd_output
       = Some (s2, o2) /\
     winsize s2 = 3 /\
     specdata s2 = backward_data true 3 (data odd_frame) /\
     out s2 = backward_out true dft_engine 3 (data odd_frame) /\
     fvec_length o2 = 3 /\
     (forall j, 0 <= j < 3 ->
        exists y, aget (out s2) j = Some y /\
                  aget (data o2) j = Some (y * (1 / IZR 3))%R)).
Proof.
  apply (normalization_asymmetry true dft_engine 3 odd_fft odd_frame
           odd_frame odd_output).
  - split; reflexivity.
  - repeat split; try reflexivity.
    eexists; split; reflexivity.
  - split; reflexivity.
  - split; reflexivity.
  - split; reflexivity.
Defined.

(** C7, as the code has it.  [new_aubio_fft] checks nothing: for every
    window size it returns an object, with the plan handles the planner gave.
    When the planner rejects the size these handles are null, and neither
    transform has a defined behaviour on the object returned. *)
Theorem construction_unchecked c E N :
  0 <= N < uint_modulus ->
  exists s calls,
    new_aubio_fft c E N = Some (s, calls) /\
    winsize s = N /\
    (fftw_accepts E N = true -> pfw s <> None /\ pbw s <> None) /\
    (fftw_accepts E N = false ->
       pfw s = None /\ pbw s = None /\
       (forall input spectrum, aubio_fft_do c E s input spectrum = None) /\
       (forall spectrum output, aubio_fft_rdo c E s spectrum output = None)).
Proof.
  intros HN. exists (new_object c E N), (new_calls c N).
  split; [now apply new_aubio_fft_spec|].
  assert (Hplans :
    pfw (new_object c E N)
      = fftw_make_plan E (if c then DFT_R2C else R2HC) N /\
    pbw (new_object c E N)
      = fftw_make_plan E (if c then DFT_C2R else HC2R) N)
    by (unfold new_object; destruct c; split; reflexivity).
  destruct Hplans as [Hf Hb].
  split; [unfold new_object; destruct c; reflexivity|].
  unfold fftw_make_plan in Hf, Hb. split.
  - intros Hacc. rewrite Hf, Hb, Hacc. split; discriminate.
  - intros Hrej. rewrite Hrej in Hf, Hb.
    split; [assumption|]. split; [assumption|]. split.
    + intros; now apply aubio_fft_do_null_plan.
    + intros; now apply aubio_fft_rdo_null_plan.
Qed.

Lemma construction_unchecked_witness :
  exists s calls,
    new_aubio_fft true dft_engine 0 = Some (s, calls) /\
    winsize s = 0 /\
    (fftw_accepts dft_engine 0 = true -> pfw s <> None /\ pbw s <> None) /\
    (fftw_accepts dft_engine 0 = false ->
       pfw s = None /\ pbw s = None /\
       (forall input spectrum,
          aubio_fft_do true dft_engine s input spectrum = None) /\
       (forall spectrum output,
          aubio_fft_rdo true dft_engine s spectrum output = None)).
Proof.
  apply (construction_unchecked true dft_engine 0).
  split; [discriminate|reflexivity].
Defined.

(** C7, as stated, fails: the planner of the engine rejects the window size
    [0], and [new_aubio_fft (0)] still returns an object, whose two plans are
    null. *)
Lemma construction_of_rejected_size :
  fftw_accepts dft_engine 0 = false /\
  exists calls,
    new_aubio_fft true dft_engine 0
    = Some (new_object true dft_engine 0, calls) /\
    pfw (new_object true dft_engine 0) = None /\
    pbw (new_object true dft_engine 0) = None.
Proof.
  split; [reflexivity|].
  exists (new_calls true 0). split.
  - apply new_aubio_fft_spec. split; [discriminate|reflexivity].
  - split; reflexivity.
Qed.

(** C8, on the code.  [del_aubio_fft] destroys the two plans of the object
    and never takes the mutex: its calls to the planner are not guarded,
    whereas those of [new_aubio_fft] are. *)
Theorem destruction_not_guarded c E N s :
  0 <= N < uint_modulus ->
  plans_destroyed (del_aubio_fft s) = 2%nat /\
  planner_guarded (del_aubio_fft s) = false /\
  ~ In Call.pthread_mutex_lock (del_aubio_fft s) /\
  exists s' calls,
    new_aubio_fft c E N = Some (s', calls) /\ planner_guarded calls = true.
Proof.
  intros HN. split; [reflexivity|]. split; [reflexivity|]. split.
  - cbn. intros H.
    repeat match type of H with
           | _ \/ _ => destruct H as [H|H]
           end; try discriminate H; exact H.
  - exists (new_object c E N), (new_calls c N).
    split; [now apply new_aubio_fft_spec|reflexivity].
Qed.

Lemma destruction_not_guarded_witness :
  plans_destroyed (del_aubio_fft example_fft) = 2%nat /\
  planner_guarded (del_aubio_fft example_fft) = false /\
  ~ In Call.pthread_mutex_lock (del_aubio_fft example_fft) /\
  exists s' calls,
    new_aubio_fft true dft_engine 4 = Some (s', calls) /\
    planner_guarded calls = true.
Proof.
  apply (destruction_not_guarded true dft_engine 4 example_fft).
  split; [discriminate|reflexivity].
Defined.

(** The polar spectrum of a frame [x], as a function of the build, the
    engine, the window size and [x] alone. *)
Definition do_result (c : bool) (E : fftw_engine) (N : Z) (x : list R)
  : cvec_t :=
  polar_of (ztab N (do_complex_at c E N x [])) N.

Lemma polar_of_do_result c E N s x :
  0 < N -> polar_of (do_packed c E N s x) N = do_result c E N x.
Proof.
  intros HN.
  apply (polar_of_do_packed c E N s
           (set_compspec s (mk_fvec N [])) x HN).
Qed.

(** C9. No influence of residual state: whatever requests an object has
    served before, [aubio_fft_do] runs and writes a spectrum that is a
    function of the input frame alone, and [aubio_fft_rdo] runs and writes a
    frame that is a function of the input spectrum alone; so two calls with
    the same arguments after two different histories give the same result. *)
Theorem no_residual_state c E N s h1 h2 input spectrum polar output :
  0 < N -> N + 1 < uint_modulus ->
  fft_ok c N s ->
  Forall (request_ok N) h1 -> Forall (request_ok N) h2 ->
  packed_ok N input -> polar_ok N spectrum ->
  polar_ok N polar -> packed_ok N output ->
  exists s1 s2,
    serve c E s h1 = Some s1 /\ serve c E s h2 = Some s2 /\
    (exists s1' s2' r,
       aubio_fft_do c E s1 input spectrum = Some (s1', r) /\
       aubio_fft_do c E s2 input spectrum = Some (s2', r) /\
       r = do_result c E N (data input)) /\
    (exists s1' s2' r,
       aubio_fft_rdo c E s1 polar output = Some (s1', r) /\
       aubio_fft_rdo c E s2 polar output = Some (s2', r) /\
       r = set_data output (rdo_frame c E N polar)).
Proof.
  intros HN HN1 Hs Hh1 Hh2 Hi Hsp Hp Ho.
  destruct (serve_ok c E N s h1 HN HN1 Hs Hh1) as (s1 & Hs1 & Hok1).
  destruct (serve_ok c E N s h2 HN HN1 Hs Hh2) as (s2 & Hs2 & Hok2).
  assert (HN' : 0 < N < uint_modulus) by lia.
  exists s1, s2. split; [assumption|]. split; [assumption|]. split.
  - exists (after_do c E N s1 (data input)),
      (after_do c E N s2 (data input)), (do_result c E N (data input)).
    rewrite !(aubio_fft_do_spec c E N) by assumption.
    rewrite !polar_of_do_result by assumption. auto.
  - exists (after_rdo c E N s1 polar), (after_rdo c E N s2 polar),
      (set_data output (rdo_frame c E N polar)).
    rewrite !(aubio_fft_rdo_spec c E N) by assumption. auto.
Qed.

Lemma no_residual_state_witness :
  exists s1 s2,
    serve true dft_engine example_fft [] = Some s1 /\
    serve true dft_engine example_fft
      [Forward example_frame example_spectrum;
       Inverse example_spectrum example_output] = Some s2 /\
    (exists s1' s2' r,
       aubio_fft_do true dft_engine s1 example_frame example_spectrum
         = Some (s1', r) /\
       aubio_fft_do true dft_engine s2 example_frame example_spectrum
         = Some (s2', r) /\
       r = do_result true dft_engine 4 (data example_frame)) /\
    (exists s1' s2' r,
       aubio_fft_rdo true dft_engine s1 example_spectrum example_output
         = Some (s1', r) /\
       aubio_fft_rdo true dft_engine s2 example_spectrum example_output
         = Some (s2', r) /\
       r = set_data example_output
             (rdo_frame true dft_engine 4 example_spectrum)).
Proof.
  apply (no_residual_state true dft_engine 4 example_fft []
           [Forward example_frame example_spectrum;
            Inverse example_spectrum example_output]
           example_frame example_spectrum example_spectrum example_output).
  - reflexivity.
  - reflexivity.
  - repeat split; try reflexivity. eexists; split; reflexivity.
  - constructor.
  - repeat constructor.
  - split; reflexivity.
  - split; [split|]; reflexivity.
  - split; [split|]; reflexivity.
  - split; reflexivity.
Defined.

(** ** The exact transform inverts itself, up to the factor [N] *)

Section Inversion.

Local Open Scope R_scope.

Lemma rsum_ext n f g :
  (forall i, (i < n)%nat -> f i = g i) -> rsum n f = rsum n g.
Proof.
  induction n as [|n IH]; intros H; cbn; [reflexivity|].
  rewrite IH, H by auto with arith. reflexivity.
Qed.

Lemma rsum_plus n f g :
  rsum n (fun i => f i + g i) = rsum n f + rsum n g.
Proof.
  induction n as [|n IH]; cbn; [ring|]. rewrite IH; ring.
Qed.

Lemma rsum_scal n a f : rsum n (fun i => a * f i) = a * rsum n f.
Proof.
  induction n as [|n IH]; cbn; [ring|]. rewrite IH; ring.
Qed.

Lemma rsum_const n a : rsum n (fun _ => a) = INR n * a.
Proof.
  induction n as [|n IH]; [cbn; ring|].
  cbn [rsum]. rewrite IH, S_INR. ring.
Qed.

Lemma rsum_zero n f : (forall i, (i < n)%nat -> f i = 0) -> rsum n f = 0.
Proof.
  intros H. rewrite (rsum_ext n f (fun _ => 0) H), rsum_const. ring.
Qed.

Lemma rsum_swap n m (f : nat -> nat -> R) :
  rsum n (fun i => rsum m (fun j => f i j))
  = rsum m (fun j => rsum n (fun i => f i j)).
Proof.
  induction n as [|n IH]; cbn [rsum].
  - symmetry; apply rsum_zero; reflexivity.
  - rewrite IH, <- rsum_plus. reflexivity.
Qed.

(** A sum with a single non-zero term. *)
Lemma rsum_single n m f :
  (m < n)%nat -> (forall i, (i < n)%nat -> i <> m -> f i = 0) ->
  rsum n f = f m.
Proof.
  induction n as [|n IH]; intros Hm H; [lia|].
  cbn [rsum]. destruct (Nat.eq_dec m n) as [->|Hne].
  - rewrite rsum_zero; [ring|]. intros i Hi; apply H; lia.
  - rewrite IH, (H n) by (auto; lia). ring.
Qed.

(** The telescoping sum behind the Dirichlet kernel. *)
Lemma dirichlet_kernel p phi :
  sin (phi / 2)
  * (1 + rsum p (fun k => 2 * cos (IZR (Z.of_nat k + 1) * phi)))
  = sin ((INR p + 1 / 2) * phi).
Proof.
  induction p as [|p IH].
  - cbn [rsum INR]. replace ((0 + 1 / 2) * phi) with (phi / 2) by field.
    ring.
  - cbn [rsum]. rewrite S_INR.
    replace (sin (phi / 2) * (1 + (rsum p (fun k => 2 * cos (IZR (Z.of_nat k + 1) * phi))
                             + 2 * cos (IZR (Z.of_nat p + 1) * phi))))
      with (sin (phi / 2)
            * (1 + rsum p (fun k => 2 * cos (IZR (Z.of_nat k + 1) * phi)))
            + 2 * sin (phi / 2) * cos (IZR (Z.of_nat p + 1) * phi)) by ring.
    rewrite IH, plus_IZR, <- INR_IZR_INZ. cbn [IZR IPR].
    replace ((INR p + 1 + 1 / 2) * phi)
      with ((INR p + 1) * phi + phi / 2) by field.
    replace ((INR p + 1 / 2) * phi)
      with ((INR p + 1) * phi - phi / 2) by field.
    rewrite sin_plus, sin_minus. ring.
Qed.

Lemma turn_mul n a b : turn n (a * b) = IZR a * turn n b.
Proof. unfold turn. rewrite mult_IZR. unfold Rdiv. ring. Qed.

Lemma turn_minus n a b : turn n (a - b) = turn n a - turn n b.
Proof. unfold turn. rewrite minus_IZR. unfold Rdiv. ring. Qed.

Lemma turn_zero n : turn n 0 = 0.
Proof. unfold turn, Rdiv. ring. Qed.

(** Half a turn per unit: [turn (2 M) (M * a) = a * PI]. *)
Lemma turn_half M a : (1 <= M)%Z -> turn (2 * M) (M * a) = IZR a * PI.
Proof.
  intros HM. unfold turn. rewrite !mult_IZR.
  assert (IZR M <> 0) by (apply not_0_IZR; lia).
  field. assumption.
Qed.

Lemma sin_int_PI a : sin (IZR a * PI) = 0.
Proof. apply sin_eq_0_1. now exists a. Qed.

(** The kernel of the inverse transform applied to the forward one: the
    coefficient of [x_j] in sample [m] of the round trip, [d] being
    [j - m]. *)
Definition kernel (n d : Z) : R :=
  1 + rsum (Z.to_nat ((n - 1) / 2))
        (fun k => 2 * cos (IZR (Z.of_nat k + 1) * turn n d))
  + cos (IZR (n / 2) * turn n d).

Lemma kernel_at_zero M : (1 <= M)%Z -> kernel (2 * M) 0 = IZR (2 * M).
Proof.
  intros HM. unfold kernel. rewrite turn_zero.
  rewrite (rsum_ext _ _ (fun _ => 2)).
  2:{ intros i _. rewrite Rmult_0_r, cos_0. ring. }
  rewrite rsum_const, Rmult_0_r, cos_0.
  replace ((2 * M - 1) / 2)%Z with (M - 1)%Z by lia.
  rewrite INR_IZR_INZ, Z2Nat.id by lia.
  rewrite minus_IZR, mult_IZR. ring.
Qed.

Lemma kernel_off_zero M d :
  (1 <= M)%Z -> (d <> 0)%Z -> (- (2 * M) < d < 2 * M)%Z ->
  kernel (2 * M) d = 0.
Proof.
  intros HM Hd Hr. unfold kernel.
  replace ((2 * M - 1) / 2)%Z with (M - 1)%Z by lia.
  replace (2 * M / 2)%Z with M by lia.
  set (phi := turn (2 * M) d).
  assert (HMpos : 0 < IZR M) by (apply IZR_lt; lia).
  assert (Hhalf : phi / 2 = IZR d * PI / IZR (2 * M)).
  { unfold phi, turn. field. apply not_0_IZR; lia. }
  assert (HMphi : IZR M * phi = IZR d * PI).
  { unfold phi. rewrite <- turn_mul. now apply turn_half. }
  assert (Hsin : sin (phi / 2) <> 0).
  { pose proof PI_RGT_0 as HPI.
    assert (Hn : 0 < IZR (2 * M)) by (apply IZR_lt; lia).
    assert (Hlt : - IZR (2 * M) < IZR d < IZR (2 * M)).
    { rewrite <- opp_IZR. split; apply IZR_lt; lia. }
    assert (Hscale : forall a b, a < b ->
              a * PI / IZR (2 * M) < b * PI / IZR (2 * M)).
    { intros a b Hab. unfold Rdiv.
      apply Rmult_lt_compat_r; [now apply Rinv_0_lt_compat|].
      now apply Rmult_lt_compat_r. }
    assert (Hone : IZR (2 * M) * PI / IZR (2 * M) = PI) by (field; lra).
    assert (Hmone : - IZR (2 * M) * PI / IZR (2 * M) = - PI) by (field; lra).
    assert (Hzero : 0 * PI / IZR (2 * M) = 0) by (field; lra).
    pose proof (Hscale _ _ (proj1 Hlt)) as Hlo; rewrite Hmone in Hlo.
    pose proof (Hscale _ _ (proj2 Hlt)) as Hhi; rewrite Hone in Hhi.
    rewrite Hhalf.
    destruct (Z_lt_le_dec 0 d) as [Hpos|Hneg].
    - pose proof (Hscale 0 (IZR d) (IZR_lt 0 d Hpos)) as Hz.
      rewrite Hzero in Hz.
      apply Rgt_not_eq, sin_gt_0; assumption.
    - assert (Hd0 : (d < 0)%Z) by lia.
      pose proof (Hscale (IZR d) 0 (IZR_lt d 0 Hd0)) as Hz.
      rewrite Hzero in Hz.
      apply Rlt_not_eq, sin_lt_0_var; assumption. }
  apply (Rmult_eq_reg_l (sin (phi / 2))); [|assumption].
  rewrite Rmult_0_r, Rmult_plus_distr_l, dirichlet_kernel.
  rewrite INR_IZR_INZ, Z2Nat.id, minus_IZR by lia.
  replace ((IZR M - 1 + 1 / 2) * phi) with (IZR M * phi - phi / 2) by field.
  rewrite sin_minus, HMphi, sin_int_PI. ring.
Qed.

Lemma cos_turn_diff n k j m :
  cos (IZR k * turn n (j - m))
  = cos (turn n (j * k)) * cos (turn n (k * m))
    + sin (turn n (j * k)) * sin (turn n (k * m)).
Proof.
  rewrite <- cos_minus, <- turn_mul, <- turn_minus.
  do 2 f_equal. ring.
Qed.

(** One bin of the forward transform, fed to the inverse one, as a sum over
    the samples. *)
Lemma bin_contribution n (x : list R) k m :
  2 * (REAL (dft_r2c n x k) * cos (turn n (k * m))
       - IMAG (dft_r2c n x k) * sin (turn n (k * m)))
  = rsum (Z.to_nat n)
      (fun j => dget x (Z.of_nat j)
                * (2 * cos (IZR k * turn n (Z.of_nat j - m)))).
Proof.
  unfold dft_r2c; cbn [REAL IMAG fst snd]. symmetry.
  rewrite (rsum_ext _ _ (fun j =>
     (2 * cos (turn n (k * m)))
       * (dget x (Z.of_nat j) * cos (turn n (Z.of_nat j * k)))
     + (2 * sin (turn n (k * m)))
       * (dget x (Z.of_nat j) * sin (turn n (Z.of_nat j * k))))).
  - rewrite rsum_plus, !rsum_scal. ring.
  - intros j _. rewrite cos_turn_diff. ring.
Qed.

(** The inverse transform undoes the forward one up to the factor [n], for
    an even [n = 2 M]; only the real parts of the bins [0] and [M] are
    looked at. *)
Lemma dft_inversion M (x : list R) (X : list fftw_complex) m :
  (1 <= M)%Z -> (0 <= m < 2 * M)%Z ->
  (forall k, (0 <= k <= M)%Z ->
     REAL (nth (Z.to_nat k) X (0, 0)) = REAL (dft_r2c (2 * M) x k)) ->
  (forall k, (1 <= k < M)%Z ->
     IMAG (nth (Z.to_nat k) X (0, 0)) = IMAG (dft_r2c (2 * M) x k)) ->
  dft_c2r (2 * M) X m = IZR (2 * M) * dget x m.
Proof.
  intros HM Hm Hre Him. unfold dft_c2r.
  replace (Z.even (2 * M)) with true
    by (symmetry; apply Z.even_spec; now exists M).
  replace ((2 * M - 1) / 2)%Z with (M - 1)%Z by lia.
  replace (2 * M / 2)%Z with M by lia.
  set (n := (2 * M)%Z) in *.
  (* every part is a sum over the samples *)
  assert (H0 : REAL (nth (Z.to_nat 0) X (0, 0))
     = rsum (Z.to_nat n) (fun j => dget x (Z.of_nat j) * 1)).
  { rewrite Hre by lia. unfold dft_r2c; cbn [REAL fst].
    apply rsum_ext; intros j _.
    now rewrite Z.mul_0_r, turn_zero, cos_0. }
  assert (Hmid : rsum (Z.to_nat (M - 1))
       (fun k' =>
          2 * (REAL (nth (Z.to_nat (Z.of_nat k' + 1)) X (0, 0))
                 * cos (turn n ((Z.of_nat k' + 1) * m))
               - IMAG (nth (Z.to_nat (Z.of_nat k' + 1)) X (0, 0))
                 * sin (turn n ((Z.of_nat k' + 1) * m))))
     = rsum (Z.to_nat n) (fun j => dget x (Z.of_nat j)
         * rsum (Z.to_nat (M - 1)) (fun k' =>
             2 * cos (IZR (Z.of_nat k' + 1) * turn n (Z.of_nat j - m))))).
  { rewrite (rsum_ext _ _ (fun k' =>
       rsum (Z.to_nat n) (fun j => dget x (Z.of_nat j)
         * (2 * cos (IZR (Z.of_nat k' + 1) * turn n (Z.of_nat j - m)))))).
    - rewrite rsum_swap. apply rsum_ext; intros j _.
      now rewrite <- rsum_scal.
    - intros k' Hk'. rewrite Hre, Him by lia. apply bin_contribution. }
  assert (Hnyq : REAL (nth (Z.to_nat M) X (0, 0)) * cos (turn n (M * m))
     = rsum (Z.to_nat n) (fun j => dget x (Z.of_nat j)
         * cos (IZR M * turn n (Z.of_nat j - m)))).
  { rewrite Hre by lia. unfold dft_r2c; cbn [REAL fst].
    rewrite Rmult_comm, <- rsum_scal.
    apply rsum_ext; intros j _.
    rewrite cos_turn_diff.
    replace (turn n (Z.of_nat j * M)) with (IZR (Z.of_nat j) * PI)
      by (symmetry; rewrite Z.mul_comm; now apply turn_half).
    rewrite sin_int_PI. ring. }
  rewrite H0, Hmid, Hnyq, <- !rsum_plus.
  rewrite (rsum_ext _ _ (fun j =>
     dget x (Z.of_nat j) * kernel n (Z.of_nat j - m))).
  2:{ intros j _. unfold kernel.
      replace ((n - 1) / 2)%Z with (M - 1)%Z by lia.
      replace (n / 2)%Z with M by lia. ring. }
  rewrite (rsum_single (Z.to_nat n) (Z.to_nat m)).
  - rewrite Z2Nat.id, Z.sub_diag by lia.
    unfold n. rewrite kernel_at_zero by assumption. ring.
  - lia.
  - intros j Hj Hne. unfold n. rewrite kernel_off_zero by lia. ring.
Qed.

End Inversion.

Lemma nth_ztab {A : Type} n (f : Z -> A) k dflt :
  0 <= k < n -> nth (Z.to_nat k) (ztab n f) dflt = f k.
Proof.
  intros Hk. pose proof (aget_ztab n f k Hk) as H.
  unfold aget in H. destruct (in_bounds (ztab n f) k); [|discriminate].
  now apply nth_error_nth.
Qed.

(** The backward plan of the exact engine, run on the packed vector of the
    forward one, gives [N] times the frame, for an even [N] and both
    builds. *)
Lemma backward_forward c N (x old : list R) m :
  even_window N -> 0 <= m < N ->
  dget (backward_out c dft_engine N
          (ztab N (do_complex_at c dft_engine N x old))) m
  = (IZR N * dget x m)%R.
Proof.
  intros Hw Hm.
  destruct (even_window_half N Hw) as [H2 Hhalf].
  set (M := N / 2) in *.
  unfold backward_out. rewrite dget_ztab by assumption.
  assert (Hdo : forall i, 0 <= i < N ->
            dget (ztab N (do_complex_at c dft_engine N x old)) i
            = if i <=? M then REAL (dft_r2c N x i)
              else IMAG (dft_r2c N x (N - i))).
  { intros i Hi. rewrite dget_ztab by assumption.
    unfold do_complex_at, dft_engine; cbn [fftw_r2c fftw_r2hc].
    fold M. destruct c.
    - destruct (Z.leb_spec i M); [reflexivity|].
      rewrite (proj2 (Z.ltb_lt _ _)) by lia. reflexivity.
    - unfold dft_r2hc. fold M. reflexivity. }
  destruct c; cbn [dft_engine fftw_c2r fftw_hc2r]; unfold dft_hc2r;
    rewrite H2; (apply dft_inversion; [lia|lia| |]); rewrite <- H2.
  - intros k Hk. rewrite nth_ztab by (fold M; lia).
    unfold unpack_complex. fold M.
    destruct ((k =? M) || (k =? 0)); cbn [of_real of_real_imag REAL fst];
      rewrite Hdo by lia; now rewrite (proj2 (Z.leb_le _ _)) by lia.
  - intros k Hk. rewrite nth_ztab by (fold M; lia).
    unfold unpack_complex. fold M.
    destruct (Z.eqb_spec k M); [lia|]. destruct (Z.eqb_spec k 0); [lia|].
    cbn [orb of_real_imag IMAG snd]. rewrite Hdo by lia.
    rewrite (proj2 (Z.leb_gt _ _)) by lia. do 2 f_equal; lia.
  - intros k Hk. unfold hc_bins. rewrite nth_ztab by (fold M; lia).
    cbn [REAL fst]. rewrite Hdo by lia.
    now rewrite (proj2 (Z.leb_le _ _)) by lia.
  - intros k Hk. unfold hc_bins. rewrite nth_ztab by (fold M; lia).
    cbn [IMAG snd].
    destruct (Z.eqb_spec k 0); [lia|]. destruct (Z.eqb_spec (2 * k) N); [lia|].
    cbn [orb]. rewrite Hdo by lia.
    rewrite (proj2 (Z.leb_gt _ _)) by lia. do 2 f_equal; lia.
Qed.

(** C1, for the window sizes the conversions are written for.  With the
    exact transform as the engine, for every even window size [N] and every
    frame of length [N], [aubio_fft_do] followed by [aubio_fft_rdo] on the
    spectrum it wrote gives the frame back, on both builds. *)
Theorem round_trip_even_window c N s input spectrum output :
  even_window N -> fft_ok c N s ->
  packed_ok N input -> polar_ok N spectrum -> packed_ok N output ->
  exists s1 sp s2 out',
    aubio_fft_do c dft_engine s input spectrum = Some (s1, sp) /\
    aubio_fft_rdo c dft_engine s1 sp output = Some (s2, out') /\
    fvec_length out' = N /\
    data out' = data input.
Proof.
  intros Hw Hs Hi Hsp Ho.
  destruct (even_window_half N Hw) as [H2 Hhalf].
  pose proof Hw as [HN Hev].
  pose proof Hi as [Hiwf Hilen]. red in Hiwf.
  assert (HN1 : N + 1 < uint_modulus) by uint_lia.
  exists (after_do c dft_engine N s (data input)),
    (polar_of (do_packed c dft_engine N s (data input)) N).
  do 2 eexists.
  split; [now apply (aubio_fft_do_spec c dft_engine N)|].
  split.
  { apply (aubio_fft_rdo_spec c dft_engine N); auto.
    - apply fft_ok_after_do; auto; lia.
    - apply polar_of_ok; lia. }
  cbn [data set_data fvec_length]. split; [apply Ho|].
  rewrite <- (ztab_dget (data input) N) at 2 by lia.
  unfold rdo_frame. apply ztab_ext; intros j Hj.
  rewrite rdo_packed_polar_of
    by (auto; try lia; unfold do_packed; rewrite length_ztab; lia).
  unfold do_packed. rewrite backward_forward by assumption.
  field. apply not_0_IZR; lia.
Qed.

Lemma round_trip_even_window_witness :
  exists s1 sp s2 out',
    aubio_fft_do true dft_engine example_fft example_frame example_spectrum
      = Some (s1, sp) /\
    aubio_fft_rdo true dft_engine s1 sp example_output = Some (s2, out') /\
    fvec_length out' = 4 /\
    data out' = data example_frame.
Proof.
  apply (round_trip_even_window true 4 example_fft example_frame
           example_spectrum example_output).
  - split; [split|]; reflexivity.
  - repeat split; try reflexivity. eexists; split; reflexivity.
  - split; reflexivity.
  - split; [split|]; reflexivity.
  - split; reflexivity.
Defined.

(** ** A window of three samples *)

Lemma ztab_2 {A : Type} (f : Z -> A) : ztab 2 f = [f 0; f 1].
Proof. reflexivity. Qed.

Lemma ztab_3 {A : Type} (f : Z -> A) : ztab 3 f = [f 0; f 1; f 2].
Proof. reflexivity. Qed.

Lemma turn_3_1 : turn 3 1 = (2 * (PI / 3))%R.
Proof. unfold turn. field. Qed.

(** Bins [0] and [1] of the forward transform of the frame [0, 1, 0]. *)
Lemma odd_frame_bin0 : REAL (dft_r2c 3 [0; 1; 0]%R 0) = 1%R.
Proof.
  unfold dft_r2c; cbn [REAL fst].
  change (Z.to_nat 3) with 3%nat. cbn [rsum].
  change (dget [0; 1; 0]%R (Z.of_nat 0)) with 0%R.
  change (dget [0; 1; 0]%R (Z.of_nat 1)) with 1%R.
  change (dget [0; 1; 0]%R (Z.of_nat 2)) with 0%R.
  rewrite !Z.mul_0_r, turn_zero, cos_0. ring.
Qed.

Lemma odd_frame_bin1 : REAL (dft_r2c 3 [0; 1; 0]%R 1) = (- 1 / 2)%R.
Proof.
  unfold dft_r2c; cbn [REAL fst].
  change (Z.to_nat 3) with 3%nat. cbn [rsum].
  change (dget [0; 1; 0]%R (Z.of_nat 0)) with 0%R.
  change (dget [0; 1; 0]%R (Z.of_nat 1)) with 1%R.
  change (dget [0; 1; 0]%R (Z.of_nat 2)) with 0%R.
  change (Z.of_nat 1 * 1) with 1.
  rewrite turn_3_1, cos_2PI3. lra.
Qed.

(** The packed vector a fresh object of window size [3] holds after the
    forward transform of [0, 1, 0]: the imaginary part of bin [1] is not
    stored. *)
Lemma odd_frame_packed :
  do_packed true dft_engine 3 odd_fft (data odd_frame)
  = [1; - 1 / 2; 0]%R.
Proof.
  unfold do_packed. rewrite ztab_3. unfold do_complex_at.
  cbn [dft_engine fftw_r2c odd_frame data].
  change (0 <=? 3 / 2) with true. change (1 <=? 3 / 2) with true.
  change (2 <=? 3 / 2) with false. change (3 - 2 <? 3 / 2) with false.
  cbn iota. rewrite odd_frame_bin0, odd_frame_bin1. reflexivity.
Qed.

Lemma odd_frame_polar :
  polar_of [1; - 1 / 2; 0]%R 3 = mk_cvec 2 [1; 1 / 2]%R [0%R; PI].
Proof.
  unfold polar_of. change (3 / 2 + 1) with 2. rewrite !ztab_2.
  unfold norm_at, phas_at.
  change (0 =? 3 / 2) with false. change (1 =? 3 / 2) with true.
  change (0 =? 0) with true. cbn iota.
  change (dget [1; - 1 / 2; 0]%R 0) with 1%R.
  change (dget [1; - 1 / 2; 0]%R (3 / 2)) with (- 1 / 2)%R.
  unfold ABS, sign_phas.
  destruct (Rlt_dec 1 0); [lra|].
  destruct (Rlt_dec (- 1 / 2) 0); [|lra].
  rewrite Rabs_R1. rewrite Rabs_left by lra.
  replace (- (- 1 / 2))%R with (1 / 2)%R by lra. reflexivity.
Qed.

Lemma odd_frame_repacked :
  rdo_packed 3 (mk_cvec 2 [1; 1 / 2]%R [0%R; PI]) = [1; - 1 / 2; 0]%R.
Proof.
  unfold rdo_packed. rewrite ztab_3. unfold packed_at. cbn [norm phas].
  change (0 <=? 3 / 2) with true. change (1 <=? 3 / 2) with true.
  change (2 <=? 3 / 2) with false. cbn iota.
  change (dget [1; 1 / 2]%R 0) with 1%R.
  change (dget [1; 1 / 2]%R 1) with (1 / 2)%R.
  change (dget [0%R; PI] 0) with 0%R.
  change (dget [0%R; PI] 1) with PI.
  change (dget [1; 1 / 2]%R (3 - 2)) with (1 / 2)%R.
  change (dget [0%R; PI] (3 - 2)) with PI.
  unfold COS, SIN. rewrite cos_0, cos_PI, sin_PI.
  f_equal; [ring|]. f_equal; [lra|]. f_equal; ring.
Qed.

(** Sample [1] of what the backward plan gives for that packed vector. *)
Lemma odd_frame_backward :
  dget (backward_out true dft_engine 3 [1; - 1 / 2; 0]%R) 1 = (3 / 2)%R.
Proof.
  unfold backward_out. rewrite dget_ztab by lia.
  cbn [dft_engine fftw_c2r]. change (3 / 2 + 1) with 2. rewrite ztab_2.
  unfold unpack_complex.
  change (0 =? 3 / 2) with false. change (1 =? 3 / 2) with true.
  change (0 =? 0) with true. cbn [orb]. cbn iota.
  change (dget [1; - 1 / 2; 0]%R 0) with 1%R.
  change (dget [1; - 1 / 2; 0]%R 1) with (- 1 / 2)%R.
  unfold dft_c2r, of_real.
  change (Z.even 3) with false. change (Z.to_nat ((3 - 1) / 2)) with 1%nat.
  cbn [rsum]. change (Z.of_nat 0 + 1) with 1.
  change (Z.to_nat 0) with 0%nat. change (Z.to_nat 1) with 1%nat.
  cbn [nth REAL IMAG fst snd]. change (1 * 1) with 1.
  rewrite turn_3_1, cos_2PI3. lra.
Qed.

(** C1, as stated, fails.  The window size [3] is accepted at construction,
    and the forward transform of the frame [0, 1, 0] followed by the inverse
    transform gives a frame whose sample [1] is [1/2], not [1]: the last bin
    of an odd window is handled as a Nyquist bin and loses its imaginary
    part. *)
Lemma round_trip_odd_window :
  fftw_accepts dft_engine 3 = true /\
  (exists calls, new_aubio_fft true dft_engine 3 = Some (odd_fft, calls)) /\
  exists s1 sp s2 out',
    aubio_fft_do true dft_engine odd_fft odd_frame odd_spectrum
      = Some (s1, sp) /\
    aubio_fft_rdo true dft_engine s1 sp odd_output = Some (s2, out') /\
    aget (data odd_frame) 1 = Some 1%R /\
    aget (data out') 1 = Some (1 / 2)%R /\
    data out' <> data odd_frame.
Proof.
  assert (HN : 0 < 3 < uint_modulus) by (split; reflexivity).
  assert (Hok : fft_ok true 3 odd_fft).
  { apply fft_ok_new_object; [lia|reflexivity]. }
  assert (Hi : packed_ok 3 odd_frame) by (split; reflexivity).
  assert (Hsp : polar_ok 3 odd_spectrum) by (split; [split|]; reflexivity).
  assert (Ho : packed_ok 3 odd_output) by (split; reflexivity).
  split; [reflexivity|]. split.
  { exists (new_calls true 3). apply new_aubio_fft_spec.
    split; [discriminate|reflexivity]. }
  exists (after_do true dft_engine 3 odd_fft (data odd_frame)),
    (polar_of (do_packed true dft_engine 3 odd_fft (data odd_frame)) 3).
  do 2 eexists.
  split; [now apply (aubio_fft_do_spec true dft_engine 3)|].
  split.
  { apply (aubio_fft_rdo_spec true dft_engine 3);
      [assumption|reflexivity| | |assumption].
    - apply fft_ok_after_do; [assumption|assumption|reflexivity].
    - apply polar_of_ok; lia. }
  cbn [data set_data].
  assert (Hval : aget (rdo_frame true dft_engine 3
       (polar_of (do_packed true dft_engine 3 odd_fft (data odd_frame)) 3)) 1
     = Some (1 / 2)%R).
  { unfold rdo_frame. rewrite aget_ztab by lia.
    rewrite odd_frame_packed, odd_frame_polar, odd_frame_repacked,
      odd_frame_backward.
    f_equal. lra. }
  split; [reflexivity|]. split; [exact Hval|].
  intros Heq. rewrite Heq in Hval.
  change (aget (data odd_frame) 1) with (Some 1%R) in Hval.
  injection Hval as Hval. lra.
Qed.

(** * Further properties of the conversions and of the transforms *)

(** ** More on the polar form *)

Section PolarMore.

Local Open Scope R_scope.

(** The angle of the point of polar coordinates [(r, p)], [r > 0], is [p]
    when [p] is in [(- PI, PI]]. *)
Lemma ATAN2_polar r p :
  0 < r -> - PI < p <= PI -> ATAN2 (r * sin p) (r * cos p) = p.
Proof.
  intros Hr [Hlo Hhi]. pose proof PI_RGT_0 as HPI.
  assert (Htan : forall q, cos q <> 0 -> sin p = - sin q -> cos p = - cos q ->
            r * sin p / (r * cos p) = tan q).
  { intros q Hq Hs Hc. rewrite Hs, Hc. unfold tan. field. split; lra. }
  destruct (Rtotal_order p (- (PI / 2))) as [H1|[H1|H1]].
  - (* third quadrant *)
    assert (Hc : cos p < 0).
    { rewrite <- cos_neg. apply cos_lt_0; lra. }
    assert (Hs : sin p < 0) by (apply sin_lt_0_var; lra).
    rewrite ATAN2_neg_x_neg_y by nra.
    rewrite (Htan (p + PI)).
    + rewrite atan_tan by lra. ring.
    + rewrite neg_cos. lra.
    + rewrite neg_sin. ring.
    + rewrite neg_cos. ring.
  - subst p. rewrite cos_neg, sin_neg, cos_PI2, sin_PI2, Rmult_0_r.
    rewrite ATAN2_zero_x.
    destruct (Rlt_dec 0 (r * - (1))); [lra|].
    destruct (Rlt_dec (r * - (1)) 0); [field|lra].
  - destruct (Rtotal_order p (PI / 2)) as [H2|[H2|H2]].
    + (* right half plane *)
      assert (Hc : 0 < cos p) by (apply cos_gt_0; lra).
      rewrite ATAN2_pos_x by nra.
      replace (r * sin p / (r * cos p)) with (tan p)
        by (unfold tan; field; split; lra).
      apply atan_tan; lra.
    + subst p. rewrite cos_PI2, sin_PI2, Rmult_0_r, ATAN2_zero_x.
      destruct (Rlt_dec 0 (r * 1)); [reflexivity|lra].
    + (* second quadrant *)
      assert (Hc : cos p < 0) by (apply cos_lt_0; lra).
      assert (Hs : 0 <= sin p) by (apply sin_ge_0; lra).
      rewrite ATAN2_neg_x_nonneg_y by nra.
      rewrite (Htan (p - PI)).
      * rewrite atan_tan by lra. ring.
      * rewrite cos_minus_PI. lra.
      * rewrite sin_minus_PI. ring.
      * rewrite cos_minus_PI. ring.
Qed.

(** The modulus of the point of polar coordinates [(r, p)] is [|r|]. *)
Lemma SQRT_polar r p : SQRT (SQR (r * cos p) + SQR (r * sin p)) = Rabs r.
Proof.
  unfold SQRT, SQR.
  replace (r * cos p * (r * cos p) + r * sin p * (r * sin p))
    with (Rsqr r * (Rsqr (sin p) + Rsqr (cos p))) by (unfold Rsqr; ring).
  rewrite sin2_cos2, Rmult_1_r. apply sqrt_Rsqr_abs.
Qed.

(** A positive factor does not change the angle. *)
Lemma ATAN2_scale a y x : 0 < a -> ATAN2 (a * y) (a * x) = ATAN2 y x.
Proof.
  intros Ha.
  assert (Hq : x <> 0 -> a * y / (a * x) = y / x) by (intros; field; lra).
  destruct (Rtotal_order x 0) as [Hx|[Hx|Hx]].
  - destruct (Rle_dec 0 y) as [Hy|Hy].
    + rewrite !ATAN2_neg_x_nonneg_y by nra. rewrite Hq by lra. reflexivity.
    + rewrite !ATAN2_neg_x_neg_y by nra. rewrite Hq by lra. reflexivity.
  - subst x. rewrite Rmult_0_r, !ATAN2_zero_x.
    destruct (Rlt_dec 0 y); destruct (Rlt_dec 0 (a * y)); try nra; auto.
    destruct (Rlt_dec y 0); destruct (Rlt_dec (a * y) 0); try nra; auto.
  - rewrite !ATAN2_pos_x by nra. rewrite Hq by lra. reflexivity.
Qed.

Lemma SQRT_scale a x y :
  0 <= a -> SQRT (SQR (a * x) + SQR (a * y)) = a * SQRT (SQR x + SQR y).
Proof.
  intros Ha. unfold SQRT, SQR.
  replace (a * x * (a * x) + a * y * (a * y))
    with (a * a * (x * x + y * y)) by ring.
  rewrite sqrt_mult by nra. now rewrite sqrt_square.
Qed.

Lemma sign_phas_scale a x : 0 < a -> sign_phas (a * x) = sign_phas x.
Proof.
  intros Ha. unfold sign_phas.
  destruct (Rlt_dec (a * x) 0); destruct (Rlt_dec x 0); auto; nra.
Qed.

Lemma norm_at_nonneg d N k : 0 <= norm_at d N k.
Proof.
  unfold norm_at, ABS, SQRT.
  destruct (k =? N / 2); [apply Rabs_pos|].
  destruct (k =? 0); [apply Rabs_pos|apply sqrt_pos].
Qed.

End PolarMore.

(** ** Conversions: order, overwriting, and the way back *)

(** A polar spectrum that the forward conversion can produce: a boundary bin
    has phase [0], or phase [PI] and a positive norm; an interior bin has a
    positive norm and a phase in [(- PI, PI]], or is zero with phase [0]. *)
Definition canonical_bin (boundary : bool) (n p : R) : Prop :=
  if boundary then (p = 0 /\ 0 <= n)%R \/ (p = PI /\ 0 < n)%R
  else (n = 0 /\ p = 0)%R \/ (0 < n /\ - PI < p <= PI)%R.

Definition canonical (N : Z) (spectrum : cvec_t) : Prop :=
  forall k, 0 <= k <= N / 2 ->
    canonical_bin ((k =? N / 2) || (k =? 0))
      (dget (norm spectrum) k) (dget (phas spectrum) k).

Definition example_polar : cvec_t :=
  mk_cvec 3 [1; 2; 3]%R [0; PI / 2; PI]%R.


(** X1. Magnitudes are never negative: [aubio_fft_get_norm] runs on buffers
    of matching sizes, leaves [phas] alone and writes [N/2 + 1] norms, none
    of them negative. *)
Theorem norm_nonnegative N compspec spectrum :
  0 < N < uint_modulus -> packed_ok N compspec -> polar_ok N spectrum ->
  exists sp,
    aubio_fft_get_norm compspec spectrum = Some sp /\
    phas sp = phas spectrum /\
    Z.of_nat (length (norm sp)) = N / 2 + 1 /\
    (forall k v, aget (norm sp) k = Some v -> (0 <= v)%R).
Proof.
  intros HN [Hwf Hlen] [Hswf Hsl].
  assert (Hh : 0 <= N / 2) by (apply Z.div_pos; lia).
  eexists. split; [apply (aubio_fft_get_norm_spec N); assumption|].
  cbn [norm phas set_norm]. split; [reflexivity|].
  split; [rewrite length_ztab; lia|].
  intros k v Hk.
  assert (Hr : 0 <= k < N / 2 + 1).
  { apply aget_Some_in in Hk. rewrite length_ztab in Hk. lia. }
  rewrite aget_ztab in Hk by assumption. injection Hk as <-.
  apply norm_at_nonneg.
Qed.

Lemma norm_nonnegative_witness :
  exists sp,
    aubio_fft_get_norm example_packed example_spectrum = Some sp /\
    phas sp = phas example_spectrum /\
    Z.of_nat (length (norm sp)) = 4 / 2 + 1 /\
    (forall k v, aget (norm sp) k = Some v -> (0 <= v)%R).
Proof.
  apply (norm_nonnegative 4 example_packed example_spectrum).
  - split; reflexivity.
  - split; reflexivity.
  - split; [split|]; reflexivity.
Defined.

(** X2. The two halves of the forward conversion commute and overwrite the
    whole spectrum: norms first or phases first, and whatever the spectrum
    buffer held, the result is the same spectrum. *)
Theorem forward_conversion_order N compspec spectrum spectrum' :
  0 < N < uint_modulus -> packed_ok N compspec ->
  polar_ok N spectrum -> polar_ok N spectrum' ->
  exists sp,
    aubio_fft_get_spectrum compspec spectrum = Some sp /\
    (s <- aubio_fft_get_norm compspec spectrum ;;
     aubio_fft_get_phas compspec s) = Some sp /\
    aubio_fft_get_spectrum compspec spectrum' = Some sp.
Proof.
  intros HN Hc Hs Hs'. pose proof Hc as [Hwf Hlen].
  pose proof Hs as [[Hn Hp] Hsl].
  assert (Hh : 0 <= N / 2) by (apply Z.div_pos; lia).
  exists (polar_of (data compspec) N).
  split; [now apply aubio_fft_get_spectrum_spec|].
  split; [|now apply aubio_fft_get_spectrum_spec].
  rewrite (aubio_fft_get_norm_spec N HN compspec spectrum)
    by (assumption || (split; assumption)).
  cbn [bind].
  rewrite (aubio_fft_get_phas_spec N HN compspec).
  - unfold polar_of, set_phas, set_norm; cbn. now rewrite Hsl.
  - assumption.
  - assumption.
  - split; cbn; [rewrite length_ztab; lia|assumption].
  - cbn; assumption.
Qed.

Lemma forward_conversion_order_witness :
  exists sp,
    aubio_fft_get_spectrum example_packed example_spectrum = Some sp /\
    (s <- aubio_fft_get_norm example_packed example_spectrum ;;
     aubio_fft_get_phas example_packed s) = Some sp /\
    aubio_fft_get_spectrum example_packed example_polar = Some sp.
Proof.
  apply (forward_conversion_order 4 example_packed example_spectrum
           example_polar).
  - split; reflexivity.
  - split; reflexivity.
  - split; [split|]; reflexivity.
  - split; [split|]; reflexivity.
Defined.

(** X3. The two halves of the inverse conversion commute and overwrite the
    whole packed vector: real parts first or imaginary parts first, and
    whatever the packed buffer held, the data written are the same. *)
Theorem inverse_conversion_order N spectrum compspec compspec' :
  0 < N -> N + 1 < uint_modulus -> polar_ok N spectrum ->
  packed_ok N compspec -> packed_ok N compspec' ->
  exists d,
    aubio_fft_get_realimag spectrum compspec = Some (set_data compspec d) /\
    (c <- aubio_fft_get_real spectrum compspec ;;
     aubio_fft_get_imag spectrum c) = Some (set_data compspec d) /\
    aubio_fft_get_realimag spectrum compspec' = Some (set_data compspec' d).
Proof.
  intros HN HN1 Hs Hc Hc'. pose proof Hc as [Hwf Hlen].
  pose proof Hs as [Hswf Hsl].
  assert (HN' : 0 < N < uint_modulus) by lia.
  exists (rdo_packed N spectrum).
  split; [now apply aubio_fft_get_realimag_spec|].
  split; [|now apply aubio_fft_get_realimag_spec].
  rewrite (aubio_fft_get_real_spec N HN' compspec spectrum) by assumption.
  cbn [bind].
  rewrite (aubio_fft_get_imag_spec N HN').
  - unfold set_data, rdo_packed; cbn. f_equal. f_equal.
    apply ztab_ext; intros i Hi. unfold imag_at, packed_at.
    destruct (Z.ltb_spec (N / 2) i).
    + rewrite (proj2 (Z.leb_gt _ _)) by lia. reflexivity.
    + rewrite (proj2 (Z.leb_le _ _)) by lia.
      rewrite dget_ztab by lia. unfold real_at.
      now rewrite (proj2 (Z.leb_le _ _)) by lia.
  - red; cbn. rewrite length_ztab; lia.
  - cbn; assumption.
  - assumption.
  - assumption.
  - assumption.
Qed.

Lemma inverse_conversion_order_witness :
  exists d,
    aubio_fft_get_realimag example_polar example_packed
      = Some (set_data example_packed d) /\
    (c <- aubio_fft_get_real example_polar example_packed ;;
     aubio_fft_get_imag example_polar c) = Some (set_data example_packed d) /\
    aubio_fft_get_realimag example_polar example_output
      = Some (set_data example_output d).
Proof.
  apply (inverse_conversion_order 4 example_polar example_packed
           example_output).
  - reflexivity.
  - reflexivity.
  - split; [split|]; reflexivity.
  - split; reflexivity.
  - split; reflexivity.
Defined.

(** Entries of the polar spectrum of the packed vector of a spectrum, for an
    even [N]. *)
Lemma polar_of_rdo_packed_norm N spectrum k :
  even_window N -> 0 <= k <= N / 2 ->
  norm_at (rdo_packed N spectrum) N k =
  if (k =? N / 2) || (k =? 0)
  then Rabs (dget (norm spectrum) k * cos (dget (phas spectrum) k))
  else Rabs (dget (norm spectrum) k).
Proof.
  intros Hw Hk. destruct (even_window_half N Hw) as [H2 Hhalf].
  unfold norm_at, rdo_packed.
  destruct (Z.eqb_spec k (N / 2)) as [->|H1]; cbn [orb].
  - rewrite dget_ztab by lia. unfold packed_at.
    now rewrite (proj2 (Z.leb_le _ _)) by lia.
  - destruct (Z.eqb_spec k 0) as [->|H0].
    + rewrite dget_ztab by lia. unfold packed_at.
      now rewrite (proj2 (Z.leb_le _ _)) by lia.
    + rewrite !dget_ztab by lia. unfold packed_at.
      rewrite (proj2 (Z.leb_le _ _)) by lia.
      rewrite (proj2 (Z.leb_gt _ _)) by lia.
      replace (N - (N - k)) with k by lia. apply SQRT_polar.
Qed.

Lemma polar_of_rdo_packed_phas N spectrum k :
  even_window N -> 0 <= k <= N / 2 ->
  phas_at (rdo_packed N spectrum) N k =
  if (k =? N / 2) || (k =? 0)
  then sign_phas (dget (norm spectrum) k * cos (dget (phas spectrum) k))
  else ATAN2 (dget (norm spectrum) k * sin (dget (phas spectrum) k))
             (dget (norm spectrum) k * cos (dget (phas spectrum) k)).
Proof.
  intros Hw Hk. destruct (even_window_half N Hw) as [H2 Hhalf].
  unfold phas_at, rdo_packed.
  destruct (Z.eqb_spec k (N / 2)) as [->|H1]; cbn [orb].
  - rewrite dget_ztab by lia. unfold packed_at.
    now rewrite (proj2 (Z.leb_le _ _)) by lia.
  - destruct (Z.eqb_spec k 0) as [->|H0].
    + rewrite dget_ztab by lia. unfold packed_at.
      now rewrite (proj2 (Z.leb_le _ _)) by lia.
    + rewrite !dget_ztab by lia. unfold packed_at.
      rewrite (proj2 (Z.leb_le k (N / 2))) by lia.
      rewrite (proj2 (Z.leb_gt (N - k) (N / 2))) by lia.
      replace (N - (N - k)) with k by lia. reflexivity.
Qed.

(** X4. Polar to packed to polar: for an even [N], a canonical spectrum
    converted to a packed vector by [aubio_fft_get_realimag] and back by
    [aubio_fft_get_spectrum] is recovered, norms and phases. *)
Theorem polar_packed_polar N spectrum target buffer :
  even_window N -> polar_ok N spectrum -> canonical N spectrum ->
  packed_ok N target -> polar_ok N buffer ->
  exists c sp,
    aubio_fft_get_realimag spectrum target = Some c /\
    aubio_fft_get_spectrum c buffer = Some sp /\
    norm sp = norm spectrum /\ phas sp = phas spectrum.
Proof.
  intros Hw Hs Hcan Ht Hb.
  destruct (even_window_half N Hw) as [H2 Hhalf]. pose proof Hw as [HN Hev].
  pose proof Hs as [[Hn Hp] Hsl].
  exists (set_data target (rdo_packed N spectrum)),
    (polar_of (rdo_packed N spectrum) N).
  split; [apply aubio_fft_get_realimag_spec; auto; try lia; uint_lia|].
  split.
  { apply aubio_fft_get_spectrum_spec; auto.
    apply packed_ok_ztab; assumption. }
  unfold polar_of; cbn [norm phas]. split.
  - transitivity (ztab (N / 2 + 1) (dget (norm spectrum)));
      [|apply ztab_dget; lia].
    apply ztab_ext; intros k Hk.
    rewrite polar_of_rdo_packed_norm by (auto; lia).
    specialize (Hcan k ltac:(lia)). unfold canonical_bin in Hcan.
    destruct ((k =? N / 2) || (k =? 0)).
    + destruct Hcan as [[-> Hn0]|[-> Hn0]].
      * rewrite cos_0, Rmult_1_r. apply Rabs_right; lra.
      * rewrite cos_PI. rewrite Rabs_left by lra. ring.
    + destruct Hcan as [[-> _]|[Hn0 _]]; [apply Rabs_R0|].
      apply Rabs_right; lra.
  - transitivity (ztab (N / 2 + 1) (dget (phas spectrum)));
      [|apply ztab_dget; lia].
    apply ztab_ext; intros k Hk.
    rewrite polar_of_rdo_packed_phas by (auto; lia).
    specialize (Hcan k ltac:(lia)). unfold canonical_bin in Hcan.
    destruct ((k =? N / 2) || (k =? 0)).
    + unfold sign_phas. destruct Hcan as [[-> Hn0]|[-> Hn0]].
      * rewrite cos_0. destruct (Rlt_dec _ 0); [lra|reflexivity].
      * rewrite cos_PI. destruct (Rlt_dec _ 0); [reflexivity|lra].
    + destruct Hcan as [[Hz Hp0]|[Hn0 Hr]].
      * rewrite Hz, !Rmult_0_l. rewrite ATAN2_origin. now symmetry.
      * now apply ATAN2_polar.
Qed.

Lemma polar_packed_polar_witness :
  exists c sp,
    aubio_fft_get_realimag example_polar example_output = Some c /\
    aubio_fft_get_spectrum c example_spectrum = Some sp /\
    norm sp = norm example_polar /\ phas sp = phas example_polar.
Proof.
  apply (polar_packed_polar 4 example_polar example_output example_spectrum).
  - split; [split|]; reflexivity.
  - split; [split|]; reflexivity.
  - intros k Hk. pose proof PI_RGT_0.
    assert (Hcases : k = 0 \/ k = 1 \/ k = 2) by lia.
    destruct Hcases as [-> | [-> | ->]].
    + change (canonical_bin true 1%R 0%R). left; split; [reflexivity|lra].
    + change (canonical_bin false 2%R (PI / 2)%R). right; split; lra.
    + change (canonical_bin true 3%R PI). right; split; [reflexivity|lra].
  - split; reflexivity.
  - split; [split|]; reflexivity.
Defined.

(** X5. Magnitudes through the inverse and the forward conversion, for any
    spectrum and an even [N]: an interior bin comes back with the absolute
    value of its norm whatever its phase, a boundary bin with the absolute
    value of [norm * cos (phas)], its imaginary part being dropped. *)
Theorem magnitudes_through_packed N spectrum target buffer :
  even_window N -> polar_ok N spectrum ->
  packed_ok N target -> polar_ok N buffer ->
  exists c sp,
    aubio_fft_get_realimag spectrum target = Some c /\
    aubio_fft_get_spectrum c buffer = Some sp /\
    (forall k n, 1 <= k < N / 2 -> aget (norm spectrum) k = Some n ->
       aget (norm sp) k = Some (Rabs n)) /\
    (forall k n p, k = 0 \/ k = N / 2 ->
       aget (norm spectrum) k = Some n -> aget (phas spectrum) k = Some p ->
       aget (norm sp) k = Some (Rabs (n * cos p))).
Proof.
  intros Hw Hs Ht Hb.
  destruct (even_window_half N Hw) as [H2 Hhalf]. pose proof Hw as [HN Hev].
  pose proof Hs as [[Hn Hp] Hsl].
  exists (set_data target (rdo_packed N spectrum)),
    (polar_of (rdo_packed N spectrum) N).
  split; [apply aubio_fft_get_realimag_spec; auto; try lia; uint_lia|].
  split.
  { apply aubio_fft_get_spectrum_spec; auto.
    apply packed_ok_ztab; assumption. }
  unfold polar_of; cbn [norm phas]. split.
  - intros k n Hk Hnk. rewrite aget_dget in Hnk by lia.
    injection Hnk as <-. rewrite aget_ztab by lia.
    rewrite polar_of_rdo_packed_norm by (auto; lia).
    destruct (Z.eqb_spec k (N / 2)); [lia|].
    destruct (Z.eqb_spec k 0); [lia|]. reflexivity.
  - intros k n p Hk Hnk Hpk.
    rewrite aget_dget in Hnk, Hpk by lia.
    injection Hnk as <-; injection Hpk as <-. rewrite aget_ztab by lia.
    rewrite polar_of_rdo_packed_norm by (auto; lia).
    replace ((k =? N / 2) || (k =? 0)) with true; [reflexivity|].
    symmetry; apply orb_true_iff. rewrite !Z.eqb_eq. tauto.
Qed.

Lemma magnitudes_through_packed_witness :
  exists c sp,
    aubio_fft_get_realimag example_polar example_output = Some c /\
    aubio_fft_get_spectrum c example_spectrum = Some sp /\
    (forall k n, 1 <= k < 4 / 2 -> aget (norm example_polar) k = Some n ->
       aget (norm sp) k = Some (Rabs n)) /\
    (forall k n p, k = 0 \/ k = 4 / 2 ->
       aget (norm example_polar) k = Some n ->
       aget (phas example_polar) k = Some p ->
       aget (norm sp) k = Some (Rabs (n * cos p))).
Proof.
  apply (magnitudes_through_packed 4 example_polar example_output
           example_spectrum).
  - split; [split|]; reflexivity.
  - split; [split|]; reflexivity.
  - split; reflexivity.
  - split; [split|]; reflexivity.
Defined.



(** ** The spectrum written by [aubio_fft_do], bin by bin *)

(** The half-complex output of the engine is its complex output, laid out as
    [r0, r1, ..., r(n/2), i((n+1)/2 - 1), ..., i1]. *)
Definition hc_consistent (E : fftw_engine) : Prop :=
  forall n x k, 0 <= k < n ->
    fftw_r2hc E n x k =
    if k <=? n / 2 then REAL (fftw_r2c E n x k)
    else IMAG (fftw_r2c E n x (n - k)).

(** Bins [0] and [N/2] are the boundary bins. *)
Definition is_boundary (N k : Z) : bool := (k =? N / 2) || (k =? 0).

(** Norm and phase given to a bin [X] of the engine. *)
Definition bin_norm (boundary : bool) (X : fftw_complex) : R :=
  if boundary then Rabs (REAL X)
  else sqrt (REAL X * REAL X + IMAG X * IMAG X).

Definition bin_phas (boundary : bool) (X : fftw_complex) : R :=
  if boundary then sign_phas (REAL X) else ATAN2 (IMAG X) (REAL X).

Lemma hc_consistent_dft : hc_consistent dft_engine.
Proof. intros n x k Hk. reflexivity. Qed.

(** Entries of the packed vector the polar conversion looks at. *)
Lemma do_packed_real c E N x old k :
  (c = false -> hc_consistent E) -> 0 < N -> 0 <= k <= N / 2 ->
  dget (ztab N (do_complex_at c E N x old)) k = REAL (fftw_r2c E N x k).
Proof.
  intros HE HN Hk.
  assert (Hh : N / 2 < N) by (apply Z.div_lt; lia).
  rewrite dget_ztab by lia. unfold do_complex_at. destruct c.
  - now rewrite (proj2 (Z.leb_le _ _)) by lia.
  - rewrite (HE eq_refl) by lia.
    now rewrite (proj2 (Z.leb_le _ _)) by lia.
Qed.

Lemma do_packed_imag c E N x old k :
  (c = false -> hc_consistent E) -> 0 < N -> 1 <= k < N / 2 ->
  dget (ztab N (do_complex_at c E N x old)) (N - k)
  = IMAG (fftw_r2c E N x k).
Proof.
  intros HE HN Hk.
  rewrite dget_ztab by lia. unfold do_complex_at. destruct c.
  - rewrite (proj2 (Z.leb_gt _ _)) by lia.
    rewrite (proj2 (Z.ltb_lt _ _)) by lia. do 2 f_equal; lia.
  - rewrite (HE eq_refl) by lia.
    rewrite (proj2 (Z.leb_gt _ _)) by lia. do 2 f_equal; lia.
Qed.

Lemma do_result_bins c E N x :
  (c = false -> hc_consistent E) -> 0 < N ->
  do_result c E N x =
  mk_cvec (N / 2 + 1)
    (ztab (N / 2 + 1)
       (fun k => bin_norm (is_boundary N k) (fftw_r2c E N x k)))
    (ztab (N / 2 + 1)
       (fun k => bin_phas (is_boundary N k) (fftw_r2c E N x k))).
Proof.
  intros HE HN.
  assert (Hh : 0 <= N / 2) by (apply Z.div_pos; lia).
  unfold do_result, polar_of.
  f_equal; apply ztab_ext; intros k Hk;
    unfold norm_at, phas_at, bin_norm, bin_phas, is_boundary.
  - destruct (Z.eqb_spec k (N / 2)) as [->|H1]; cbn [orb].
    + now rewrite do_packed_real by (auto; lia).
    + destruct (Z.eqb_spec k 0) as [->|H0].
      * now rewrite do_packed_real by (auto; lia).
      * rewrite do_packed_real, do_packed_imag by (auto; lia). reflexivity.
  - destruct (Z.eqb_spec k (N / 2)) as [->|H1]; cbn [orb].
    + now rewrite do_packed_real by (auto; lia).
    + destruct (Z.eqb_spec k 0) as [->|H0].
      * now rewrite do_packed_real by (auto; lia).
      * rewrite do_packed_imag, do_packed_real by (auto; lia). reflexivity.
Qed.

(** What [aubio_fft_do] gives on an object of the right shape. *)
Lemma aubio_fft_do_result c E N s input spectrum :
  0 < N < uint_modulus ->
  fft_ok c N s -> packed_ok N input -> polar_ok N spectrum ->
  aubio_fft_do c E s input spectrum
  = Some (after_do c E N s (data input), do_result c E N (data input)).
Proof.
  intros HN Hs Hi Hsp.
  rewrite (aubio_fft_do_spec c E N) by assumption.
  rewrite polar_of_do_result by lia. reflexivity.
Qed.

(** X7. The spectrum of [aubio_fft_do] is the polar form of the bins of the
    forward plan, on both builds and for every window size: an interior bin
    [k] gets the modulus and the angle of bin [k]; bins [0] and [N/2] get the
    absolute value of the real part and the phase [0] or [PI] by its sign. *)
Theorem spectrum_of_engine_bins c E N s input spectrum :
  (c = false -> hc_consistent E) ->
  0 < N < uint_modulus ->
  fft_ok c N s -> packed_ok N input -> polar_ok N spectrum ->
  exists s' sp,
    aubio_fft_do c E s input spectrum = Some (s', sp) /\
    cvec_length sp = N / 2 + 1 /\
    (forall k, 0 <= k <= N / 2 ->
       aget (norm sp) k =
       Some (bin_norm (is_boundary N k) (fftw_r2c E N (data input) k)) /\
       aget (phas sp) k =
       Some (bin_phas (is_boundary N k) (fftw_r2c E N (data input) k))).
Proof.
  intros HE HN Hs Hi Hsp.
  do 2 eexists. split; [now apply (aubio_fft_do_result c E N)|].
  rewrite do_result_bins by (auto; lia). cbn [cvec_length norm phas].
  split; [reflexivity|].
  intros k Hk. rewrite !aget_ztab by lia. split; reflexivity.
Qed.

Lemma spectrum_of_engine_bins_witness :
  exists s' sp,
    aubio_fft_do false dft_engine (new_object false dft_engine 4)
      example_frame example_spectrum = Some (s', sp) /\
    cvec_length sp = 4 / 2 + 1 /\
    (forall k, 0 <= k <= 4 / 2 ->
       aget (norm sp) k =
       Some (bin_norm (is_boundary 4 k)
               (fftw_r2c dft_engine 4 (data example_frame) k)) /\
       aget (phas sp) k =
       Some (bin_phas (is_boundary 4 k)
               (fftw_r2c dft_engine 4 (data example_frame) k))).
Proof.
  apply (spectrum_of_engine_bins false dft_engine 4
           (new_object false dft_engine 4) example_frame example_spectrum).
  - intros _ n x k Hk. reflexivity.
  - split; reflexivity.
  - repeat split; try reflexivity. eexists; split; reflexivity.
  - split; reflexivity.
  - split; [split|]; reflexivity.
Defined.

(** X8. The two builds agree: when the half-complex output of the engine is
    its complex output in half-complex order, the build with complex.h and
    the build without write the same spectrum for the same frame, for every
    window size. *)
Theorem builds_agree E N s s' input spectrum :
  hc_consistent E -> 0 < N < uint_modulus ->
  fft_ok true N s -> fft_ok false N s' ->
  packed_ok N input -> polar_ok N spectrum ->
  exists s1 s2 sp,
    aubio_fft_do true E s input spectrum = Some (s1, sp) /\
    aubio_fft_do false E s' input spectrum = Some (s2, sp).
Proof.
  intros HE HN Hs Hs' Hi Hsp.
  do 3 eexists. split; [now apply (aubio_fft_do_result true E N)|].
  rewrite (aubio_fft_do_result false E N) by assumption.
  rewrite (do_result_bins true), (do_result_bins false) by (auto; lia).
  reflexivity.
Qed.

Lemma builds_agree_witness :
  exists s1 s2 sp,
    aubio_fft_do true dft_engine example_fft example_frame example_spectrum
      = Some (s1, sp) /\
    aubio_fft_do false dft_engine (new_object false dft_engine 4)
      example_frame example_spectrum = Some (s2, sp).
Proof.
  apply (builds_agree dft_engine 4 example_fft
           (new_object false dft_engine 4) example_frame example_spectrum).
  - intros n x k Hk. reflexivity.
  - split; reflexivity.
  - repeat split; try reflexivity. eexists; split; reflexivity.
  - repeat split; try reflexivity. eexists; split; reflexivity.
  - split; reflexivity.
  - split; [split|]; reflexivity.
Defined.

(** ** The exact transform on particular frames *)

(** The sum, and the alternating sum, of the [N] samples of a frame. *)
Definition sum_samples (N : Z) (x : list R) : R :=
  rsum (Z.to_nat N) (fun j => dget x (Z.of_nat j)).

Definition alt_sum_samples (N : Z) (x : list R) : R :=
  rsum (Z.to_nat N)
    (fun j => if Nat.even j then dget x (Z.of_nat j)
              else (- dget x (Z.of_nat j))%R).

(** The unit impulse at index [0], of [N] samples. *)
Definition impulse (N : Z) : list R := 1%R :: repeat 0%R (Z.to_nat (N - 1)).

Section ExactFrames.

Local Open Scope R_scope.

Lemma dget_repeat_zero n j : dget (repeat 0 n) j = 0.
Proof.
  unfold dget. destruct (Nat.lt_ge_cases (Z.to_nat j) n) as [H|H].
  - now apply nth_repeat_lt.
  - apply nth_overflow. now rewrite repeat_length.
Qed.

Lemma dget_scale a x j : dget (map (Rmult a) x) j = a * dget x j.
Proof.
  unfold dget.
  rewrite <- (map_nth (Rmult a) x 0). now rewrite Rmult_0_r.
Qed.

Lemma dget_impulse N j :
  dget (impulse N) (Z.of_nat j) = if Nat.eqb j 0 then 1 else 0.
Proof.
  unfold dget, impulse. rewrite Nat2Z.id.
  destruct j as [|j]; cbn [nth Nat.eqb]; [reflexivity|].
  pose proof (dget_repeat_zero (Z.to_nat (N - 1)) (Z.of_nat j)) as H.
  unfold dget in H. now rewrite Nat2Z.id in H.
Qed.

Lemma dft_zero n m k : dft_r2c n (repeat 0 m) k = (0, 0).
Proof.
  unfold dft_r2c. f_equal.
  - apply rsum_zero; intros j _. rewrite dget_repeat_zero. ring.
  - rewrite rsum_zero; [ring|].
    intros j _. rewrite dget_repeat_zero. ring.
Qed.

Lemma dft_scale a n x k :
  dft_r2c n (map (Rmult a) x) k
  = (a * REAL (dft_r2c n x k), a * IMAG (dft_r2c n x k)).
Proof.
  unfold dft_r2c; cbn [REAL IMAG fst snd]. f_equal.
  - rewrite <- rsum_scal. apply rsum_ext; intros j _.
    rewrite dget_scale. ring.
  - rewrite Ropp_mult_distr_r_reverse. f_equal.
    rewrite <- rsum_scal. apply rsum_ext; intros j _.
    rewrite dget_scale. ring.
Qed.

Lemma dft_impulse n k : (0 < n)%Z -> dft_r2c n (impulse n) k = (1, 0).
Proof.
  intros Hn. unfold dft_r2c. f_equal.
  - rewrite (rsum_single (Z.to_nat n) 0%nat).
    + rewrite dget_impulse. cbn [Nat.eqb Z.of_nat].
      rewrite Z.mul_0_l, turn_zero, cos_0. ring.
    + lia.
    + intros j _ Hj. rewrite dget_impulse.
      destruct j; [contradiction|cbn [Nat.eqb]; ring].
  - rewrite rsum_zero; [ring|].
    intros j _. rewrite dget_impulse. destruct j; cbn [Nat.eqb].
    + cbn [Z.of_nat]. rewrite Z.mul_0_l, turn_zero, sin_0. ring.
    + ring.
Qed.

Lemma dft_dc n x : REAL (dft_r2c n x 0) = sum_samples n x.
Proof.
  unfold dft_r2c, sum_samples; cbn [REAL fst].
  apply rsum_ext; intros j _.
  rewrite Z.mul_0_r, turn_zero, cos_0. ring.
Qed.

Lemma cos_nat_PI j :
  cos (IZR (Z.of_nat j) * PI) = if Nat.even j then 1 else -1.
Proof.
  induction j as [|j IH].
  - cbn [Z.of_nat Nat.even]. rewrite Rmult_0_l. apply cos_0.
  - rewrite Nat2Z.inj_succ, succ_IZR, Rmult_plus_distr_r, Rmult_1_l.
    rewrite neg_cos, IH, Nat.even_succ, <- Nat.negb_even.
    destruct (Nat.even j); cbn [negb]; ring.
Qed.

Lemma dft_nyquist M x :
  (1 <= M)%Z -> REAL (dft_r2c (2 * M) x M) = alt_sum_samples (2 * M) x.
Proof.
  intros HM. unfold dft_r2c, alt_sum_samples; cbn [REAL fst].
  apply rsum_ext; intros j _.
  rewrite (Z.mul_comm (Z.of_nat j) M), turn_half, cos_nat_PI by assumption.
  destruct (Nat.even j); ring.
Qed.

Lemma dft_c2r_zero n X m :
  (forall k, nth k X (0, 0) = (0, 0)) -> dft_c2r n X m = 0.
Proof.
  intros H. unfold dft_c2r. rewrite !H. cbn [REAL IMAG fst snd].
  rewrite rsum_zero by (intros i _; rewrite H; cbn [REAL IMAG fst snd]; ring).
  destruct (Z.even n); ring.
Qed.

Lemma bin_norm_scale b a X :
  0 < a -> bin_norm b (a * REAL X, a * IMAG X) = a * bin_norm b X.
Proof.
  intros Ha. unfold bin_norm; cbn [REAL IMAG fst snd]. destruct b.
  - rewrite Rabs_mult, (Rabs_right a) by lra. reflexivity.
  - apply (SQRT_scale a (fst X) (snd X)). lra.
Qed.

Lemma bin_phas_scale b a X :
  0 < a -> bin_phas b (a * REAL X, a * IMAG X) = bin_phas b X.
Proof.
  intros Ha. unfold bin_phas; cbn [REAL IMAG fst snd]. destruct b.
  - now apply sign_phas_scale.
  - now apply ATAN2_scale.
Qed.

Lemma bin_zero b : bin_norm b (0, 0) = 0 /\ bin_phas b (0, 0) = 0.
Proof.
  unfold bin_norm, bin_phas, sign_phas; cbn [REAL IMAG fst snd].
  destruct b; split.
  - apply Rabs_R0.
  - destruct (Rlt_dec 0 0); [lra|reflexivity].
  - rewrite Rmult_0_l, Rplus_0_l. apply sqrt_0.
  - apply ATAN2_origin.
Qed.

Lemma bin_one b : bin_norm b (1, 0) = 1 /\ bin_phas b (1, 0) = 0.
Proof.
  unfold bin_norm, bin_phas, sign_phas; cbn [REAL IMAG fst snd].
  destruct b; split.
  - apply Rabs_R1.
  - destruct (Rlt_dec 1 0); [lra|reflexivity].
  - rewrite Rmult_0_l, Rplus_0_r, Rmult_1_l. apply sqrt_1.
  - rewrite ATAN2_pos_x by lra.
    unfold Rdiv. rewrite Rmult_0_l. apply atan_0.
Qed.

End ExactFrames.

Lemma ztab_const {A : Type} n (v : A) :
  ztab n (fun _ => v) = repeat v (Z.to_nat n).
Proof.
  unfold ztab. rewrite map_const, length_seq. reflexivity.
Qed.

Lemma map_ztab {A B : Type} (g : A -> B) n (f : Z -> A) :
  map g (ztab n f) = ztab n (fun k => g (f k)).
Proof. unfold ztab. now rewrite map_map. Qed.

Definition example_scaled : fvec_t :=
  mk_fvec 4 (map (Rmult 2) (data example_packed)).

(** X9. Silence in, silence out: with the exact transform as the engine, the
    forward transform of the all-zero frame writes norm [0] and phase [0] in
    every bin, for every window size and on both builds. *)
Theorem zero_frame_zero_spectrum c N s input spectrum :
  0 < N < uint_modulus -> fft_ok c N s ->
  packed_ok N input -> data input = repeat 0%R (Z.to_nat N) ->
  polar_ok N spectrum ->
  exists s' sp,
    aubio_fft_do c dft_engine s input spectrum = Some (s', sp) /\
    norm sp = repeat 0%R (Z.to_nat (N / 2 + 1)) /\
    phas sp = repeat 0%R (Z.to_nat (N / 2 + 1)).
Proof.
  intros HN Hs Hi Hz Hsp.
  do 2 eexists. split; [now apply (aubio_fft_do_result c dft_engine N)|].
  rewrite do_result_bins by (try lia; intros _; apply hc_consistent_dft).
  cbn [norm phas fftw_r2c dft_engine]. rewrite Hz.
  split; (etransitivity; [|apply ztab_const]); apply ztab_ext; intros k _;
    rewrite dft_zero; apply bin_zero.
Qed.

Lemma zero_frame_zero_spectrum_witness :
  exists s' sp,
    aubio_fft_do true dft_engine example_fft example_output example_spectrum
      = Some (s', sp) /\
    norm sp = repeat 0%R (Z.to_nat (4 / 2 + 1)) /\
    phas sp = repeat 0%R (Z.to_nat (4 / 2 + 1)).
Proof.
  apply (zero_frame_zero_spectrum true 4 example_fft example_output
           example_spectrum).
  - split; reflexivity.
  - repeat split; try reflexivity. eexists; split; reflexivity.
  - split; reflexivity.
  - reflexivity.
  - split; [split|]; reflexivity.
Defined.

(** X10. A spectrum whose norms are all zero gives the all-zero frame under
    [aubio_fft_rdo], whatever its phases, for every window size and on both
    builds (exact transform as the engine). *)
Theorem zero_norms_zero_frame c N s spectrum output :
  0 < N -> N + 1 < uint_modulus -> fft_ok c N s ->
  polar_ok N spectrum ->
  norm spectrum = repeat 0%R (Z.to_nat (N / 2 + 1)) ->
  packed_ok N output ->
  exists s' o,
    aubio_fft_rdo c dft_engine s spectrum output = Some (s', o) /\
    fvec_length o = N /\
    data o = repeat 0%R (Z.to_nat N).
Proof.
  intros HN HN1 Hs Hsp Hz Ho.
  do 2 eexists.
  split; [apply (aubio_fft_rdo_spec c dft_engine N); auto; lia|].
  cbn [data set_data fvec_length]. split; [apply Ho|].
  assert (HP : rdo_packed N spectrum = repeat 0%R (Z.to_nat N)).
  { unfold rdo_packed. etransitivity; [|apply ztab_const].
    apply ztab_ext; intros i _.
    unfold packed_at. rewrite Hz, !dget_repeat_zero.
    destruct (i <=? N / 2); ring. }
  assert (Hbins : forall n (f : Z -> fftw_complex),
            (forall k, f k = (0, 0)%R) ->
            forall k, nth k (ztab n f) (0, 0)%R = (0, 0)%R).
  { intros n f Hf k.
    rewrite (ztab_ext n f (fun _ => (0, 0)%R)) by (intros; apply Hf).
    rewrite ztab_const.
    destruct (Nat.lt_ge_cases k (Z.to_nat n)).
    - now apply nth_repeat_lt.
    - apply nth_overflow. now rewrite repeat_length. }
  unfold rdo_frame. rewrite HP.
  etransitivity; [|apply ztab_const].
  apply ztab_ext; intros j Hj.
  unfold backward_out. rewrite dget_ztab by assumption.
  destruct c; cbn [dft_engine fftw_c2r fftw_hc2r]; unfold dft_hc2r, hc_bins;
    rewrite dft_c2r_zero; try ring; apply Hbins; intros k.
  - unfold unpack_complex.
    destruct ((k =? N / 2) || (k =? 0));
      unfold of_real, of_real_imag; now rewrite !dget_repeat_zero.
  - rewrite !dget_repeat_zero.
    destruct ((k =? 0) || (2 * k =? N)); reflexivity.
Qed.

Lemma zero_norms_zero_frame_witness :
  exists s' o,
    aubio_fft_rdo true dft_engine example_fft example_spectrum example_packed
      = Some (s', o) /\
    fvec_length o = 4 /\
    data o = repeat 0%R (Z.to_nat 4).
Proof.
  apply (zero_norms_zero_frame true 4 example_fft example_spectrum
           example_packed).
  - reflexivity.
  - reflexivity.
  - repeat split; try reflexivity. eexists; split; reflexivity.
  - split; [split|]; reflexivity.
  - reflexivity.
  - split; reflexivity.
Defined.

(** X11. The unit impulse has a flat spectrum: with the exact transform as
    the engine, the forward transform of [1, 0, ..., 0] writes norm [1] and
    phase [0] in every bin, for every window size and on both builds. *)
Theorem impulse_flat_spectrum c N s input spectrum :
  0 < N < uint_modulus -> fft_ok c N s ->
  packed_ok N input -> data input = impulse N ->
  polar_ok N spectrum ->
  exists s' sp,
    aubio_fft_do c dft_engine s input spectrum = Some (s', sp) /\
    norm sp = repeat 1%R (Z.to_nat (N / 2 + 1)) /\
    phas sp = repeat 0%R (Z.to_nat (N / 2 + 1)).
Proof.
  intros HN Hs Hi Himp Hsp.
  do 2 eexists. split; [now apply (aubio_fft_do_result c dft_engine N)|].
  rewrite do_result_bins by (try lia; intros _; apply hc_consistent_dft).
  cbn [norm phas fftw_r2c dft_engine]. rewrite Himp.
  split; (etransitivity; [|apply ztab_const]); apply ztab_ext; intros k _;
    rewrite dft_impulse by lia; apply bin_one.
Qed.

Lemma impulse_flat_spectrum_witness :
  exists s' sp,
    aubio_fft_do true dft_engine example_fft example_frame example_spectrum
      = Some (s', sp) /\
    norm sp = repeat 1%R (Z.to_nat (4 / 2 + 1)) /\
    phas sp = repeat 0%R (Z.to_nat (4 / 2 + 1)).
Proof.
  apply (impulse_flat_spectrum true 4 example_fft example_frame
           example_spectrum).
  - split; reflexivity.
  - repeat split; try reflexivity. eexists; split; reflexivity.
  - split; reflexivity.
  - reflexivity.
  - split; [split|]; reflexivity.
Defined.

(** X12. Gain: with the exact transform as the engine, multiplying every
    sample of the frame by [a > 0] multiplies every norm by [a] and leaves
    every phase as it is. *)
Theorem positive_gain c N s s' a input scaled spectrum :
  (0 < a)%R -> 0 < N < uint_modulus ->
  fft_ok c N s -> fft_ok c N s' ->
  packed_ok N input -> packed_ok N scaled ->
  data scaled = map (Rmult a) (data input) ->
  polar_ok N spectrum ->
  exists s1 sp s2 sp',
    aubio_fft_do c dft_engine s input spectrum = Some (s1, sp) /\
    aubio_fft_do c dft_engine s' scaled spectrum = Some (s2, sp') /\
    norm sp' = map (Rmult a) (norm sp) /\
    phas sp' = phas sp.
Proof.
  intros Ha HN Hs Hs' Hi Hsc Hd Hsp.
  do 4 eexists.
  split; [now apply (aubio_fft_do_result c dft_engine N)|].
  split; [now apply (aubio_fft_do_result c dft_engine N)|].
  rewrite !do_result_bins by (try lia; intros _; apply hc_consistent_dft).
  cbn [norm phas fftw_r2c dft_engine]. rewrite Hd. split.
  - rewrite map_ztab. apply ztab_ext; intros k _.
    rewrite dft_scale. now apply bin_norm_scale.
  - apply ztab_ext; intros k _.
    rewrite dft_scale. now apply bin_phas_scale.
Qed.

Lemma positive_gain_witness :
  exists s1 sp s2 sp',
    aubio_fft_do true dft_engine example_fft example_packed example_spectrum
      = Some (s1, sp) /\
    aubio_fft_do true dft_engine example_fft example_scaled example_spectrum
      = Some (s2, sp') /\
    norm sp' = map (Rmult 2) (norm sp) /\
    phas sp' = phas sp.
Proof.
  apply (positive_gain true 4 example_fft example_fft 2 example_packed
           example_scaled example_spectrum).
  - lra.
  - split; reflexivity.
  - repeat split; try reflexivity. eexists; split; reflexivity.
  - repeat split; try reflexivity. eexists; split; reflexivity.
  - split; reflexivity.
  - split; reflexivity.
  - reflexivity.
  - split; [split|]; reflexivity.
Defined.

(** X13. The two real bins: with the exact transform as the engine and an
    even [N], bin [0] carries the sum of the samples and bin [N/2] their
    alternating sum: the norm is the absolute value, the phase is [PI] when
    the sum is negative and [0] otherwise. *)
Theorem dc_and_nyquist_sums c N s input spectrum :
  even_window N -> fft_ok c N s ->
  packed_ok N input -> polar_ok N spectrum ->
  exists s' sp,
    aubio_fft_do c dft_engine s input spectrum = Some (s', sp) /\
    aget (norm sp) 0 = Some (Rabs (sum_samples N (data input))) /\
    aget (phas sp) 0 = Some (sign_phas (sum_samples N (data input))) /\
    aget (norm sp) (N / 2)
      = Some (Rabs (alt_sum_samples N (data input))) /\
    aget (phas sp) (N / 2)
      = Some (sign_phas (alt_sum_samples N (data input))).
Proof.
  intros Hw Hs Hi Hsp.
  destruct (even_window_half N Hw) as [H2 Hhalf]. destruct Hw as [HN Hev].
  do 2 eexists. split; [now apply (aubio_fft_do_result c dft_engine N)|].
  rewrite do_result_bins by (try lia; intros _; apply hc_consistent_dft).
  cbn [norm phas fftw_r2c dft_engine]. rewrite !aget_ztab by lia.
  unfold is_boundary. rewrite !Z.eqb_refl, orb_true_r. cbn [orb].
  unfold bin_norm, bin_phas. rewrite dft_dc.
  replace (REAL (dft_r2c N (data input) (N / 2)))
    with (alt_sum_samples N (data input)).
  - repeat split; reflexivity.
  - symmetry. generalize (dft_nyquist (N / 2) (data input) Hhalf).
    now rewrite <- H2.
Qed.

Lemma dc_and_nyquist_sums_witness :
  exists s' sp,
    aubio_fft_do true dft_engine example_fft example_packed example_spectrum
      = Some (s', sp) /\
    aget (norm sp) 0 = Some (Rabs (sum_samples 4 (data example_packed))) /\
    aget (phas sp) 0
      = Some (sign_phas (sum_samples 4 (data example_packed))) /\
    aget (norm sp) (4 / 2)
      = Some (Rabs (alt_sum_samples 4 (data example_packed))) /\
    aget (phas sp) (4 / 2)
      = Some (sign_phas (alt_sum_samples 4 (data example_packed))).
Proof.
  apply (dc_and_nyquist_sums true 4 example_fft example_packed
           example_spectrum).
  - split; [split|]; reflexivity.
  - repeat split; try reflexivity. eexists; split; reflexivity.
  - split; reflexivity.
  - split; [split|]; reflexivity.
Defined.

(** ** Buffers of the wrong size *)

Lemma for_iter_fail {St : Type} (body : Z -> St -> option St) n lo j0
  (s : St) :
  lo <= j0 < lo + Z.of_nat n -> (forall t, body j0 t = None) ->
  for_iter n lo body s = None.
Proof.
  revert lo s; induction n as [|n IH]; intros lo s Hj Hfail; [lia|].
  cbn [for_iter]. destruct (Z.eq_dec lo j0) as [->|Hne].
  - now rewrite Hfail.
  - destruct (body lo s); [|reflexivity]. apply IH; [lia|assumption].
Qed.

(** A loop one iteration of which fails whatever the state. *)
Lemma for_loop_fail {St : Type} (body : Z -> St -> option St) lo hi j0
  (s : St) :
  lo <= j0 < hi -> (forall t, body j0 t = None) ->
  for_loop lo hi body s = None.
Proof.
  intros Hj Hfail. unfold for_loop.
  apply (for_iter_fail body _ lo j0); [lia|assumption].
Qed.

Lemma for_iter_ext {St : Type} (body body' : Z -> St -> option St) n lo
  (s : St) :
  (forall j t, lo <= j < lo + Z.of_nat n -> body j t = body' j t) ->
  for_iter n lo body s = for_iter n lo body' s.
Proof.
  revert lo s; induction n as [|n IH]; intros lo s H; [reflexivity|].
  cbn [for_iter]. rewrite H by lia.
  destruct (body' lo s); [|reflexivity]. apply IH.
  intros j t Hj; apply H; lia.
Qed.

Lemma for_loop_ext {St : Type} (body body' : Z -> St -> option St) lo hi
  (s : St) :
  (forall j t, lo <= j < hi -> body j t = body' j t) ->
  for_loop lo hi body s = for_loop lo hi body' s.
Proof.
  intros H. unfold for_loop. apply for_iter_ext.
  intros j t Hj; apply H; lia.
Qed.

Lemma aget_firstn {A : Type} (l : list A) n j :
  0 <= j < n -> aget (firstn (Z.to_nat n) l) j = aget l j.
Proof.
  intros Hj. unfold aget, in_bounds. rewrite length_firstn.
  destruct (Z.ltb_spec j (Z.of_nat (length l))) as [Hlt|Hge].
  - replace (j <? Z.of_nat (Nat.min (Z.to_nat n) (length l))) with true
      by (symmetry; apply Z.ltb_lt; lia).
    destruct (0 <=? j); cbn [andb]; [|reflexivity].
    rewrite nth_error_firstn.
    now replace (Z.to_nat j <? Z.to_nat n)%nat with true
      by (symmetry; apply Nat.ltb_lt; lia).
  - replace (j <? Z.of_nat (Nat.min (Z.to_nat n) (length l))) with false
      by (symmetry; apply Z.ltb_ge; lia).
    now rewrite andb_false_r.
Qed.

Lemma firstn_ztab {A : Type} L N (f : Z -> A) :
  0 <= L <= N -> firstn (Z.to_nat L) (ztab N f) = ztab L f.
Proof.
  intros H. apply eq_ztab.
  - rewrite length_firstn, length_ztab. lia.
  - intros i Hi. rewrite aget_firstn by assumption. apply aget_ztab; lia.
Qed.

(** The first [N] samples of a frame, as a frame of [N] samples. *)
Definition truncate (N : Z) (input : fvec_t) : fvec_t :=
  mk_fvec N (firstn (Z.to_nat N) (data input)).

Definition long_frame : fvec_t := mk_fvec 6 [1; 2; 3; 4; 5; 6]%R.
Definition short_frame : fvec_t := mk_fvec 2 [1; 2]%R.

(** X14. [aubio_fft_do] never looks at the length of its input: it reads
    exactly [winsize] samples.  A frame with fewer samples makes it read out
    of bounds (no defined behaviour); of a frame with more samples only the
    first [winsize] count. *)
Theorem input_frame_length c E N s input spectrum :
  0 < N < uint_modulus -> fft_ok c N s -> polar_ok N spectrum ->
  (Z.of_nat (length (data input)) < N ->
     aubio_fft_do c E s input spectrum = None) /\
  (N <= Z.of_nat (length (data input)) ->
     aubio_fft_do c E s input spectrum
     = aubio_fft_do c E s (truncate N input) spectrum /\
     aubio_fft_do c E s input spectrum
     = Some (after_do c E N s (data (truncate N input)),
             do_result c E N (data (truncate N input)))).
Proof.
  intros HN Hs Hsp. pose proof Hs as (Hw & _). split.
  - intros Hshort. unfold aubio_fft_do, aubio_fft_do_complex.
    rewrite (for_loop_fail _ 0 (winsize s)
               (Z.of_nat (length (data input)))); [reflexivity|lia|].
    intros t.
    assert (Hout : aget (data input) (Z.of_nat (length (data input))) = None).
    { unfold aget, in_bounds. now rewrite Z.ltb_irrefl, andb_false_r. }
    now rewrite Hout.
  - intros Hlong.
    assert (Heq : aubio_fft_do c E s input spectrum
                  = aubio_fft_do c E s (truncate N input) spectrum).
    { unfold aubio_fft_do, aubio_fft_do_complex.
      rewrite (for_loop_ext _
        (fun j i => x <- aget (data (truncate N input)) j ;; aset i j x)).
      - reflexivity.
      - intros j t Hj. cbn [truncate data].
        rewrite aget_firstn by lia. reflexivity. }
    split; [exact Heq|]. rewrite Heq.
    apply (aubio_fft_do_result c E N); auto.
    split; [red|]; cbn [truncate data fvec_length]; auto.
    rewrite length_firstn. lia.
Qed.

Lemma input_frame_length_witness :
  aubio_fft_do true dft_engine example_fft short_frame example_spectrum
  = None /\
  aubio_fft_do true dft_engine example_fft long_frame example_spectrum
  = Some (after_do true dft_engine 4 example_fft
            (data (truncate 4 long_frame)),
          do_result true dft_engine 4 (data (truncate 4 long_frame))).
Proof.
  assert (HN : 0 < 4 < uint_modulus) by (split; reflexivity).
  assert (Hs : fft_ok true 4 example_fft).
  { repeat split; try reflexivity. eexists; split; reflexivity. }
  assert (Hsp : polar_ok 4 example_spectrum)
    by (split; [split|]; reflexivity).
  split.
  - apply (proj1 (input_frame_length true dft_engine 4 example_fft
                    short_frame example_spectrum HN Hs Hsp)).
    reflexivity.
  - apply (proj2 (input_frame_length true dft_engine 4 example_fft
                    long_frame example_spectrum HN Hs Hsp)).
    discriminate.
Defined.

(** What [aubio_fft_rdo_complex] does before it writes its output, and the
    loop that writes it. *)
Lemma aubio_fft_rdo_complex_output c E N s cs output :
  0 < N < uint_modulus -> fft_ok c N s -> packed_ok N cs ->
  aubio_fft_rdo_complex c E s cs output =
  (o <- for_loop 0 (fvec_length output) (fun j o =>
          x <- aget (backward_out c E N (data cs)) j ;;
          aset o j (x * (1 / IZR N))%R) (data output) ;;
   Some (set_out (set_specdata s (backward_data c N (data cs)))
           (backward_out c E N (data cs)),
         set_data output o)).
Proof.
  intros HN Hs Hcs. pose proof Hs as (Hw & _).
  pose proof (aubio_fft_rdo_complex_spec c E N HN s cs (new_fvec N) Hs Hcs)
    as Hfull.
  assert (Hnew : packed_ok N (new_fvec N)).
  { split; [red|]; cbn; [rewrite repeat_length; lia|reflexivity]. }
  specialize (Hfull Hnew).
  unfold aubio_fft_rdo_complex in Hfull |- *.
  match type of Hfull with
  | bind ?m _ = _ => destruct m as [sd|]; [|discriminate Hfull]
  end.
  cbn [bind] in Hfull |- *.
  match type of Hfull with
  | bind ?m _ = _ => destruct m as [s2|]; [|discriminate Hfull]
  end.
  cbn [bind] in Hfull |- *.
  match type of Hfull with
  | bind ?m _ = _ => destruct m as [o|]; [|discriminate Hfull]
  end.
  cbn [bind] in Hfull. injection Hfull as -> _.
  cbn [out set_out]. rewrite Hw. reflexivity.
Qed.

(** X15. [aubio_fft_rdo] writes as many samples as its output buffer has:
    into a buffer of [L <= winsize] samples it writes the first [L] samples
    of the frame; a buffer longer than [winsize] makes it read [s->out] out
    of bounds (no defined behaviour). *)
Theorem output_frame_length c E N s spectrum output :
  0 < N -> N + 1 < uint_modulus ->
  fft_ok c N s -> polar_ok N spectrum -> fvec_wf output ->
  (fvec_length output <= N ->
     aubio_fft_rdo c E s spectrum output
     = Some (after_rdo c E N s spectrum,
             set_data output
               (firstn (Z.to_nat (fvec_length output))
                  (rdo_frame c E N spectrum)))) /\
  (N < fvec_length output ->
     aubio_fft_rdo c E s spectrum output = None).
Proof.
  intros HN HN1 Hs Hsp Ho. red in Ho.
  pose proof Hs as (Hw & Hin & Hout & Hcs & Hmode).
  assert (HN' : 0 < N < uint_modulus) by lia.
  assert (Hs' : fft_ok c N
            (set_compspec s (set_data (compspec s) (rdo_packed N spectrum)))).
  { repeat split; try assumption.
    - red; cbn. unfold rdo_packed. rewrite length_ztab.
      destruct Hcs as [_ Hl]. lia.
    - apply Hcs. }
  assert (Hcs' : packed_ok N (set_data (compspec s) (rdo_packed N spectrum)))
    by (apply packed_ok_ztab; assumption).
  assert (Hstart : aubio_fft_rdo c E s spectrum output =
    (o <- for_loop 0 (fvec_length output) (fun j o =>
            x <- aget (backward_out c E N (rdo_packed N spectrum)) j ;;
            aset o j (x * (1 / IZR N))%R) (data output) ;;
     Some (after_rdo c E N s spectrum, set_data output o))).
  { unfold aubio_fft_rdo.
    rewrite (aubio_fft_get_realimag_spec N) by (auto; lia).
    cbn [bind compspec set_compspec].
    rewrite (aubio_fft_rdo_complex_output c E N) by assumption.
    cbn [data set_data].
    destruct (for_loop 0 (fvec_length output) _ (data output));
      reflexivity. }
  rewrite Hstart.
  assert (Hlb : Z.of_nat (length (backward_out c E N (rdo_packed N spectrum)))
                = N) by (unfold backward_out; rewrite length_ztab; lia).
  split.
  - intros HL.
    destruct (for_loop_store (fun j => j)
      (fun j => (dget (backward_out c E N (rdo_packed N spectrum)) j
                 * (1 / IZR N))%R)
      (fun j o =>
         x <- aget (backward_out c E N (rdo_packed N spectrum)) j ;;
         aset o j (x * (1 / IZR N))%R) 0 (fvec_length output) (data output))
      as (o' & Hloop & Hl & Hwr & _); try lia.
    { intros j b Hj Hb. rewrite (aget_dget _ j) by lia. reflexivity. }
    rewrite Hloop; cbn [bind]. do 3 f_equal.
    unfold rdo_frame. rewrite firstn_ztab by lia.
    apply eq_ztab; [lia|assumption].
  - intros HL.
    rewrite (for_loop_fail _ 0 (fvec_length output) N); [reflexivity|lia|].
    intros t.
    assert (Hnone : aget (backward_out c E N (rdo_packed N spectrum)) N
                    = None).
    { unfold aget, in_bounds. rewrite Hlb.
      now rewrite Z.ltb_irrefl, andb_false_r. }
    now rewrite Hnone.
Qed.

Lemma output_frame_length_witness :
  aubio_fft_rdo true dft_engine example_fft example_spectrum short_frame
  = Some (after_rdo true dft_engine 4 example_fft example_spectrum,
          set_data short_frame
            (firstn (Z.to_nat (fvec_length short_frame))
               (rdo_frame true dft_engine 4 example_spectrum))) /\
  aubio_fft_rdo true dft_engine example_fft example_spectrum long_frame
  = None.
Proof.
  assert (Hs : fft_ok true 4 example_fft).
  { repeat split; try reflexivity. eexists; split; reflexivity. }
  assert (Hsp : polar_ok 4 example_spectrum)
    by (split; [split|]; reflexivity).
  split.
  - apply (proj1 (output_frame_length true dft_engine 4 example_fft
                    example_spectrum short_frame eq_refl eq_refl Hs Hsp
                    eq_refl)).
    discriminate.
  - apply (proj2 (output_frame_length true dft_engine 4 example_fft
                    example_spectrum long_frame eq_refl eq_refl Hs Hsp
                    eq_refl)).
    reflexivity.
Defined.

(** ** Objects from construction to destruction *)

(** X16. An object built for a window size the planner accepts serves any
    sequence of forward and inverse requests with buffers of matching sizes:
    every request runs (no access out of bounds, no null plan), and the
    object keeps its shape, its window size and its two plans. *)
Theorem constructed_object_serves c E N s calls rs :
  0 < N -> N + 1 < uint_modulus -> fftw_accepts E N = true ->
  new_aubio_fft c E N = Some (s, calls) ->
  Forall (request_ok N) rs ->
  exists s',
    serve c E s rs = Some s' /\
    fft_ok c N s' /\
    winsize s' = winsize s /\ fft_size s' = fft_size s /\
    pfw s' = pfw s /\ pbw s' = pbw s.
Proof.
  intros HN HN1 Hacc Hnew Hrs.
  rewrite new_aubio_fft_spec in Hnew by lia. injection Hnew as <- _.
  pose proof (fft_ok_new_object c E N HN Hacc) as Hok.
  destruct (serve_ok c E N _ rs HN HN1 Hok Hrs) as (s' & Hs' & Hok').
  exists s'. split; [assumption|]. split; [assumption|].
  destruct Hok as (Hw & _ & _ & _ & Hm).
  destruct Hok' as (Hw' & _ & _ & _ & Hm').
  destruct c; destruct Hm as (Hfs & Hpf & Hpb & _);
    destruct Hm' as (Hfs' & Hpf' & Hpb' & _);
    repeat split; congruence.
Qed.

Lemma constructed_object_serves_witness :
  exists s',
    serve true dft_engine example_fft
      [Forward example_frame example_spectrum;
       Inverse example_polar example_output;
       Forward example_packed example_polar] = Some s' /\
    fft_ok true 4 s' /\
    winsize s' = winsize example_fft /\
    fft_size s' = fft_size example_fft /\
    pfw s' = pfw example_fft /\ pbw s' = pbw example_fft.
Proof.
  apply (constructed_object_serves true dft_engine 4 example_fft
           (new_calls true 4)).
  - reflexivity.
  - reflexivity.
  - reflexivity.
  - reflexivity.
  - repeat constructor.
Defined.

(** X17. A packed vector of length zero is outside the conversions: each of
    them reads or writes entry [0] whatever the length, so on an empty
    vector none has a defined behaviour. *)
Theorem empty_packed_vector compspec spectrum :
  data compspec = [] -> fvec_length compspec = 0 ->
  aubio_fft_get_phas compspec spectrum = None /\
  aubio_fft_get_norm compspec spectrum = None /\
  aubio_fft_get_spectrum compspec spectrum = None /\
  aubio_fft_get_real spectrum compspec = None /\
  aubio_fft_get_realimag spectrum compspec = None.
Proof.
  intros Hd Hl.
  assert (Hp : aubio_fft_get_phas compspec spectrum = None)
    by (unfold aubio_fft_get_phas; rewrite Hd; reflexivity).
  assert (Hn : aubio_fft_get_norm compspec spectrum = None)
    by (unfold aubio_fft_get_norm; rewrite Hd; reflexivity).
  assert (Hr : forall cs, data cs = [] -> fvec_length cs = 0 ->
            aubio_fft_get_real spectrum cs = None).
  { intros cs Hcd Hcl. unfold aubio_fft_get_real. rewrite Hcd, Hcl.
    change (uadd (udiv 0 2) 1) with 1.
    unfold for_loop. change (Z.to_nat (1 - 0)) with 1%nat. cbn [for_iter].
    destruct (aget (norm spectrum) 0); [|reflexivity].
    destruct (aget (phas spectrum) 0); reflexivity. }
  split; [assumption|]. split; [assumption|].
  split; [unfold aubio_fft_get_spectrum; now rewrite Hp|].
  split; [now apply Hr|].
  unfold aubio_fft_get_realimag, aubio_fft_get_imag. rewrite Hl, Hd.
  change (udiv (uadd 0 1) 2) with 0.
  rewrite for_loop_empty by lia. cbn [bind].
  apply Hr; [reflexivity|exact Hl].
Qed.

Lemma empty_packed_vector_witness :
  aubio_fft_get_phas (new_fvec 0) (new_cvec 0) = None /\
  aubio_fft_get_norm (new_fvec 0) (new_cvec 0) = None /\
  aubio_fft_get_spectrum (new_fvec 0) (new_cvec 0) = None /\
  aubio_fft_get_real (new_cvec 0) (new_fvec 0) = None /\
  aubio_fft_get_realimag (new_cvec 0) (new_fvec 0) = None.
Proof.
  apply (empty_packed_vector (new_fvec 0) (new_cvec 0)); reflexivity.
Defined.

(** X18. Wrap-around in [aubio_fft_get_imag]: for a packed vector of
    [2^32 - 1] entries the bound [(length + 1) / 2] of its loop is computed
    as [0], so the function returns without writing any imaginary part. *)
Theorem get_imag_length_wraps spectrum compspec :
  fvec_length compspec = uint_modulus - 1 ->
  aubio_fft_get_imag spectrum compspec = Some compspec.
Proof.
  intros Hl. unfold aubio_fft_get_imag. rewrite Hl.
  change (udiv (uadd (uint_modulus - 1) 1) 2) with 0.
  rewrite for_loop_empty by lia. cbn [bind].
  destruct compspec; reflexivity.
Qed.

Lemma get_imag_length_wraps_witness :
  aubio_fft_get_imag example_polar (new_fvec (uint_modulus - 1))
  = Some (new_fvec (uint_modulus - 1)).
Proof.
  apply (get_imag_length_wraps example_polar (new_fvec (uint_modulus - 1))).
  reflexivity.
Defined.

(** ** Round trips on the packed vector *)

Section InversionOdd.

Local Open Scope R_scope.

Lemma sin_half_turn n d :
  (0 < n)%Z -> (d <> 0)%Z -> (- n < d < n)%Z -> sin (turn n d / 2) <> 0.
Proof.
  intros Hn Hd Hr. pose proof PI_RGT_0 as HPI.
  assert (Hn' : 0 < IZR n) by (apply IZR_lt; lia).
  assert (Hhalf : turn n d / 2 = IZR d * (PI / IZR n))
    by (unfold turn; field; lra).
  assert (Hq : 0 < PI / IZR n) by (apply Rdiv_lt_0_compat; lra).
  assert (Hfull : IZR n * (PI / IZR n) = PI) by (field; lra).
  rewrite Hhalf. set (q := PI / IZR n) in *.
  assert (Hlt : - IZR n < IZR d < IZR n).
  { rewrite <- opp_IZR. split; apply IZR_lt; lia. }
  destruct (Z_lt_le_dec 0 d) as [Hpos|Hneg].
  - assert (0 < IZR d) by (apply IZR_lt; lia).
    apply Rgt_not_eq, sin_gt_0; nra.
  - assert (IZR d < 0) by (apply IZR_lt; lia).
    apply Rlt_not_eq, sin_lt_0_var; nra.
Qed.

(** The kernel of the round trip for an odd [n = 2 M + 1]. *)
Definition kernel_odd (n d : Z) : R :=
  1 + rsum (Z.to_nat ((n - 1) / 2))
        (fun k => 2 * cos (IZR (Z.of_nat k + 1) * turn n d)).

Lemma kernel_odd_at_zero M :
  (0 <= M)%Z -> kernel_odd (2 * M + 1) 0 = IZR (2 * M + 1).
Proof.
  intros HM. unfold kernel_odd. rewrite turn_zero.
  rewrite (rsum_ext _ _ (fun _ => 2)).
  2:{ intros i _. rewrite Rmult_0_r, cos_0. ring. }
  rewrite rsum_const.
  replace ((2 * M + 1 - 1) / 2)%Z with M by lia.
  rewrite INR_IZR_INZ, Z2Nat.id by lia.
  rewrite plus_IZR, mult_IZR. ring.
Qed.

Lemma kernel_odd_off_zero M d :
  (0 <= M)%Z -> (d <> 0)%Z -> (- (2 * M + 1) < d < 2 * M + 1)%Z ->
  kernel_odd (2 * M + 1) d = 0.
Proof.
  intros HM Hd Hr. unfold kernel_odd.
  replace ((2 * M + 1 - 1) / 2)%Z with M by lia.
  set (phi := turn (2 * M + 1) d).
  assert (Hsin : sin (phi / 2) <> 0) by (apply sin_half_turn; lia).
  apply (Rmult_eq_reg_l (sin (phi / 2))); [|assumption].
  rewrite Rmult_0_r, dirichlet_kernel.
  rewrite INR_IZR_INZ, Z2Nat.id by lia.
  replace ((IZR M + 1 / 2) * phi) with (IZR d * PI).
  - apply sin_int_PI.
  - unfold phi, turn. rewrite plus_IZR, mult_IZR.
    assert (2 * IZR M + 1 <> 0).
    { assert (0 <= IZR M) by (apply IZR_le; lia). lra. }
    field. assumption.
Qed.

(** The inverse transform undoes the forward one up to the factor [n], for
    an odd [n = 2 M + 1]; only the real part of bin [0] is looked at. *)
Lemma dft_inversion_odd M (x : list R) (X : list fftw_complex) m :
  (0 <= M)%Z -> (0 <= m < 2 * M + 1)%Z ->
  (forall k, (0 <= k <= M)%Z ->
     REAL (nth (Z.to_nat k) X (0, 0)) = REAL (dft_r2c (2 * M + 1) x k)) ->
  (forall k, (1 <= k <= M)%Z ->
     IMAG (nth (Z.to_nat k) X (0, 0)) = IMAG (dft_r2c (2 * M + 1) x k)) ->
  dft_c2r (2 * M + 1) X m = IZR (2 * M + 1) * dget x m.
Proof.
  intros HM Hm Hre Him. unfold dft_c2r.
  replace (Z.even (2 * M + 1)) with false
    by (symmetry; rewrite Z.even_add, Z.even_mul; reflexivity).
  replace ((2 * M + 1 - 1) / 2)%Z with M by lia.
  set (n := (2 * M + 1)%Z) in *.
  assert (H0 : REAL (nth (Z.to_nat 0) X (0, 0))
     = rsum (Z.to_nat n) (fun j => dget x (Z.of_nat j) * 1)).
  { rewrite Hre by lia. unfold dft_r2c; cbn [REAL fst].
    apply rsum_ext; intros j _.
    now rewrite Z.mul_0_r, turn_zero, cos_0. }
  assert (Hmid : rsum (Z.to_nat M)
       (fun k' =>
          2 * (REAL (nth (Z.to_nat (Z.of_nat k' + 1)) X (0, 0))
                 * cos (turn n ((Z.of_nat k' + 1) * m))
               - IMAG (nth (Z.to_nat (Z.of_nat k' + 1)) X (0, 0))
                 * sin (turn n ((Z.of_nat k' + 1) * m))))
     = rsum (Z.to_nat n) (fun j => dget x (Z.of_nat j)
         * rsum (Z.to_nat M) (fun k' =>
             2 * cos (IZR (Z.of_nat k' + 1) * turn n (Z.of_nat j - m))))).
  { rewrite (rsum_ext _ _ (fun k' =>
       rsum (Z.to_nat n) (fun j => dget x (Z.of_nat j)
         * (2 * cos (IZR (Z.of_nat k' + 1) * turn n (Z.of_nat j - m)))))).
    - rewrite rsum_swap. apply rsum_ext; intros j _.
      now rewrite <- rsum_scal.
    - intros k' Hk'. rewrite Hre, Him by lia. apply bin_contribution. }
  rewrite H0, Hmid, Rplus_0_r, <- rsum_plus.
  rewrite (rsum_ext _ _ (fun j =>
     dget x (Z.of_nat j) * kernel_odd n (Z.of_nat j - m))).
  2:{ intros j _. unfold kernel_odd.
      replace ((n - 1) / 2)%Z with M by lia. ring. }
  rewrite (rsum_single (Z.to_nat n) (Z.to_nat m)).
  - rewrite Z2Nat.id, Z.sub_diag by lia.
    unfold n. rewrite kernel_odd_at_zero by assumption. ring.
  - lia.
  - intros j Hj Hne. unfold n. rewrite kernel_odd_off_zero by lia. ring.
Qed.

End InversionOdd.

Lemma fft_ok_after_do_complex c E N s x :
  0 < N -> fft_ok c N s -> Z.of_nat (length x) = N ->
  fft_ok c N (set_specdata (set_in s x) (forward_data c E N x)).
Proof.
  intros HN (Hw & Hin & Hout & Hcs & Hmode) Hx.
  assert (Hh : 0 <= N / 2) by (apply Z.div_pos; lia).
  unfold fft_ok.
  cbn [winsize in_ out compspec fft_size pfw pbw specdata
       set_specdata set_in].
  split; [assumption|]. split; [assumption|]. split; [assumption|].
  split; [assumption|].
  unfold forward_data. destruct c;
    destruct Hmode as (Hfs & Hpfw & Hpbw & d & Hsd & Hd);
    (split; [assumption|]); (split; [assumption|]); (split; [assumption|]);
    eexists; (split; [reflexivity|]); rewrite length_ztab; lia.
Qed.

(** The backward plan of the exact engine on the packed vector of the
    forward one, on the build without complex.h and for an odd [N]. *)
Lemma backward_forward_odd N (x old : list R) m :
  0 < N -> Z.odd N = true -> 0 <= m < N ->
  dget (backward_out false dft_engine N
          (ztab N (do_complex_at false dft_engine N x old))) m
  = (IZR N * dget x m)%R.
Proof.
  intros HN Hodd Hm.
  assert (H2 : N = 2 * (N / 2) + 1).
  { rewrite Z.odd_spec in Hodd. destruct Hodd as [q ->].
    replace ((2 * q + 1) / 2) with q by lia. reflexivity. }
  set (M := N / 2) in *.
  assert (HM : 0 <= M) by lia.
  unfold backward_out. rewrite dget_ztab by assumption.
  cbn [dft_engine fftw_hc2r]. unfold dft_hc2r, hc_bins.
  assert (Hd : forall i, 0 <= i < N ->
            dget (ztab N (do_complex_at false dft_engine N x old)) i
            = if i <=? M then REAL (dft_r2c N x i)
              else IMAG (dft_r2c N x (N - i))).
  { intros i Hi. rewrite dget_ztab by assumption. reflexivity. }
  pose proof (dft_inversion_odd M x
    (ztab (M + 1) (fun k =>
       (dget (ztab N (do_complex_at false dft_engine N x old)) k,
        if (k =? 0) || (2 * k =? N) then 0%R
        else dget (ztab N (do_complex_at false dft_engine N x old)) (N - k))))
    m HM) as Hinv.
  rewrite <- H2 in Hinv. apply Hinv; [lia| |].
  - intros k Hk. fold M. rewrite nth_ztab by lia.
    cbn [REAL fst]. rewrite Hd by lia.
    now rewrite (proj2 (Z.leb_le _ _)) by lia.
  - intros k Hk. fold M. rewrite nth_ztab by lia.
    cbn [IMAG snd].
    destruct (Z.eqb_spec k 0); [lia|]. destruct (Z.eqb_spec (2 * k) N); [lia|].
    cbn [orb]. rewrite Hd by lia.
    rewrite (proj2 (Z.leb_gt _ _)) by lia. do 2 f_equal; lia.
Qed.

(** X19. Round trip on the packed vector: with the exact transform as the
    engine, [aubio_fft_do_complex] followed by [aubio_fft_rdo_complex] gives
    the frame back for every window size on the build without complex.h,
    and for every even window size on the build with complex.h. *)
Theorem packed_round_trip c N s input cs output :
  (c = true -> Z.even N = true) ->
  0 < N < uint_modulus -> fft_ok c N s ->
  packed_ok N input -> packed_ok N cs -> packed_ok N output ->
  exists s1 cs1 s2 o,
    aubio_fft_do_complex c dft_engine s input cs = Some (s1, cs1) /\
    aubio_fft_rdo_complex c dft_engine s1 cs1 output = Some (s2, o) /\
    data o = data input.
Proof.
  intros Hc HN Hs Hi Hcs Ho.
  pose proof Hi as [Hiwf Hilen]. red in Hiwf.
  do 4 eexists.
  split; [now apply (aubio_fft_do_complex_spec c dft_engine N)|].
  split.
  { apply (aubio_fft_rdo_complex_spec c dft_engine N); auto.
    - apply fft_ok_after_do_complex; auto; lia.
    - apply packed_ok_ztab; assumption. }
  cbn [data set_data].
  transitivity (ztab N (dget (data input))); [|apply ztab_dget; lia].
  apply ztab_ext; intros j Hj.
  assert (Hbf : dget (backward_out c dft_engine N
                  (ztab N (do_complex_at c dft_engine N (data input)
                             (data cs)))) j
                = (IZR N * dget (data input) j)%R).
  { destruct (Z.even N) eqn:Hev.
    - apply backward_forward; [split|]; assumption.
    - destruct c; [specialize (Hc eq_refl); discriminate|].
      apply backward_forward_odd; try lia.
      now rewrite <- Z.negb_even, Hev. }
  rewrite Hbf. field. apply not_0_IZR; lia.
Qed.

Lemma packed_round_trip_witness :
  exists s1 cs1 s2 o,
    aubio_fft_do_complex false dft_engine (new_object false dft_engine 3)
      odd_frame odd_output = Some (s1, cs1) /\
    aubio_fft_rdo_complex false dft_engine s1 cs1 odd_output
      = Some (s2, o) /\
    data o = data odd_frame.
Proof.
  apply (packed_round_trip false 3 (new_object false dft_engine 3)
           odd_frame odd_output odd_output).
  - discriminate.
  - split; reflexivity.
  - repeat split; try reflexivity. eexists; split; reflexivity.
  - split; reflexivity.
  - split; reflexivity.
  - split; reflexivity.
Defined.

(** ** The inverse transform and its spectrum *)

Lemma dget_map_in (f : R -> R) (l : list R) k :
  0 <= k < Z.of_nat (length l) -> dget (map f l) k = f (dget l k).
Proof.
  intros Hk. unfold dget.
  rewrite (nth_indep (map f l) 0%R (f 0%R)) by (rewrite length_map; lia).
  apply map_nth.
Qed.

Definition example_polar_turned : cvec_t :=
  mk_cvec 3 (norm example_polar)
    (map (fun p => (p + 2 * PI)%R) (phas example_polar)).

Definition example_polar_scaled : cvec_t :=
  mk_cvec 3 (map (Rmult 2) (norm example_polar)) (phas example_polar).

(** X20. Phases count modulo a full turn: adding [2 PI] to every phase of a
    spectrum does not change the frame written by [aubio_fft_rdo], whatever
    the engine and the build. *)
Theorem phase_full_turn c E N s s' spectrum turned output :
  0 < N -> N + 1 < uint_modulus ->
  fft_ok c N s -> fft_ok c N s' ->
  polar_ok N spectrum -> polar_ok N turned ->
  norm turned = norm spectrum ->
  phas turned = map (fun p => (p + 2 * PI)%R) (phas spectrum) ->
  packed_ok N output ->
  exists s1 s2 o,
    aubio_fft_rdo c E s spectrum output = Some (s1, o) /\
    aubio_fft_rdo c E s' turned output = Some (s2, o).
Proof.
  intros HN HN1 Hs Hs' Hsp Ht Hnorm Hphas Ho.
  pose proof Hsp as [[Hn Hp] Hsl].
  assert (Hh : 0 <= N / 2 < N)
    by (split; [apply Z.div_pos; lia|apply Z.div_lt; lia]).
  do 3 eexists.
  split; [apply (aubio_fft_rdo_spec c E N); auto; lia|].
  rewrite (aubio_fft_rdo_spec c E N) by (auto; lia).
  do 3 f_equal. unfold rdo_frame.
  replace (rdo_packed N turned) with (rdo_packed N spectrum); [reflexivity|].
  unfold rdo_packed. apply ztab_ext; intros i Hi.
  unfold packed_at. rewrite Hnorm, Hphas.
  assert (Hcos : forall p, COS (p + 2 * PI) = COS p)
    by (intros p; unfold COS; rewrite cos_plus, cos_2PI, sin_2PI; ring).
  assert (Hsin : forall p, SIN (p + 2 * PI) = SIN p)
    by (intros p; unfold SIN; rewrite sin_plus, cos_2PI, sin_2PI; ring).
  destruct (Z.leb_spec i (N / 2)).
  - rewrite dget_map_in by lia. now rewrite Hcos.
  - rewrite dget_map_in by lia. now rewrite Hsin.
Qed.

Lemma phase_full_turn_witness :
  exists s1 s2 o,
    aubio_fft_rdo true dft_engine example_fft example_polar example_output
      = Some (s1, o) /\
    aubio_fft_rdo true dft_engine example_fft example_polar_turned
      example_output = Some (s2, o).
Proof.
  apply (phase_full_turn true dft_engine 4 example_fft example_fft
           example_polar example_polar_turned example_output).
  - reflexivity.
  - reflexivity.
  - repeat split; try reflexivity. eexists; split; reflexivity.
  - repeat split; try reflexivity. eexists; split; reflexivity.
  - split; [split|]; reflexivity.
  - split; [split|]; reflexivity.
  - reflexivity.
  - reflexivity.
  - split; reflexivity.
Defined.

Section InverseGain.

Local Open Scope R_scope.

Lemma dft_c2r_scale a n X X' m :
  (forall k, nth k X' (0, 0)
             = (a * REAL (nth k X (0, 0)), a * IMAG (nth k X (0, 0)))) ->
  dft_c2r n X' m = a * dft_c2r n X m.
Proof.
  intros H. unfold dft_c2r. cbv zeta beta. unfold fftw_complex in *.
  rewrite !H. change (REAL (?x, ?y)) with x.
  rewrite (rsum_ext _ _ (fun k' =>
    a * (2 * (REAL (nth (Z.to_nat (Z.of_nat k' + 1)) X (0, 0))
                * cos (turn n ((Z.of_nat k' + 1) * m))
              - IMAG (nth (Z.to_nat (Z.of_nat k' + 1)) X (0, 0))
                * sin (turn n ((Z.of_nat k' + 1) * m)))))).
  - rewrite rsum_scal. destruct (Z.even n); ring.
  - intros k' _. rewrite H.
    change (REAL (?x, ?y)) with x. change (IMAG (?x, ?y)) with y. ring.
Qed.

(** Bins of a table of complex numbers, in or out of range. *)
Lemma nth_ztab_scale a M (f f' : Z -> fftw_complex) k :
  (forall i, f' i = (a * REAL (f i), a * IMAG (f i))) ->
  nth k (ztab M f') (0, 0)
  = (a * REAL (nth k (ztab M f) (0, 0)), a * IMAG (nth k (ztab M f) (0, 0))).
Proof.
  intros Hf. destruct (Nat.lt_ge_cases k (Z.to_nat M)) as [Hk|Hk].
  - rewrite <- (Nat2Z.id k). rewrite !nth_ztab by lia. apply Hf.
  - rewrite !nth_overflow by (rewrite length_ztab; lia).
    cbn [REAL IMAG fst snd]. f_equal; ring.
Qed.

Lemma backward_out_scale c a N d j :
  (0 <= j < N)%Z ->
  dget (backward_out c dft_engine N (map (Rmult a) d)) j
  = a * dget (backward_out c dft_engine N d) j.
Proof.
  intros Hj. unfold backward_out. rewrite !dget_ztab by assumption.
  destruct c; cbn [dft_engine fftw_c2r fftw_hc2r]; unfold dft_hc2r, hc_bins;
    apply dft_c2r_scale; intros k; apply nth_ztab_scale; intros i.
  - unfold unpack_complex.
    destruct ((i =? N / 2) || (i =? 0))%Z;
      unfold of_real, of_real_imag; cbn [REAL IMAG fst snd];
      rewrite !dget_scale; f_equal; ring.
  - cbn [REAL IMAG fst snd]. rewrite !dget_scale.
    destruct ((i =? 0) || (2 * i =? N))%Z; f_equal; ring.
Qed.

End InverseGain.

(** X21. Gain on the inverse side: with the exact transform as the engine,
    multiplying every norm of a spectrum by [a] (of any sign) multiplies
    every sample written by [aubio_fft_rdo] by [a]. *)
Theorem inverse_gain c N s s' a spectrum scaled output :
  0 < N -> N + 1 < uint_modulus ->
  fft_ok c N s -> fft_ok c N s' ->
  polar_ok N spectrum -> polar_ok N scaled ->
  norm scaled = map (Rmult a) (norm spectrum) ->
  phas scaled = phas spectrum ->
  packed_ok N output ->
  exists s1 o s2 o',
    aubio_fft_rdo c dft_engine s spectrum output = Some (s1, o) /\
    aubio_fft_rdo c dft_engine s' scaled output = Some (s2, o') /\
    data o' = map (Rmult a) (data o).
Proof.
  intros HN HN1 Hs Hs' Hsp Hsc Hnorm Hphas Ho.
  do 4 eexists.
  split; [apply (aubio_fft_rdo_spec c dft_engine N); auto; lia|].
  split; [apply (aubio_fft_rdo_spec c dft_engine N); auto; lia|].
  cbn [data set_data]. unfold rdo_frame. rewrite map_ztab.
  apply ztab_ext; intros j Hj.
  replace (rdo_packed N scaled) with (map (Rmult a) (rdo_packed N spectrum)).
  - rewrite backward_out_scale by assumption. ring.
  - unfold rdo_packed. rewrite map_ztab. apply ztab_ext; intros i _.
    unfold packed_at. rewrite Hnorm, Hphas, !dget_scale.
    destruct (i <=? N / 2); ring.
Qed.

Lemma inverse_gain_witness :
  exists s1 o s2 o',
    aubio_fft_rdo true dft_engine example_fft example_polar example_output
      = Some (s1, o) /\
    aubio_fft_rdo true dft_engine example_fft example_polar_scaled
      example_output = Some (s2, o') /\
    data o' = map (Rmult 2) (data o).
Proof.
  apply (inverse_gain true 4 example_fft example_fft 2 example_polar
           example_polar_scaled example_output).
  - reflexivity.
  - reflexivity.
  - repeat split; try reflexivity. eexists; split; reflexivity.
  - repeat split; try reflexivity. eexists; split; reflexivity.
  - split; [split|]; reflexivity.
  - split; [split|]; reflexivity.
  - reflexivity.
  - reflexivity.
  - split; reflexivity.
Defined.
